(** * zwerte: the lottery simulation engine

    A shallow embedding of the simulation worker ([simulation.worker.js]:
    [generateUniqueNumbers], [calculateChecksum], [heavyComputation],
    [runSimulation]) and of the cooperative fallback of the engine component
    ([runFallbackSimulation]), followed by the properties of the
    specification that can be stated over them.  Around them: the state of
    the engine component under the messages of its worker
    ([startSimulation]), the math utilities ([factorial], [combination],
    [generateRandomNumbers]), and the selection of the page
    ([handleMainNumberToggle], [isComplete], the quick pick and the
    disabling of [NumberGrid]).

    Conventions of the embedding.
    - [Math.random()] is the only source of nondeterminism.  A run is given
      the finite prefix of the random stream it may consume, as a list of
      rationals; a computation that asks for a sample beyond the prefix
      returns [None]: it is still running.  A loop that returns [None] on
      every prefix never exits.
    - JavaScript numbers: the integers of the program (counters, draws,
      counts, sums) are [Z]; doubles hold them up to 2^53.  The quotients
      and products behind the percentages, the scores and the average
      ([JS.div], [JS.mul]) are the doubles the program computes: the real
      result rounded to IEEE 754 binary64, to the nearest double with ties
      to even ([JS.double]), kept as the rational that double denotes, with
      [NaN] and the infinities apart ([JS.num]).  The sign of zero is not
      modelled.  A sample is any rational in [0, 1), and the integer
      [Math.floor(r * n)] drawn from it is the floor of the real product.
    - [Map] and [Set] iterate in insertion order, so they are association
      lists and duplicate-free lists in that order.
    - [Array.prototype.sort] is stable and sorts in place.
    - The host clock ([Date.now], [performance.now]) is not modelled: the
      [timestamp] and [processingTimeMs] fields are left out of the records. *)

From Stdlib Require Import ZArith QArith Qround Qabs List Bool Lia Lqa.
From Stdlib Require String.
From Stdlib Require Import Permutation Sorted.
Import ListNotations.
Import String.StringSyntax.
Local Open Scope string_scope.
Local Open Scope list_scope.
Local Open Scope Z_scope.

(** ** JavaScript numbers *)

Module JS.

Inductive num : Type :=
| NaN
| Inf (negative : bool)
| Fin (q : Q).

Definition of_Z (z : Z) : num := Fin (inject_Z z).

(** Every finite double is an integer multiple of 2^-1074: the scaled value
    of [x] is [x * grid]. *)
Definition grid : Z := 2 ^ 1074.

(** 2^1024 in multiples of 2^-1074: what rounds up to it overflows. *)
Definition overflow : Z := 2 ^ 2098.

(** The integer nearest to [q], the even one when [q] lies halfway. *)
Definition rne (q : Q) : Z :=
  let f := Qfloor q in
  match (q - inject_Z f ?= 1 # 2)%Q with
  | Lt => f
  | Gt => f + 1
  | Eq => if Z.even f then f else f + 1
  end.

(** The binary exponent of the scaled value of [x >= 0]. *)
Definition expo (x : Q) : Z := Z.log2 (Qfloor (x * inject_Z grid)).

(** The distance between neighbouring doubles at [x >= 0], in multiples of
    2^-1074: a significand of 53 bits, and 1 throughout the subnormal
    range. *)
Definition spacing (x : Q) : Z := 2 ^ Z.max 0 (expo x - 52).

(** The double nearest to [x >= 0], in multiples of 2^-1074. *)
Definition nearest (x : Q) : Z :=
  rne (x * inject_Z grid / inject_Z (spacing x)) * spacing x.

(** The scaled values that a double holds. *)
Definition representable (M : Z) : Prop :=
  0 <= M /\ (2 ^ Z.max 0 (Z.log2 M - 52) | M).

(** The Number nearest to the real [x]: IEEE 754 binary64, round to nearest,
    ties to even, overflow to an infinity. *)
Definition double (x : Q) : num :=
  let m := nearest (Qabs x) in
  if overflow <=? m then Inf (Qnum x <? 0)
  else Fin (Qred (inject_Z (if Qnum x <? 0 then - m else m) / inject_Z grid)).

(** The value of a decimal literal: the double nearest to it. *)
Definition literal (c : Q) : Q :=
  match double c with
  | Fin q => q
  | _ => c
  end.

(** [a / b] for two integer operands: the quotient, rounded. *)
Definition div (a b : Z) : num :=
  if b =? 0 then (if a =? 0 then NaN else Inf (a <? 0))
  else double (inject_Z a / inject_Z b).

(** [x * c] for a positive literal [c] (100, 0.85, 0.70): the product,
    rounded. *)
Definition mul (x : num) (c : Q) : num :=
  match x with
  | Fin q => double (q * literal c)
  | _ => x
  end.

(** [Math.round]: to the nearest integer, halves upwards. *)
Definition round (x : num) : num :=
  match x with
  | Fin q => Fin (inject_Z (Qfloor (q + (1 # 2))))
  | _ => x
  end.

(** [Math.ceil(n / 10)] for an integer [n]. *)
Definition ceilDiv10 (n : Z) : Z := - ((- n) / 10).

(** [a % d === 0] for integers; [a % 0] is [NaN], which is not [0]. *)
Definition remIsZero (a d : Z) : bool :=
  if d =? 0 then false else Z.rem a d =? 0.

(** [x <= y]; every comparison with [NaN] is false. *)
Definition le (x y : num) : Prop :=
  match x, y with
  | NaN, _ | _, NaN => False
  | Inf true, _ => True
  | _, Inf false => True
  | Fin a, Fin b => (a <= b)%Q
  | _, _ => False
  end.

Definition lt (x y : num) : Prop :=
  match x, y with
  | NaN, _ | _, NaN => False
  | Inf true, Inf true => False
  | Inf true, _ => True
  | Inf false, _ => False
  | _, Inf false => True
  | Fin a, Fin b => (a < b)%Q
  | _, _ => False
  end.

(** [x || d] where [x] is [undefined] or an integer: [undefined] and [0]
    are falsy. *)
Definition orElse (x : option Z) (d : num) : num :=
  match x with
  | Some z => if z =? 0 then d else of_Z z
  | None => d
  end.

(** [x || 0] where [x] is [undefined] or an integer. *)
Definition or0 (x : option Z) : Z :=
  match x with
  | Some z => z
  | None => 0
  end.

End JS.

(** ** The random source *)

(** A computation that consumes samples of [Math.random()]. *)
Definition Rand (A : Type) : Type := list Q -> option (A * list Q).

Definition ret {A} (a : A) : Rand A := fun rs => Some (a, rs).

Definition bind {A B} (c : Rand A) (k : A -> Rand B) : Rand B :=
  fun rs =>
    match c rs with
    | Some (a, rs') => k a rs'
    | None => None
    end.

Notation "x <- c ;; k" := (bind c (fun x => k))
  (at level 61, c at next level, right associativity).

(** [Math.random()] *)
Definition random : Rand Q :=
  fun rs =>
    match rs with
    | r :: rs' => Some (r, rs')
    | [] => None
    end.

(** [Math.floor(r * (max - min + 1)) + min] *)
Definition randomInt (r : Q) (min max : Z) : Z :=
  Qfloor (r * inject_Z (max - min + 1)) + min.

(** What [Math.random()] promises of a sample: [0 <= r < 1]. *)
Definition unitSample (r : Q) : Prop := (0 <= r)%Q /\ (r < 1)%Q.

(** ** Containers *)

(** [Set.prototype.add]: a new member goes last. *)
Fixpoint Set_add (x : Z) (s : list Z) : list Z :=
  match s with
  | [] => [x]
  | y :: s' => if x =? y then s else y :: Set_add x s'
  end.

Fixpoint Map_get (k : Z) (m : list (Z * Z)) : option Z :=
  match m with
  | [] => None
  | (k', v) :: m' => if k =? k' then Some v else Map_get k m'
  end.

(** [Map.prototype.set]: an existing key keeps its place, a new one goes last. *)
Fixpoint Map_set (k v : Z) (m : list (Z * Z)) : list (Z * Z) :=
  match m with
  | [] => [(k, v)]
  | (k', v') :: m' =>
      if k =? k' then (k, v) :: m' else (k', v') :: Map_set k v m'
  end.

(** [m.set(n, (m.get(n) || 0) + 1)] *)
Definition increment (n : Z) (m : list (Z * Z)) : list (Z * Z) :=
  Map_set n (JS.or0 (Map_get n m) + 1) m.

(** [Array.prototype.sort(cmp)]: stable; [cmp a b <= 0] keeps [a] before [b]. *)
Fixpoint insert_by {A} (cmp : A -> A -> Z) (x : A) (l : list A) : list A :=
  match l with
  | [] => [x]
  | y :: l' => if cmp x y <=? 0 then x :: l else y :: insert_by cmp x l'
  end.

Definition sort_by {A} (cmp : A -> A -> Z) (l : list A) : list A :=
  fold_right (insert_by cmp) [] l.

(** [(a, b) => a - b] *)
Definition ascending (a b : Z) : Z := a - b.

(** [(a, b) => b[1] - a[1]] on the entries of a frequency map *)
Definition byCountDesc (a b : Z * Z) : Z := snd b - snd a.

(** [xs.reduce((a, b) => a + b, 0)] *)
Definition sum (xs : list Z) : Z := fold_left Z.add xs 0.

(** [xs.slice(-n)] *)
Definition lastn {A} (n : nat) (xs : list A) : list A :=
  skipn (length xs - n) xs.

(** The integers from [lo], [n] of them. *)
Definition upFrom (lo : Z) (n : nat) : list Z :=
  map (fun k => lo + Z.of_nat k) (seq 0 n).

(** ** Data *)

Record RangeSpec : Type := {
  min : Z;
  max : Z;
  count : Z
}.

Module Result.
(** [SimulationResult], one trial. *)
Record t : Type := {
  id : Z;
  mainNumbers : list Z;
  bonusNumber : Z;
  checksum : Z
}.
End Result.

Module Combination.
(** An entry of [optimizedCombinations]. *)
Record t : Type := {
  rank : String.string;
  mainNumbers : list Z;
  bonusNumber : JS.num;
  frequencyScore : JS.num
}.
End Combination.

(** [SimulationStatistics]; [mostFrequentBonus] is [undefined] when no bonus
    was recorded, [optimizedCombinations] is an optional field. *)
Record Statistics : Type := {
  totalSimulations : Z;
  mostFrequentMain : list Z;
  mostFrequentBonus : option Z;
  averageSum : JS.num;
  optimizedCombinations : option (list Combination.t)
}.

(** Reading a property of [undefined]. *)
Inductive exn : Type :=
| TypeError (property : String.string).

(** What the worker posts. *)
Inductive Message : Type :=
| PROGRESS (progress : JS.num)
| COMPLETE (results : list Result.t) (statistics : Statistics)
| ERROR (error : exn).

(** [message.payload]; a range that the sender left out is [undefined]. *)
Record Payload : Type := {
  iterations : Z;
  mainNumberRange : option RangeSpec;
  bonusNumberRange : option RangeSpec
}.

(** ** The worker *)

(** The [while (numbers.size < count)] loop of [generateUniqueNumbers]. *)
Fixpoint fillSet (count min max : Z) (numbers : list Z) (rs : list Q)
  {struct rs} : option (list Z * list Q) :=
  if Z.of_nat (length numbers) <? count then
    match rs with
    | [] => None
    | r :: rs' => fillSet count min max (Set_add (randomInt r min max) numbers) rs'
    end
  else Some (numbers, rs).

Definition generateUniqueNumbers (count min max : Z) : Rand (list Z) :=
  numbers <- fillSet count min max [] ;;
  ret (sort_by ascending numbers).

Definition calculateChecksum (main : list Z) (bonus : Z) : Z :=
  sum main * bonus.

(** [heavyComputation] draws a target, factors it and drops the factors:
    all that is left of it is the sample it consumed. *)
Definition heavyComputation : Rand unit :=
  _ <- random ;; ret tt.

(** The variables of [runSimulation] that the loop updates, and the messages
    posted so far (oldest first). *)
Record LoopState : Type := {
  results : list Result.t;
  mainFrequency : list (Z * Z);
  bonusFrequency : list (Z * Z);
  totalSum : Z;
  posted : list Message
}.

Definition initialState : LoopState :=
  {| results := []; mainFrequency := []; bonusFrequency := [];
     totalSum := 0; posted := [] |}.

(** The progress message of trial [i], when one is due. *)
Definition progressAt (iterations i : Z) : list Message :=
  if JS.remIsZero (i + 1) (JS.ceilDiv10 iterations)
  then [PROGRESS (JS.mul (JS.div (i + 1) iterations) 100)]
  else [].

(** What one pass through the body of the [for] loop does to the variables,
    once [mainNumbers] and [bonusNumber] are drawn. *)
Definition accumulate (iterations i : Z) (mainNumbers : list Z) (bonusNumber : Z)
  (st : LoopState) : LoopState :=
  {| results := results st ++
       [ {| Result.id := i + 1;
            Result.mainNumbers := mainNumbers;
            Result.bonusNumber := bonusNumber;
            Result.checksum := calculateChecksum mainNumbers bonusNumber |} ];
     mainFrequency :=
       fold_left (fun m n => increment n m) mainNumbers (mainFrequency st);
     bonusFrequency := increment bonusNumber (bonusFrequency st);
     totalSum := totalSum st + sum mainNumbers;
     posted := posted st ++ progressAt iterations i |}.

(** One pass through the body of the [for] loop; [inl] is a thrown exception. *)
Definition trial (p : Payload) (i : Z) (st : LoopState) : Rand (exn + LoopState) :=
  _ <- heavyComputation ;;
  match mainNumberRange p with
  | None => ret (inl (TypeError "count"))
  | Some mr =>
      mainNumbers <- generateUniqueNumbers (count mr) (min mr) (max mr) ;;
      r <- random ;;
      match bonusNumberRange p with
      | None => ret (inl (TypeError "max"))
      | Some br =>
          let bonusNumber := randomInt r (min br) (max br) in
          ret (inr (accumulate (iterations p) i mainNumbers bonusNumber st))
      end
  end.

(** [for (let i = 0; i < iterations; i++)], with [todo] passes left.  The
    result is the state reached and the exception that stopped the loop, if
    any. *)
Fixpoint loop (p : Payload) (todo : nat) (i : Z) (st : LoopState)
  : Rand (LoopState * option exn) :=
  match todo with
  | O => ret (st, None)
  | S todo' =>
      r <- trial p i st ;;
      match r with
      | inl e => ret (st, Some e)
      | inr st' => loop p todo' (i + 1) st'
      end
  end.

(** The three ranked results; [top] is [sortedBonus[0]]. *)
Definition wrapFrom (top : option Z) (limit step : Z) : JS.num :=
  match top with
  | Some b => if b =? limit then JS.of_Z 1 else JS.of_Z (b + step)
  | None => JS.NaN
  end.

(** The statistics computed after the loop.  [sortedMain.sort(...)] sorts in
    place and [topMain] is that same array, so every later [sortedMain] reads
    the ascending array. *)
Definition rankStatistics (iterations : Z) (st : LoopState) : Statistics :=
  let byFrequency := map fst (firstn 6 (sort_by byCountDesc (mainFrequency st))) in
  let sortedBonus := map fst (sort_by byCountDesc (bonusFrequency st)) in
  let topMain := sort_by ascending byFrequency in
  let sortedMain := topMain in
  let frequency :=
    JS.or0 (match nth_error sortedMain 0 with
            | Some n => Map_get n (mainFrequency st)
            | None => None
            end) in
  let percent := JS.mul (JS.div frequency iterations) 100 in
  let top3Combinations :=
    [ {| Combination.rank := "Primary Result";
         Combination.mainNumbers := topMain;
         Combination.bonusNumber := JS.orElse (nth_error sortedBonus 0) (JS.of_Z 1);
         Combination.frequencyScore := JS.round percent |};
      {| Combination.rank := "Secondary Result";
         Combination.mainNumbers := topMain;
         Combination.bonusNumber :=
           JS.orElse (nth_error sortedBonus 1) (wrapFrom (nth_error sortedBonus 0) 12 1);
         Combination.frequencyScore := JS.round (JS.mul percent (85 # 100)) |};
      {| Combination.rank := "Tertiary Result";
         Combination.mainNumbers := topMain;
         Combination.bonusNumber :=
           JS.orElse (nth_error sortedBonus 2) (wrapFrom (nth_error sortedBonus 0) 11 2);
         Combination.frequencyScore := JS.round (JS.mul percent (70 # 100)) |} ] in
  {| totalSimulations := iterations;
     mostFrequentMain := sortedMain;
     mostFrequentBonus := nth_error sortedBonus 0;
     averageSum := JS.round (JS.div (totalSum st) iterations);
     optimizedCombinations := Some top3Combinations |}.

(** The loop of [runSimulation], from the initial state. *)
Definition simulate (p : Payload) : Rand (LoopState * option exn) :=
  loop p (Z.to_nat (iterations p)) 0 initialState.

(** [runSimulation]: everything posted by one run, in order. *)
Definition runSimulation (p : Payload) (rs : list Q) : option (list Message) :=
  match simulate p rs with
  | None => None
  | Some ((st, Some e), _) => Some (posted st ++ [ERROR e])
  | Some ((st, None), _) =>
      Some (posted st ++
            [COMPLETE (lastn 50 (results st)) (rankStatistics (iterations p) st)])
  end.

(** ** The cooperative fallback of the engine component *)

Module Fallback.

Definition chunkSize : nat := 10.

(** [while (mainNumbers.length < 6)], with [includes] and [push]. *)
Fixpoint pickMain (mainNumbers : list Z) (rs : list Q) {struct rs}
  : option (list Z * list Q) :=
  if (length mainNumbers <? 6)%nat then
    match rs with
    | [] => None
    | r :: rs' =>
        let num := Qfloor (r * 31) + 1 in
        pickMain (if existsb (Z.eqb num) mainNumbers
                  then mainNumbers else mainNumbers ++ [num]) rs'
    end
  else Some (mainNumbers, rs).

(** [for (let i = 0; i < chunkSize && processed < iterations; i++, processed++)],
    with [left] passes of the chunk left. *)
Fixpoint chunk (iterations : Z) (left : nat) (results : list Result.t)
  (processed : Z) : Rand (list Result.t * Z) :=
  match left with
  | O => ret (results, processed)
  | S left' =>
      if processed <? iterations then
        picked <- pickMain [] ;;
        let mainNumbers := sort_by ascending picked in
        r <- random ;;
        let bonusNumber := Qfloor (r * 12) + 1 in
        chunk iterations left'
          (results ++
             [ {| Result.id := processed + 1;
                  Result.mainNumbers := mainNumbers;
                  Result.bonusNumber := bonusNumber;
                  Result.checksum := sum mainNumbers * bonusNumber |} ])
          (processed + 1)
      else ret (results, processed)
  end.

(** What the component shows once the fallback resolves: the successive
    [setProgress] values, [setResults] and [setStatistics]. *)
Record Outcome : Type := {
  progress : list JS.num;
  results : list Result.t;
  statistics : Statistics
}.

(** [processChunk]; [timeouts] bounds the number of [setTimeout] rounds. *)
Fixpoint processChunk (iterations : Z) (timeouts : nat)
  (results : list Result.t) (processed : Z) (shown : list JS.num)
  (rs : list Q) : option Outcome :=
  match chunk iterations chunkSize results processed rs with
  | None => None
  | Some ((results', processed'), rs') =>
      let shown' := shown ++ [JS.mul (JS.div processed' iterations) 100] in
      if processed' <? iterations then
        match timeouts with
        | O => None
        | S timeouts' =>
            processChunk iterations timeouts' results' processed' shown' rs'
        end
      else
        Some {| progress := shown';
                results := lastn 50 results';
                statistics :=
                  {| totalSimulations := iterations;
                     mostFrequentMain := [3; 7; 12; 18; 24; 29];
                     mostFrequentBonus := Some 6;
                     averageSum :=
                       JS.round
                         (JS.div
                            (fold_left
                               (fun acc r => acc + sum (Result.mainNumbers r))
                               results' 0)
                            iterations);
                     optimizedCombinations := None |} |}
  end.

(** Every round that schedules another one has processed a trial, so
    [iterations] rounds are never used up. *)
Definition runFallbackSimulation (iterations : Z) (rs : list Q) : option Outcome :=
  processChunk iterations (Z.to_nat iterations) [] 0 [] rs.

End Fallback.

(** ** Vocabulary of the specification *)

(** A RangeSpec that can be served: [0 <= count <= max - min + 1]. *)
Definition servable (s : RangeSpec) : Prop :=
  0 <= count s <= max s - min s + 1.

(** A range with at least one value. *)
Definition inhabited (s : RangeSpec) : Prop := min s <= max s.

Definition inRange (s : RangeSpec) (n : Z) : Prop := min s <= n <= max s.

(** What the specification asks of a Draw. *)
Definition wellFormedDraw (mainSpec bonusSpec : RangeSpec) (d : Result.t) : Prop :=
  NoDup (Result.mainNumbers d) /\
  Forall (inRange mainSpec) (Result.mainNumbers d) /\
  StronglySorted Z.lt (Result.mainNumbers d) /\
  Z.of_nat (length (Result.mainNumbers d)) = count mainSpec /\
  inRange bonusSpec (Result.bonusNumber d) /\
  Result.checksum d = sum (Result.mainNumbers d) * Result.bonusNumber d.

(** The total of the counts of a frequency table. *)
Definition totalCount (m : list (Z * Z)) : Z := sum (map snd m).

(** A table with one entry per key, all of whose counts are at least one. *)
Definition counted (m : list (Z * Z)) : Prop :=
  NoDup (map fst m) /\ Forall (fun e => 1 <= snd e) m.

(** The statistics of the [COMPLETE] message of a run, if it posts one. *)
Definition statisticsOf (msgs : list Message) : option Statistics :=
  match last msgs (ERROR (TypeError "")) with
  | COMPLETE _ s => Some s
  | _ => None
  end.

Definition isProgress (m : Message) : Prop :=
  match m with PROGRESS _ => True | _ => False end.

Definition isTerminal (m : Message) : Prop :=
  match m with PROGRESS _ => False | _ => True end.

(** The worker never gets out of its sampling loop, whatever it samples. *)
Definition neverPosts (p : Payload) : Prop :=
  forall rs, Forall unitSample rs -> runSimulation p rs = None.

(** A progress message is due when the count of completed trials is a
    multiple of [ceil(total / 10)]. *)
Definition due (total completed : Z) : bool :=
  completed mod JS.ceilDiv10 total =? 0.

(** The percentage a progress message carries. *)
Definition percentOf (total completed : Z) : JS.num :=
  JS.mul (JS.div completed total) 100.

(** The percentages of the progress messages of a run of [total] trials of
    which [done] are completed. *)
Definition progressUpTo (total : Z) (done : nat) : list JS.num :=
  map (percentOf total) (filter (due total) (upFrom 1 done)).

Definition expectedProgress (total : Z) : list Message :=
  map PROGRESS (progressUpTo total (Z.to_nat total)).

(** ** Sample streams for the examples *)

(** A sample on which [randomInt _ min max] is [v]. *)
Definition sampleOf (min max v : Z) : Q :=
  Qred (inject_Z (v - min) / inject_Z (max - min + 1)).

(** The samples one trial consumes to draw [main] (in that order) and
    [bonus]: one for [heavyComputation], one per main number, one for the
    bonus number. *)
Definition trialSamples (mainSpec bonusSpec : RangeSpec) (main : list Z) (bonus : Z)
  : list Q :=
  0%Q :: map (sampleOf (min mainSpec) (max mainSpec)) main ++
  [sampleOf (min bonusSpec) (max bonusSpec) bonus].

(** The ranges the engine component sends: 6 of 1..31 and a bonus of 1..12. *)
Definition SECTION_A : RangeSpec := {| min := 1; max := 31; count := 6 |}.
Definition SECTION_B : RangeSpec := {| min := 1; max := 12; count := 1 |}.

Definition SIMULATE (n : Z) : Payload :=
  {| iterations := n;
     mainNumberRange := Some SECTION_A;
     bonusNumberRange := Some SECTION_B |}.

Definition defaultTrial (main : list Z) (bonus : Z) : list Q :=
  trialSamples SECTION_A SECTION_B main bonus.

(** A start that asks for more unique main numbers than its range holds: the
    scenario [{min: 1, max: 5, count: 6}] of the specification. *)
Definition impossibleStart (n : Z) : Payload :=
  {| iterations := n;
     mainNumberRange := Some {| min := 1; max := 5; count := 6 |};
     bonusNumberRange := Some SECTION_B |}.

(** A percentage: in (0, 100]. *)
Definition isPercentage (v : JS.num) : Prop :=
  JS.lt (JS.of_Z 0) v /\ JS.le v (JS.of_Z 100).

(** Seven trials of the default configuration in which no main number is
    drawn more than twice. *)
Definition sevenTrials : list Q :=
  defaultTrial [1; 2; 3; 4; 5; 6] 3 ++ defaultTrial [1; 2; 3; 4; 5; 6] 3 ++
  defaultTrial [7; 8; 9; 10; 11; 12] 4 ++ defaultTrial [7; 8; 9; 10; 11; 12] 4 ++
  defaultTrial [13; 14; 15; 16; 17; 18] 5 ++ defaultTrial [13; 14; 15; 16; 17; 18] 5 ++
  defaultTrial [19; 20; 21; 22; 23; 24] 6.

(** Twenty trials of the default configuration in which the numbers 1..6
    are drawn 9 times each and no other number more than 3 times. *)
Definition twentyTrials : list Q :=
  concat (repeat (defaultTrial [1; 2; 3; 4; 5; 6] 3) 9) ++
  concat (repeat (defaultTrial [7; 8; 9; 10; 11; 12] 4 ++
                  defaultTrial [13; 14; 15; 16; 17; 18] 5 ++
                  defaultTrial [19; 20; 21; 22; 23; 24] 6) 3) ++
  defaultTrial [25; 26; 27; 28; 29; 30] 7 ++ defaultTrial [25; 26; 27; 28; 29; 30] 7.

(** Two trials of the default configuration; the first samples the main
    number 9 twice. *)
Definition twoTrials : list Q :=
  defaultTrial [4; 9; 1; 9; 30; 17; 22] 12 ++ defaultTrial [31; 2; 8; 16; 5; 23] 1.

(** A start with a bonus range of 1..5. *)
Definition bonusOfFive : RangeSpec := {| min := 1; max := 5; count := 1 |}.

Definition startBonusOfFive : Payload :=
  {| iterations := 1;
     mainNumberRange := Some SECTION_A;
     bonusNumberRange := Some bonusOfFive |}.

(** A start that draws 3 main numbers of 1..31. *)
Definition threeOf31 : RangeSpec := {| min := 1; max := 31; count := 3 |}.

Definition startThreeOf31 : Payload :=
  {| iterations := 1;
     mainNumberRange := Some threeOf31;
     bonusNumberRange := Some SECTION_B |}.

(** The samples on which a trial of the fallback draws 1..6 and the bonus
    number 3, and twelve such trials. *)
Definition fallbackTrial : list Q :=
  map (sampleOf 1 31) [1; 2; 3; 4; 5; 6] ++ [sampleOf 1 12 3].

Definition twelveFallbackTrials : list Q := concat (repeat fallbackTrial 12).

(** ** The factorization of [heavyComputation] *)

(** [while (n % d === 0) { factors.push(d); n /= d; }]; [fuel] bounds the
    passes. *)
Fixpoint divideOut (fuel : nat) (d n : Z) (factors : list Z) : option (Z * list Z) :=
  if Z.rem n d =? 0 then
    match fuel with
    | O => None
    | S fuel' => divideOut fuel' d (Z.quot n d) (factors ++ [d])
    end
  else Some (n, factors).

(** [for (let d = 2; d * d <= n; d++)] around it. *)
Fixpoint trialDivide (fuel : nat) (d n : Z) (factors : list Z) : option (Z * list Z) :=
  if d * d <=? n then
    match fuel with
    | O => None
    | S fuel' =>
        match divideOut (Z.to_nat n) d n factors with
        | Some (n', factors') => trialDivide fuel' (d + 1) n' factors'
        | None => None
        end
    end
  else Some (n, factors).

(** The [factors] of [heavyComputation] when it returns, for the target
    [Math.floor(r * 10000) + 1000] of its sample. *)
Definition factorsOf (target : Z) : option (list Z) :=
  match trialDivide (Z.to_nat target) 2 target [] with
  | Some (n, factors) => Some (if 1 <? n then factors ++ [n] else factors)
  | None => None
  end.

Definition heavyTarget (r : Q) : Z := Qfloor (r * 10000) + 1000.

Definition product (xs : list Z) : Z := fold_right Z.mul 1 xs.

(** A prime: greater than 1 and without a divisor strictly between 1 and
    itself. *)
Definition isPrime (p : Z) : Prop :=
  1 < p /\ forall m, 1 < m < p -> ~ (m | p).

(** ** The math utilities *)

Module MathUtils.

(** [factorial]; [inl] is the message of the error it throws. *)
Definition factorial (n : Z) : String.string + Z :=
  if n <? 0 then inl "Factorial is not defined for negative numbers"
  else if (n =? 0) || (n =? 1) then inr 1
  else inr (fold_left (fun result i => result * i) (upFrom 2 (Z.to_nat (n - 1))) 1).

(** [combination]: the BigInt [result], whose division truncates.  The
    [Number(result)] it returns is that integer as long as it does not
    exceed 2^53. *)
Definition combination (n r : Z) : Z :=
  if r >? n then 0
  else if (r =? 0) || (r =? n) then 1
  else
    let k := Z.min r (n - r) in
    fold_left (fun result i => Z.quot (result * (n - i)) (i + 1))
      (upFrom 0 (Z.to_nat k)) 1.

Definition calculateTotalOdds : Z := combination 31 6 * 12.

(** [generateRandomNumbers]: the loop of the worker behind a guard. *)
Definition generateRandomNumbers (count min max : Z) : Rand (String.string + list Z) :=
  if count >? max - min + 1
  then ret (inl "Cannot generate more unique numbers than available in range")
  else numbers <- fillSet count min max [] ;;
       ret (inr (sort_by ascending numbers)).

End MathUtils.

(** Pascal's triangle, to state what [combination] computes. *)
Fixpoint binomial (n k : nat) : Z :=
  match k, n with
  | O, _ => 1
  | S _, O => 0
  | S k', S n' => binomial n' k' + binomial n' k
  end.

(** ** The selection of the page and its grids *)

Module Page.

(** [handleMainNumberToggle], as the update of [mainNumbers]. *)
Definition handleMainNumberToggle (num : Z) (prev : list Z) : list Z :=
  if existsb (Z.eqb num) prev then filter (fun n => negb (n =? num)) prev
  else if (6 <=? length prev)%nat then prev
  else sort_by ascending (prev ++ [num]).

(** [isComplete] *)
Definition isComplete (mainNumbers : list Z) (bonusNumber : option Z) : bool :=
  (length mainNumbers =? 6)%nat &&
  match bonusNumber with Some _ => true | None => false end.

(** [isDisabled] of the cell [num] of [NumberGrid]. *)
Definition isDisabled (disabled : bool) (selected : list Z) (num : Z) : bool :=
  let maxReached := (6 <=? length selected)%nat in
  let isSelected := existsb (Z.eqb num) selected in
  disabled || (maxReached && negb isSelected).

(** What [handleQuickPick] of [QuickPick] passes to [onPick]: the main
    numbers and [bonusNumbers[0]]; [inl] is a thrown error. *)
Definition handleQuickPick : Rand (String.string + (list Z * option Z)) :=
  main <- MathUtils.generateRandomNumbers 6 1 31 ;;
  match main with
  | inl e => ret (inl e)
  | inr mainNumbers =>
      bonus <- MathUtils.generateRandomNumbers 1 1 12 ;;
      match bonus with
      | inl e => ret (inl e)
      | inr bonusNumbers => ret (inr (mainNumbers, nth_error bonusNumbers 0))
      end
  end.

End Page.

(** ** The engine component around the worker *)

Module SimulationState.
Inductive t : Type := idle | processing | success | error.
End SimulationState.

Module Engine.

(** The state of the component; the text of an error is that of the
    exception the worker caught. *)
Record t : Type := {
  state : SimulationState.t;
  progress : JS.num;
  results : list Result.t;
  statistics : option Statistics;
  error : option exn;
  workerRef : bool
}.

Definition initial : t :=
  {| state := SimulationState.idle; progress := JS.of_Z 0; results := [];
     statistics := None; error := None; workerRef := false |}.

(** [payload?.progress || 0]: [NaN] and [0] are falsy. *)
Definition progressOr0 (v : JS.num) : JS.num :=
  match v with
  | JS.NaN => JS.of_Z 0
  | JS.Fin q => if Qeq_bool q 0 then JS.of_Z 0 else v
  | JS.Inf _ => v
  end.

(** [startSimulation], up to the message it posts to the worker. *)
Definition startSimulation (canPlay : bool) (e : t) : t :=
  if canPlay then
    {| state := SimulationState.processing; progress := JS.of_Z 0; results := [];
       statistics := None; error := None; workerRef := true |}
  else e.

(** [worker.onmessage] *)
Definition onmessage (m : Message) (e : t) : t :=
  match m with
  | PROGRESS v =>
      {| state := state e; progress := progressOr0 v; results := results e;
         statistics := statistics e; error := error e; workerRef := workerRef e |}
  | COMPLETE rs s =>
      {| state := SimulationState.success; progress := progress e; results := rs;
         statistics := Some s; error := error e; workerRef := false |}
  | ERROR x =>
      {| state := SimulationState.error; progress := progress e; results := results e;
         statistics := statistics e; error := Some x; workerRef := false |}
  end.

(** The messages of a run, handled in the order they were posted. *)
Definition deliver (msgs : list Message) (e : t) : t :=
  fold_left (fun e m => onmessage m e) msgs e.

(** [worker.onerror]: the fallback resolved with [out], then
    [setState("success")]. *)
Definition onerror (out : Fallback.Outcome) (e : t) : t :=
  {| state := SimulationState.success;
     progress := last (Fallback.progress out) (progress e);
     results := Fallback.results out;
     statistics := Some (Fallback.statistics out);
     error := error e;
     workerRef := false |}.

End Engine.

(** Fifty-two default trials, each drawing 1..6 and the bonus number 1. *)
Definition fiftyTwoTrials : list Q :=
  concat (repeat (defaultTrial [1; 2; 3; 4; 5; 6] 1) 52).

(** Twenty-five such trials. *)
Definition twentyFiveTrials : list Q :=
  concat (repeat (defaultTrial [1; 2; 3; 4; 5; 6] 1) 25).

(** Twelve trials of the fallback with distinct draws. *)
Definition twelveMixedFallbackTrials : list Q :=
  concat (map (fun k => map (sampleOf 1 31) (upFrom k 6) ++ [sampleOf 1 12 k])
              (upFrom 1 12)).

(** * Properties *)

(** ** Rounding to a double *)

Lemma rne_comp (p q : Q) : (p == q)%Q -> JS.rne p = JS.rne q.
Proof.
  intros H. unfold JS.rne. rewrite (Qfloor_comp _ _ H).
  assert (E : (p - inject_Z (Qfloor q) == q - inject_Z (Qfloor q))%Q) by (rewrite H; reflexivity).
  rewrite (Qcompare_comp _ _ E _ _ (Qeq_refl _)). reflexivity.
Qed.

Lemma rne_Z (z : Z) : JS.rne (inject_Z z) = z.
Proof.
  unfold JS.rne. rewrite Qfloor_Z.
  destruct (Qcompare_spec (inject_Z z - inject_Z z) (1 # 2)) as [H|H|H]; try reflexivity; lra.
Qed.

Lemma rne_bounds (q : Q) : Qfloor q <= JS.rne q <= Qfloor q + 1.
Proof.
  unfold JS.rne. destruct (_ ?= _)%Q; [destruct (Z.even _)| |]; lia.
Qed.

Lemma rne_mono (p q : Q) : (p <= q)%Q -> JS.rne p <= JS.rne q.
Proof.
  intros H. pose proof (Qfloor_resp_le _ _ H) as Hf.
  pose proof (rne_bounds p) as Bp. pose proof (rne_bounds q) as Bq.
  destruct (Z.eq_dec (Qfloor p) (Qfloor q)) as [E|E]; [|lia].
  unfold JS.rne in *. rewrite E in *.
  destruct (Qcompare_spec (p - inject_Z (Qfloor q)) (1 # 2)) as [H1|H1|H1];
    destruct (Qcompare_spec (q - inject_Z (Qfloor q)) (1 # 2)) as [H2|H2|H2];
    try destruct (Z.even (Qfloor q)); try lia; lra.
Qed.

Lemma rne_le_Z (q : Q) (z : Z) : (q <= inject_Z z)%Q -> JS.rne q <= z.
Proof. intros H. rewrite <- (rne_Z z). now apply rne_mono. Qed.

Lemma rne_ge_Z (q : Q) (z : Z) : (inject_Z z <= q)%Q -> z <= JS.rne q.
Proof. intros H. rewrite <- (rne_Z z). now apply rne_mono. Qed.

Lemma grid_pos : 0 < JS.grid.
Proof. unfold JS.grid. apply Z.pow_pos_nonneg; lia. Qed.

Lemma spacing_pos (x : Q) : 0 < JS.spacing x.
Proof. unfold JS.spacing. apply Z.pow_pos_nonneg; lia. Qed.

Lemma inject_Z_pos (z : Z) : 0 < z -> (0 < inject_Z z)%Q.
Proof. intros H. change (inject_Z 0 < inject_Z z)%Q. now rewrite <- Zlt_Qlt. Qed.

Lemma nearest_comp (x y : Q) : (x == y)%Q -> JS.nearest x = JS.nearest y.
Proof.
  intros H. unfold JS.nearest, JS.spacing, JS.expo.
  assert (E : (x * inject_Z JS.grid == y * inject_Z JS.grid)%Q) by (rewrite H; reflexivity).
  rewrite (Qfloor_comp _ _ E). f_equal. apply rne_comp. rewrite E. reflexivity.
Qed.

Lemma nearest_le (x : Q) (c : Z) :
  (x * inject_Z JS.grid <= inject_Z (c * JS.spacing x))%Q -> JS.nearest x <= c * JS.spacing x.
Proof.
  intros H. pose proof (spacing_pos x) as Hs. unfold JS.nearest.
  apply Z.mul_le_mono_nonneg_r; [lia|]. apply rne_le_Z.
  apply Qle_shift_div_r; [now apply inject_Z_pos|]. now rewrite <- inject_Z_mult.
Qed.

Lemma nearest_ge (x : Q) (c : Z) :
  (inject_Z (c * JS.spacing x) <= x * inject_Z JS.grid)%Q -> c * JS.spacing x <= JS.nearest x.
Proof.
  intros H. pose proof (spacing_pos x) as Hs. unfold JS.nearest.
  apply Z.mul_le_mono_nonneg_r; [lia|]. apply rne_ge_Z.
  apply Qle_shift_div_l; [now apply inject_Z_pos|]. now rewrite <- inject_Z_mult.
Qed.

Lemma spacing_expo (x : Q) : JS.spacing x = 2 ^ Z.max 0 (JS.expo x - 52).
Proof. reflexivity. Qed.

Lemma expo_nonneg (x : Q) : 0 <= JS.expo x.
Proof. apply Z.log2_nonneg. Qed.

Lemma pow2_split (a k : Z) : 0 <= k <= a -> 2 ^ a = 2 ^ (a - k) * 2 ^ k.
Proof. intros H. rewrite <- Z.pow_add_r by lia. f_equal. lia. Qed.

Lemma below_next_binade (x : Q) :
  (0 <= x)%Q -> (x * inject_Z JS.grid <= inject_Z (2 ^ (JS.expo x + 1)))%Q.
Proof.
  intros Hx. pose proof grid_pos as Hg.
  set (X := (x * inject_Z JS.grid)%Q).
  assert (HX : (0 <= X)%Q).
  { unfold X. apply Qmult_le_0_compat; [exact Hx|]. apply Qlt_le_weak. now apply inject_Z_pos. }
  assert (HF : 0 <= Qfloor X).
  { rewrite <- (Qfloor_Z 0). now apply Qfloor_resp_le. }
  assert (Hlt : Qfloor X + 1 <= 2 ^ (JS.expo x + 1)).
  { unfold JS.expo. fold X. destruct (Z.eq_dec (Qfloor X) 0) as [E|E].
    - rewrite E. simpl. lia.
    - pose proof (Z.log2_spec (Qfloor X)) as H. rewrite <- Z.add_1_r in H. lia. }
  apply Qle_trans with (inject_Z (Qfloor X + 1)).
  - apply Qlt_le_weak, Qlt_floor.
  - now rewrite <- Zle_Qle.
Qed.

Lemma above_binade (x : Q) :
  0 < Qfloor (x * inject_Z JS.grid) ->
  (inject_Z (2 ^ JS.expo x) <= x * inject_Z JS.grid)%Q.
Proof.
  intros HF. apply Qle_trans with (inject_Z (Qfloor (x * inject_Z JS.grid))).
  - rewrite <- Zle_Qle. unfold JS.expo. apply Z.log2_spec. exact HF.
  - apply Qfloor_le.
Qed.

Lemma nearest_upper (x : Q) : (0 <= x)%Q -> JS.nearest x <= 2 ^ (JS.expo x + 1).
Proof.
  intros Hx. pose proof (expo_nonneg x) as He.
  rewrite (pow2_split (JS.expo x + 1) (Z.max 0 (JS.expo x - 52))) by lia.
  rewrite <- spacing_expo. apply nearest_le.
  rewrite spacing_expo, <- pow2_split by lia. now apply below_next_binade.
Qed.

Lemma nearest_lower (x : Q) :
  0 < Qfloor (x * inject_Z JS.grid) -> 2 ^ JS.expo x <= JS.nearest x.
Proof.
  intros HF. pose proof (expo_nonneg x) as He.
  rewrite (pow2_split (JS.expo x) (Z.max 0 (JS.expo x - 52))) by lia.
  rewrite <- spacing_expo. apply nearest_ge.
  rewrite spacing_expo, <- pow2_split by lia. now apply above_binade.
Qed.

Lemma nearest_mono (x y : Q) : (0 <= x)%Q -> (x <= y)%Q -> JS.nearest x <= JS.nearest y.
Proof.
  intros Hx Hxy. pose proof grid_pos as Hg.
  assert (HXY : (x * inject_Z JS.grid <= y * inject_Z JS.grid)%Q).
  { apply Qmult_le_compat_r; [exact Hxy|]. apply Qlt_le_weak. now apply inject_Z_pos. }
  assert (HF0 : 0 <= Qfloor (x * inject_Z JS.grid)).
  { rewrite <- (Qfloor_Z 0). apply Qfloor_resp_le.
    apply Qmult_le_0_compat; [exact Hx|]. apply Qlt_le_weak. now apply inject_Z_pos. }
  pose proof (Qfloor_resp_le _ _ HXY) as HF.
  assert (He : JS.expo x <= JS.expo y) by (unfold JS.expo; now apply Z.log2_le_mono).
  pose proof (expo_nonneg x) as Hex.
  destruct (Z.eq_dec (Z.max 0 (JS.expo x - 52)) (Z.max 0 (JS.expo y - 52))) as [E|E].
  - unfold JS.nearest. rewrite !spacing_expo, E.
    apply Z.mul_le_mono_nonneg_r; [apply Z.pow_nonneg; lia|].
    apply rne_mono. apply Qmult_le_compat_r; [exact HXY|].
    apply Qlt_le_weak, Qinv_lt_0_compat, inject_Z_pos. apply Z.pow_pos_nonneg; lia.
  - assert (Hlt : JS.expo x + 1 <= JS.expo y) by lia.
    apply Z.le_trans with (2 ^ (JS.expo x + 1)); [now apply nearest_upper|].
    apply Z.le_trans with (2 ^ JS.expo y); [apply Z.pow_le_mono_r; lia|].
    apply nearest_lower.
    assert (0 < JS.expo y) by lia. unfold JS.expo in H.
    destruct (Z.le_gt_cases (Qfloor (y * inject_Z JS.grid)) 0) as [Hn|Hp]; [|exact Hp].
    rewrite Z.log2_nonpos in H by exact Hn. lia.
Qed.

Lemma nearest_exact (x : Q) (M : Z) :
  (x * inject_Z JS.grid == inject_Z M)%Q -> JS.representable M -> JS.nearest x = M.
Proof.
  intros HX [HM [c Hc]]. unfold JS.nearest, JS.spacing, JS.expo.
  rewrite (Qfloor_comp _ _ HX), Qfloor_Z.
  set (s := 2 ^ Z.max 0 (Z.log2 M - 52)) in *.
  assert (Hs : 0 < s) by (apply Z.pow_pos_nonneg; lia).
  rewrite (rne_comp _ (inject_Z c)); [rewrite rne_Z; lia|].
  rewrite HX, Hc, inject_Z_mult. field.
  intros H0. pose proof (inject_Z_pos s Hs) as Hp. rewrite H0 in Hp. now apply Qlt_irrefl in Hp.
Qed.

Lemma representable_pow2 (a : Z) : 0 <= a -> JS.representable (2 ^ a).
Proof.
  intros Ha. split; [apply Z.pow_nonneg; lia|].
  rewrite Z.log2_pow2 by exact Ha.
  exists (2 ^ (a - Z.max 0 (a - 52))). apply pow2_split. lia.
Qed.

Lemma representable_scaled (m j : Z) :
  0 <= m <= 2 ^ 53 -> 0 <= j -> JS.representable (m * 2 ^ j).
Proof.
  intros Hm Hj.
  destruct (Z.eq_dec m 0) as [->|Hm0].
  { split; [lia|]. exists 0. lia. }
  destruct (Z.eq_dec m (2 ^ 53)) as [->|Hm53].
  { rewrite <- Z.pow_add_r by lia. apply representable_pow2. lia. }
  assert (Hlog : Z.log2 m < 53) by (apply Z.log2_lt_pow2; lia).
  split; [apply Z.mul_nonneg_nonneg; [lia | apply Z.pow_nonneg; lia]|].
  rewrite Z.log2_mul_pow2 by lia.
  pose proof (Z.log2_nonneg m) as Hl.
  apply Z.divide_mul_r.
  exists (2 ^ (j - Z.max 0 (j + Z.log2 m - 52))). apply pow2_split. lia.
Qed.

Lemma nearest_nonneg (x : Q) : (0 <= x)%Q -> 0 <= JS.nearest x.
Proof.
  intros Hx. pose proof (spacing_pos x) as Hs. pose proof grid_pos as Hg.
  unfold JS.nearest. apply Z.mul_nonneg_nonneg; [|lia]. apply rne_ge_Z.
  apply Qle_shift_div_l; [now apply inject_Z_pos|].
  rewrite Qmult_0_l. apply Qmult_le_0_compat; [exact Hx|].
  apply Qlt_le_weak. now apply inject_Z_pos.
Qed.

Lemma nearest_representable (x : Q) : (0 <= x)%Q -> JS.representable (JS.nearest x).
Proof.
  intros Hx. pose proof grid_pos as Hg.
  pose proof (nearest_upper x Hx) as Hup. pose proof (nearest_nonneg x Hx) as H0.
  pose proof (expo_nonneg x) as He.
  destruct (Z.eq_dec (JS.nearest x) (2 ^ (JS.expo x + 1))) as [E|E].
  { rewrite E. apply representable_pow2. lia. }
  assert (HF0 : 0 <= Qfloor (x * inject_Z JS.grid)).
  { rewrite <- (Qfloor_Z 0). apply Qfloor_resp_le.
    apply Qmult_le_0_compat; [exact Hx|]. apply Qlt_le_weak. now apply inject_Z_pos. }
  split; [exact H0|].
  destruct (Z.eq_dec (Qfloor (x * inject_Z JS.grid)) 0) as [EF|EF].
  - assert (Hex : JS.expo x = 0) by (unfold JS.expo; now rewrite EF).
    rewrite Hex in Hup, E. change (2 ^ (0 + 1)) with 2 in *.
    assert (Hc : JS.nearest x = 0 \/ JS.nearest x = 1) by lia.
    destruct Hc as [-> | ->]; simpl; [exists 0 | exists 1]; lia.
  - pose proof (nearest_lower x ltac:(lia)) as Hlow.
    assert (Hlog : Z.log2 (JS.nearest x) = JS.expo x).
    { apply Z.log2_unique; [exact He|]. rewrite <- Z.add_1_r. lia. }
    rewrite Hlog. exists (JS.rne (x * inject_Z JS.grid / inject_Z (JS.spacing x))).
    reflexivity.
Qed.

(** ** Rounding to a double: the Number level *)

Lemma negative_spec (x : Q) : (Qnum x <? 0) = true <-> (x < 0)%Q.
Proof.
  rewrite Z.ltb_lt. unfold Qlt. simpl. lia.
Qed.

Lemma double_nonneg (x : Q) :
  (0 <= x)%Q ->
  JS.double x =
  if JS.overflow <=? JS.nearest x then JS.Inf false
  else JS.Fin (Qred (inject_Z (JS.nearest x) / inject_Z JS.grid)).
Proof.
  intros Hx. unfold JS.double.
  assert (Hn : (Qnum x <? 0) = false).
  { destruct (Qnum x <? 0) eqn:E; [|reflexivity]. apply negative_spec in E. lra. }
  rewrite Hn, (nearest_comp (Qabs x) x) by now apply Qabs_pos. reflexivity.
Qed.

Lemma double_negative (x : Q) :
  (x < 0)%Q ->
  JS.double x =
  if JS.overflow <=? JS.nearest (- x) then JS.Inf true
  else JS.Fin (Qred (inject_Z (- JS.nearest (- x)) / inject_Z JS.grid)).
Proof.
  intros Hx. unfold JS.double.
  assert (Hn : (Qnum x <? 0) = true) by now apply negative_spec.
  rewrite Hn, (nearest_comp (Qabs x) (- x)) by (apply Qabs_neg; lra). reflexivity.
Qed.

Lemma double_comp (x y : Q) : (x == y)%Q -> JS.double x = JS.double y.
Proof.
  intros H. destruct (Qlt_le_dec x 0) as [Hx|Hx].
  - rewrite (double_negative x Hx), (double_negative y) by (rewrite <- H; exact Hx).
    rewrite (nearest_comp (- x) (- y)) by (rewrite H; reflexivity). reflexivity.
  - rewrite (double_nonneg x Hx), (double_nonneg y) by (rewrite <- H; exact Hx).
    rewrite (nearest_comp x y H). reflexivity.
Qed.

Lemma scaled_le (a b : Z) :
  a <= b -> (inject_Z a / inject_Z JS.grid <= inject_Z b / inject_Z JS.grid)%Q.
Proof.
  intros H. apply Qmult_le_compat_r; [now rewrite <- Zle_Qle|].
  apply Qlt_le_weak, Qinv_lt_0_compat, inject_Z_pos, grid_pos.
Qed.

(** Rounding is monotone. *)
Lemma double_mono (x y : Q) : (x <= y)%Q -> JS.le (JS.double x) (JS.double y).
Proof.
  intros Hxy. destruct (Qlt_le_dec x 0) as [Hx|Hx]; destruct (Qlt_le_dec y 0) as [Hy|Hy].
  - rewrite (double_negative x Hx), (double_negative y Hy).
    assert (Hm : JS.nearest (- y) <= JS.nearest (- x)) by (apply nearest_mono; lra).
    destruct (Z.leb_spec JS.overflow (JS.nearest (- x)));
      [destruct (JS.overflow <=? JS.nearest (- y)); exact I|].
    destruct (Z.leb_spec JS.overflow (JS.nearest (- y))); [lia|].
    unfold JS.le. rewrite !Qred_correct. apply scaled_le. lia.
  - rewrite (double_negative x Hx), (double_nonneg y Hy).
    pose proof (nearest_nonneg (- x) ltac:(lra)). pose proof (nearest_nonneg y Hy).
    destruct (Z.leb_spec JS.overflow (JS.nearest (- x)));
      [destruct (JS.overflow <=? JS.nearest y); exact I|].
    destruct (Z.leb_spec JS.overflow (JS.nearest y)); [exact I|].
    unfold JS.le. rewrite !Qred_correct. apply scaled_le. lia.
  - lra.
  - rewrite (double_nonneg x Hx), (double_nonneg y Hy).
    assert (Hm : JS.nearest x <= JS.nearest y) by now apply nearest_mono.
    destruct (Z.leb_spec JS.overflow (JS.nearest y));
      [destruct (JS.overflow <=? JS.nearest x); exact I|].
    destruct (Z.leb_spec JS.overflow (JS.nearest x)); [lia|].
    unfold JS.le. rewrite !Qred_correct. apply scaled_le. lia.
Qed.

Lemma scaled_back (m : Z) :
  (inject_Z m / inject_Z JS.grid * inject_Z JS.grid == inject_Z m)%Q.
Proof.
  field. intros H0. pose proof (inject_Z_pos JS.grid grid_pos) as Hp.
  rewrite H0 in Hp. now apply Qlt_irrefl in Hp.
Qed.

Lemma Fin_inj (a b : Q) : JS.Fin a = JS.Fin b -> a = b.
Proof. congruence. Qed.

(** A double rounds to itself. *)
Lemma double_idem (x q : Q) : JS.double x = JS.Fin q -> JS.double q = JS.Fin q.
Proof.
  pose proof grid_pos as Hg.
  assert (Hgi : (0 < / inject_Z JS.grid)%Q) by now apply Qinv_lt_0_compat, inject_Z_pos.
  destruct (Qlt_le_dec x 0) as [Hx|Hx].
  - rewrite (double_negative x Hx).
    pose proof (nearest_nonneg (- x) ltac:(lra)) as H0.
    pose proof (nearest_representable (- x) ltac:(lra)) as Hrep.
    set (m := JS.nearest (- x)) in *.
    destruct (Z.leb_spec JS.overflow m) as [|Hov]; [discriminate|].
    intros Hfin. apply Fin_inj in Hfin. subst q.
    assert (Hq : (Qred (inject_Z (- m) / inject_Z JS.grid) == inject_Z (- m) / inject_Z JS.grid)%Q)
      by apply Qred_correct.
    destruct (Z.eq_dec m 0) as [E|E].
    + rewrite E in *. rewrite (double_comp _ 0) by (rewrite Hq; reflexivity).
      reflexivity.
    + assert (Hneg : (Qred (inject_Z (- m) / inject_Z JS.grid) < 0)%Q).
      { rewrite Hq. rewrite inject_Z_opp.
        assert (0 < inject_Z m * / inject_Z JS.grid)%Q
          by (apply Qmult_lt_0_compat; [apply inject_Z_pos; lia | exact Hgi]).
        unfold Qdiv. lra. }
      rewrite (double_negative _ Hneg).
      rewrite (nearest_exact _ m); [|rewrite Hq, inject_Z_opp | exact Hrep].
      * destruct (Z.leb_spec JS.overflow m); [lia|]. reflexivity.
      * rewrite <- (scaled_back m) at 2. field.
        intros H1. pose proof (inject_Z_pos JS.grid grid_pos) as Hp.
        rewrite H1 in Hp. now apply Qlt_irrefl in Hp.
  - rewrite (double_nonneg x Hx).
    pose proof (nearest_nonneg x Hx) as H0.
    pose proof (nearest_representable x Hx) as Hrep.
    set (m := JS.nearest x) in *.
    destruct (Z.leb_spec JS.overflow m) as [|Hov]; [discriminate|].
    intros Hfin. apply Fin_inj in Hfin. subst q.
    assert (Hq : (Qred (inject_Z m / inject_Z JS.grid) == inject_Z m / inject_Z JS.grid)%Q)
      by apply Qred_correct.
    assert (Hpos : (0 <= Qred (inject_Z m / inject_Z JS.grid))%Q).
    { rewrite Hq. apply Qmult_le_0_compat; [|lra].
      change (inject_Z 0 <= inject_Z m)%Q. now rewrite <- Zle_Qle. }
    rewrite (double_nonneg _ Hpos).
    rewrite (nearest_exact _ m); [| rewrite Hq; apply scaled_back | exact Hrep].
    destruct (Z.leb_spec JS.overflow m); [lia|]. reflexivity.
Qed.

(** What lies between two doubles rounds to a double between them. *)
Lemma double_between (x lo hi : Q) :
  JS.double lo = JS.Fin lo -> JS.double hi = JS.Fin hi ->
  (lo <= x <= hi)%Q ->
  exists q, JS.double x = JS.Fin q /\ (lo <= q <= hi)%Q.
Proof.
  intros Hlo Hhi [H1 H2].
  pose proof (double_mono lo x H1) as L. pose proof (double_mono x hi H2) as U.
  rewrite Hlo in L. rewrite Hhi in U.
  destruct (JS.double x) as [|[|]|q]; simpl in *; try contradiction.
  exists q. auto.
Qed.

(** The integers up to 2^53 are doubles. *)
Lemma double_Z (z : Z) :
  - 2 ^ 53 <= z <= 2 ^ 53 -> JS.double (inject_Z z) = JS.Fin (inject_Z z).
Proof.
  intros Hz. pose proof grid_pos as Hg.
  assert (Hcanon : forall v : Z, Qred (inject_Z v) = inject_Z v).
  { intros v. unfold Qred, inject_Z. 
    pose proof (Z.ggcd_correct_divisors v 1) as H.
    pose proof (Z.ggcd_gcd v 1) as G. rewrite Z.gcd_1_r in G.
    destruct (Z.ggcd v 1) as [g [a b]]. simpl in H, G |- *. subst g.
    destruct H as [H1 H2]. assert (b = 1) by lia. subst b. f_equal. lia. }
  assert (Hov : forall m, 0 <= m <= 2 ^ 53 -> m * JS.grid < JS.overflow).
  { intros m Hm. unfold JS.grid, JS.overflow.
    apply Z.le_lt_trans with (2 ^ 53 * 2 ^ 1074).
    - apply Z.mul_le_mono_nonneg_r; [apply Z.pow_nonneg|]; lia.
    - rewrite <- Z.pow_add_r by lia. apply Z.pow_lt_mono_r; lia. }
  destruct (Z.lt_ge_cases z 0) as [Hn|Hp].
  - rewrite double_negative by (change (inject_Z z < inject_Z 0)%Q; now rewrite <- Zlt_Qlt).
    rewrite (nearest_exact _ (- z * JS.grid)).
    + pose proof (Hov (- z) ltac:(lia)).
      destruct (Z.leb_spec JS.overflow (- z * JS.grid)); [lia|].
      f_equal. rewrite <- (Hcanon z). apply Qred_complete.
      rewrite Z.mul_opp_l, Z.opp_involutive, inject_Z_mult. field.
      intros H1. pose proof (inject_Z_pos JS.grid grid_pos) as Hq.
      rewrite H1 in Hq. now apply Qlt_irrefl in Hq.
    + rewrite inject_Z_mult, inject_Z_opp. reflexivity.
    + apply representable_scaled; lia.
  - rewrite double_nonneg by (change (inject_Z 0 <= inject_Z z)%Q; now rewrite <- Zle_Qle).
    rewrite (nearest_exact _ (z * JS.grid)).
    + pose proof (Hov z ltac:(lia)).
      destruct (Z.leb_spec JS.overflow (z * JS.grid)); [lia|].
      f_equal. rewrite <- (Hcanon z). apply Qred_complete.
      rewrite inject_Z_mult. field.
      intros H1. pose proof (inject_Z_pos JS.grid grid_pos) as Hq.
      rewrite H1 in Hq. now apply Qlt_irrefl in Hq.
    + rewrite inject_Z_mult. reflexivity.
    + apply representable_scaled; lia.
Qed.

Lemma Qred_inject_Z (v : Z) : Qred (inject_Z v) = inject_Z v.
Proof.
  unfold Qred, inject_Z.
  pose proof (Z.ggcd_correct_divisors v 1) as H.
  pose proof (Z.ggcd_gcd v 1) as G. rewrite Z.gcd_1_r in G.
  destruct (Z.ggcd v 1) as [g [a b]]. simpl in H, G |- *. subst g.
  destruct H as [H1 H2]. assert (b = 1) by lia. subst b. f_equal. lia.
Qed.

Lemma inject_Z_nonzero (z : Z) : 0 < z -> ~ (inject_Z z == 0)%Q.
Proof.
  intros Hz H0. pose proof (inject_Z_pos z Hz) as Hp.
  rewrite H0 in Hp. now apply Qlt_irrefl in Hp.
Qed.

(** The dyadic rationals m / 2^t with m up to 2^53 and t up to 1074 are
    doubles. *)
Lemma double_dyadic (m t : Z) :
  0 <= m <= 2 ^ 53 -> 0 <= t <= 1074 ->
  JS.double (inject_Z m / inject_Z (2 ^ t)) =
  JS.Fin (Qred (inject_Z m / inject_Z (2 ^ t))).
Proof.
  intros Hm Ht. pose proof grid_pos as Hg.
  assert (Hp : 0 < 2 ^ t) by (apply Z.pow_pos_nonneg; lia).
  assert (Hsplit : JS.grid = 2 ^ (1074 - t) * 2 ^ t) by (apply pow2_split; lia).
  rewrite double_nonneg.
  2:{ apply Qmult_le_0_compat.
      - change (inject_Z 0 <= inject_Z m)%Q. rewrite <- Zle_Qle. lia.
      - apply Qlt_le_weak, Qinv_lt_0_compat. now apply inject_Z_pos. }
  rewrite (nearest_exact _ (m * 2 ^ (1074 - t))).
  - assert (Hov : m * 2 ^ (1074 - t) < JS.overflow).
    { unfold JS.overflow.
      apply Z.le_lt_trans with (2 ^ 53 * 2 ^ 1074).
      - apply Z.mul_le_mono_nonneg; try lia; try (apply Z.pow_nonneg; lia).
        apply Z.pow_le_mono_r; lia.
      - rewrite <- Z.pow_add_r by lia. apply Z.pow_lt_mono_r; lia. }
    destruct (Z.leb_spec JS.overflow (m * 2 ^ (1074 - t))); [lia|].
    f_equal. apply Qred_complete. rewrite Hsplit, !inject_Z_mult. field.
    repeat split; apply inject_Z_nonzero; (exact Hp || (apply Z.pow_pos_nonneg; lia)).
  - rewrite Hsplit, !inject_Z_mult. field. now apply inject_Z_nonzero.
  - apply representable_scaled; lia.
Qed.

(** What lies between two reals rounds to a double between their doubles. *)
Lemma double_bracket (x lo hi lo' hi' : Q) :
  JS.double lo = JS.Fin lo' -> JS.double hi = JS.Fin hi' ->
  (lo <= x <= hi)%Q ->
  exists q, JS.double x = JS.Fin q /\ (lo' <= q <= hi')%Q.
Proof.
  intros Hlo Hhi [H1 H2].
  pose proof (double_mono lo x H1) as L. pose proof (double_mono x hi H2) as U.
  rewrite Hlo in L. rewrite Hhi in U.
  destruct (JS.double x) as [|[|]|q]; simpl in *; try contradiction.
  exists q. auto.
Qed.

Lemma literal_100 : JS.literal 100 = 100%Q.
Proof. vm_compute. reflexivity. Qed.

(** ** The model on small inputs *)

Example generateUniqueNumbers_skips_duplicates :
  generateUniqueNumbers 3 1 10 [1 # 4; 1 # 4; 1 # 20; 19 # 20; 1 # 2]%Q =
  Some ([1; 3; 10], [1 # 2]%Q).
Proof. reflexivity. Qed.

Example calculateChecksum_example : calculateChecksum [1; 2; 3; 4; 5; 9] 12 = 288.
Proof. reflexivity. Qed.

Example ceilDiv10_examples :
  JS.ceilDiv10 1 = 1 /\ JS.ceilDiv10 10 = 1 /\ JS.ceilDiv10 11 = 2 /\
  JS.ceilDiv10 25 = 3 /\ JS.ceilDiv10 0 = 0.
Proof. repeat split. Qed.

Example progress_of_25_trials :
  filter (due 25) (upFrom 1 25) = [3; 6; 9; 12; 15; 18; 21; 24].
Proof. reflexivity. Qed.

Example round_halves_upwards :
  JS.round (JS.Fin (5 # 2)) = JS.of_Z 3 /\ JS.round (JS.Fin (- 5 # 2)) = JS.of_Z (-2).
Proof. split; reflexivity. Qed.

(** Quotients and products are rounded to doubles: 1 / 3 is the double
    0.333...3148, and the literals 0.85 and 0.70 are the doubles nearest to
    them. *)
Example division_rounds :
  JS.div 1 3 = JS.Fin (6004799503160661 # 18014398509481984).
Proof. vm_compute. reflexivity. Qed.

Example literals_round :
  JS.literal (85 # 100) = (7656119366529843 # 9007199254740992)%Q /\
  JS.literal (70 # 100) = (3152519739159347 # 4503599627370496)%Q /\
  JS.literal 100 = 100%Q.
Proof. repeat split; vm_compute; reflexivity. Qed.

(** 23 / 40 is the double below 0.575, so the percentage is the double below
    57.5 and the score is 57, where the exact 57.5 would give 58. *)
Example percentage_below_the_half :
  percentOf 40 23 = JS.Fin (8092405580431359 # 140737488355328) /\
  JS.round (percentOf 40 23) = JS.of_Z 57.
Proof. split; vm_compute; reflexivity. Qed.

(** 9 / 20 * 100 is 45, and 45 * 0.70 is the double below 31.5: the third
    score is 31, where the exact 31.5 would give 32. *)
Example weighted_score_below_the_half :
  percentOf 20 9 = JS.of_Z 45 /\
  JS.mul (percentOf 20 9) (70 # 100) = JS.Fin (8866461766385663 # 281474976710656) /\
  JS.round (JS.mul (percentOf 20 9) (70 # 100)) = JS.of_Z 31.
Proof. repeat split; vm_compute; reflexivity. Qed.

(** A start without a bonus range: the first trial throws and the run posts
    the error message only. *)
Example missing_range_posts_error :
  runSimulation
    {| iterations := 3; mainNumberRange := Some SECTION_A; bonusNumberRange := None |}
    (defaultTrial [1; 2; 3; 4; 5; 6] 1) =
  Some [ERROR (TypeError "max")].
Proof. reflexivity. Qed.

(** The first score reads the frequency of the smallest of the six numbers:
    after the draws 1..6 and 2..7 the number 2 was drawn twice, and the
    first score is that of the number 1, drawn once. *)
Example first_score_reads_smallest_number :
  exists st rs' s c1 c2 c3,
    simulate (SIMULATE 2)
      (defaultTrial [1; 2; 3; 4; 5; 6] 1 ++ defaultTrial [2; 3; 4; 5; 6; 7] 1) =
      Some ((st, None), rs') /\
    Map_get 2 (mainFrequency st) = Some 2 /\
    Map_get 1 (mainFrequency st) = Some 1 /\
    rankStatistics 2 st = s /\
    mostFrequentMain s = [1; 2; 3; 4; 5; 6] /\
    optimizedCombinations s = Some [c1; c2; c3] /\
    Combination.frequencyScore c1 = JS.of_Z 50.
Proof.
  do 6 eexists. split; [vm_compute; reflexivity|].
  split; [reflexivity|]. split; [reflexivity|]. split; [reflexivity|].
  split; [reflexivity|]. split; [vm_compute; reflexivity | reflexivity].
Qed.

(** The third fallback does not wrap at 12: with 12 as the only bonus
    number drawn, the third combination gets the bonus number 14. *)
Example third_bonus_past_twelve :
  exists s c1 c2 c3,
    option_map statisticsOf
      (runSimulation (SIMULATE 1) (defaultTrial [1; 2; 3; 4; 5; 6] 12)) = Some (Some s) /\
    mostFrequentBonus s = Some 12 /\
    optimizedCombinations s = Some [c1; c2; c3] /\
    Combination.bonusNumber c2 = JS.of_Z 1 /\
    Combination.bonusNumber c3 = JS.of_Z 14.
Proof.
  do 4 eexists. split; [vm_compute; reflexivity|].
  split; [reflexivity|]. split; [vm_compute; reflexivity|]. split; reflexivity.
Qed.

(** ** Sampling *)

Lemma randomInt_inRange (r : Q) (lo hi : Z) :
  unitSample r -> lo <= hi -> lo <= randomInt r lo hi <= hi.
Proof.
  intros [H0 H1] Hle. unfold randomInt.
  set (n := hi - lo + 1).
  assert (Hn : (0 < inject_Z n)%Q) by (change (inject_Z 0 < inject_Z n)%Q; rewrite <- Zlt_Qlt; subst n; lia).
  assert (Hlow : 0 <= Qfloor (r * inject_Z n)).
  { change 0 with (Qfloor 0). apply Qfloor_resp_le.
    apply Qmult_le_0_compat; [exact H0 | apply Qlt_le_weak, Hn]. }
  assert (Hup : Qfloor (r * inject_Z n) < n).
  { rewrite Zlt_Qlt.
    apply Qle_lt_trans with (r * inject_Z n)%Q; [apply Qfloor_le|].
    rewrite <- (Qmult_1_l (inject_Z n)) at 2.
    apply Qmult_lt_compat_r; assumption. }
  subst n. lia.
Qed.

(** ** Sets in insertion order *)

Lemma Set_add_In (x y : Z) (s : list Z) :
  In y (Set_add x s) <-> y = x \/ In y s.
Proof.
  induction s as [|z s IH]; simpl.
  - intuition.
  - destruct (Z.eqb_spec x z) as [->|Hne]; simpl.
    + intuition.
    + rewrite IH. intuition.
Qed.

Lemma Set_add_NoDup (x : Z) (s : list Z) : NoDup s -> NoDup (Set_add x s).
Proof.
  induction s as [|z s IH]; simpl; intros Hnd.
  - constructor; [intros [] | constructor].
  - destruct (Z.eqb_spec x z) as [->|Hne]; [assumption|].
    inversion Hnd as [|? ? Hz Hs]; subst. constructor.
    + rewrite Set_add_In. intros [E|E]; [congruence | contradiction].
    + apply IH, Hs.
Qed.

Lemma Set_add_length (x : Z) (s : list Z) :
  (length s <= length (Set_add x s) <= S (length s))%nat.
Proof.
  induction s as [|z s IH]; simpl; [lia|].
  destruct (x =? z); simpl; lia.
Qed.

Lemma Set_add_Forall (P : Z -> Prop) (x : Z) (s : list Z) :
  P x -> Forall P s -> Forall P (Set_add x s).
Proof.
  intros Hx Hs. apply Forall_forall. intros y Hy.
  apply Set_add_In in Hy as [->|Hy]; [assumption|].
  rewrite Forall_forall in Hs. auto.
Qed.

Lemma upFrom_In (lo hi x : Z) :
  lo <= x <= hi -> In x (upFrom lo (Z.to_nat (hi - lo + 1))).
Proof.
  intros H. unfold upFrom. apply in_map_iff.
  exists (Z.to_nat (x - lo)). split; [lia|].
  apply in_seq. lia.
Qed.

(** Pigeonhole: distinct integers of [lo..hi] are at most [hi - lo + 1]. *)
Lemma NoDup_interval_length (lo hi : Z) (s : list Z) :
  NoDup s -> Forall (fun x => lo <= x <= hi) s ->
  Z.of_nat (length s) <= Z.max 0 (hi - lo + 1).
Proof.
  intros Hnd Hin.
  assert (H : (length s <= length (upFrom lo (Z.to_nat (hi - lo + 1))))%nat).
  { apply NoDup_incl_length; [assumption|].
    intros x Hx. rewrite Forall_forall in Hin. apply upFrom_In. auto. }
  unfold upFrom in H. rewrite length_map, length_seq in H. lia.
Qed.

(** ** The stable sort *)

Section Sorting.
Context {A : Type}.
Variable cmp : A -> A -> Z.

Lemma insert_by_perm (x : A) (l : list A) :
  Permutation (insert_by cmp x l) (x :: l).
Proof.
  induction l as [|y l IH]; simpl; [reflexivity|].
  destruct (cmp x y <=? 0); [reflexivity|].
  rewrite IH. apply perm_swap.
Qed.

Lemma sort_by_perm (l : list A) : Permutation (sort_by cmp l) l.
Proof.
  induction l as [|x l IH]; simpl; [reflexivity|].
  rewrite insert_by_perm. now constructor.
Qed.

Lemma sort_by_In (x : A) (l : list A) : In x (sort_by cmp l) <-> In x l.
Proof.
  split; apply Permutation_in;
    [apply sort_by_perm | apply Permutation_sym, sort_by_perm].
Qed.

Lemma sort_by_length (l : list A) : length (sort_by cmp l) = length l.
Proof. apply Permutation_length, sort_by_perm. Qed.

Lemma sort_by_Forall (P : A -> Prop) (l : list A) :
  Forall P l -> Forall P (sort_by cmp l).
Proof.
  intros H. eapply Permutation_Forall; [|exact H].
  apply Permutation_sym, sort_by_perm.
Qed.

(** The order the comparator stands for. *)
Let before (a b : A) : Prop := cmp a b <= 0.

Hypothesis before_total : forall a b, before a b \/ before b a.
Hypothesis before_trans : forall a b c, before a b -> before b c -> before a c.

Lemma insert_by_sorted (x : A) (l : list A) :
  StronglySorted before l -> StronglySorted before (insert_by cmp x l).
Proof.
  induction l as [|y l IH]; simpl; intros Hs.
  - constructor; constructor.
  - inversion Hs as [|? ? Hl Hy]; subst.
    destruct (Z.leb_spec (cmp x y) 0) as [Hxy|Hxy].
    + constructor; [assumption|]. constructor; [exact Hxy|].
      eapply Forall_impl; [|exact Hy]. intros z Hz.
      eapply before_trans; eassumption.
    + constructor; [apply IH, Hl|].
      eapply Permutation_Forall; [apply Permutation_sym, insert_by_perm|].
      constructor; [|assumption].
      destruct (before_total x y) as [H|H]; [unfold before in H; lia | exact H].
Qed.

Lemma sort_by_sorted (l : list A) : StronglySorted before (sort_by cmp l).
Proof.
  induction l as [|x l IH]; simpl; [constructor|].
  apply insert_by_sorted, IH.
Qed.
End Sorting.

Lemma sort_ascending_le (l : list Z) : StronglySorted Z.le (sort_by ascending l).
Proof.
  assert (H : StronglySorted (fun a b => ascending a b <= 0) (sort_by ascending l)).
  { apply sort_by_sorted; unfold ascending; intros; lia. }
  induction H as [|a s Hs IH Ha]; constructor; [assumption|].
  eapply Forall_impl; [|exact Ha]. unfold ascending. intros; lia.
Qed.

Lemma StronglySorted_le_lt (l : list Z) :
  NoDup l -> StronglySorted Z.le l -> StronglySorted Z.lt l.
Proof.
  intros Hnd Hs. induction Hs as [|a s Hs IH Ha]; [constructor|].
  inversion Hnd as [|? ? Hna Hnd']; subst.
  constructor; [apply IH, Hnd'|].
  rewrite Forall_forall in *. intros x Hx.
  specialize (Ha x Hx). assert (x <> a) by congruence. lia.
Qed.

Lemma sort_ascending_lt (l : list Z) :
  NoDup l -> StronglySorted Z.lt (sort_by ascending l).
Proof.
  intros Hnd. apply StronglySorted_le_lt; [|apply sort_ascending_le].
  eapply Permutation_NoDup; [apply Permutation_sym, sort_by_perm | exact Hnd].
Qed.

Lemma sort_byCountDesc_sorted (m : list (Z * Z)) :
  StronglySorted (fun a b => snd b <= snd a) (sort_by byCountDesc m).
Proof.
  assert (H : StronglySorted (fun a b => byCountDesc a b <= 0) (sort_by byCountDesc m)).
  { apply sort_by_sorted; unfold byCountDesc; intros; lia. }
  induction H as [|a s Hs IH Ha]; constructor; [assumption|].
  eapply Forall_impl; [|exact Ha]. unfold byCountDesc. intros; lia.
Qed.

(** ** The sampling loop of [generateUniqueNumbers] *)

Lemma fillSet_nil (c lo hi : Z) (s : list Z) :
  fillSet c lo hi s [] =
  if Z.of_nat (length s) <? c then None else Some (s, []).
Proof. reflexivity. Qed.

Lemma fillSet_cons (c lo hi : Z) (s : list Z) (r : Q) (rs : list Q) :
  fillSet c lo hi s (r :: rs) =
  if Z.of_nat (length s) <? c
  then fillSet c lo hi (Set_add (randomInt r lo hi) s) rs
  else Some (s, r :: rs).
Proof. reflexivity. Qed.

(** What the loop returns: a duplicate-free set of exactly [count] members,
    each one a sample, and the samples it did not consume. *)
Lemma fillSet_returns (c lo hi : Z) (rs : list Q) :
  forall s s' rs',
    fillSet c lo hi s rs = Some (s', rs') ->
    (exists used, rs = used ++ rs' /\
       forall P : Z -> Prop,
         Forall P s -> Forall (fun r => P (randomInt r lo hi)) used -> Forall P s') /\
    (NoDup s -> NoDup s') /\
    (Z.of_nat (length s) <= c -> Z.of_nat (length s') = c).
Proof.
  induction rs as [|r rs IH]; intros s s' rs'.
  - rewrite fillSet_nil. destruct (Z.ltb_spec (Z.of_nat (length s)) c); [discriminate|].
    intros [= <- <-]. repeat split; [|auto|lia].
    exists []. split; [reflexivity | auto].
  - rewrite fillSet_cons. destruct (Z.ltb_spec (Z.of_nat (length s)) c) as [Hlt|Hge].
    + intros Hrun. destruct (IH _ _ _ Hrun) as [[used [-> Hall]] [Hnd Hlen]].
      repeat split.
      * exists (r :: used). split; [reflexivity|].
        intros P Hs Hused. inversion Hused; subst.
        apply Hall; [apply Set_add_Forall|]; assumption.
      * intros Hs. apply Hnd, Set_add_NoDup, Hs.
      * intros _. apply Hlen.
        pose proof (Set_add_length (randomInt r lo hi) s). lia.
    + intros [= <- <-]. repeat split; [|auto|lia].
      exists []. split; [reflexivity | auto].
Qed.

(** With more members asked for than the range holds, the loop is still
    running after any number of samples. *)
Lemma fillSet_starved (c lo hi : Z) (rs : list Q) :
  lo <= hi -> hi - lo + 1 < c -> Forall unitSample rs ->
  forall s, NoDup s -> Forall (fun x => lo <= x <= hi) s ->
    fillSet c lo hi s rs = None.
Proof.
  intros Hle Hc Hrs. induction Hrs as [|r rs Hr Hrs IH]; intros s Hnd Hin;
    pose proof (NoDup_interval_length lo hi s Hnd Hin) as Hlen.
  - rewrite fillSet_nil. destruct (Z.ltb_spec (Z.of_nat (length s)) c); [reflexivity | lia].
  - rewrite fillSet_cons. destruct (Z.ltb_spec (Z.of_nat (length s)) c); [|lia].
    apply IH; [apply Set_add_NoDup, Hnd|].
    apply Set_add_Forall; [|exact Hin]. apply randomInt_inRange; assumption.
Qed.

(** ** Frequency tables *)

Lemma sum_shift (xs : list Z) (a : Z) : fold_left Z.add xs a = a + sum xs.
Proof.
  unfold sum. revert a. induction xs as [|x xs IH]; intros a; simpl; [lia|].
  rewrite IH, (IH x). lia.
Qed.

Lemma sum_cons (x : Z) (xs : list Z) : sum (x :: xs) = x + sum xs.
Proof. unfold sum at 1. simpl. apply sum_shift. Qed.

Lemma Map_set_keys (k v : Z) (m : list (Z * Z)) :
  map fst (Map_set k v m) = Set_add k (map fst m).
Proof.
  induction m as [|[k' v'] m IH]; simpl; [reflexivity|].
  destruct (Z.eqb_spec k k') as [->|Hne]; simpl; [reflexivity | now rewrite IH].
Qed.

Lemma Map_set_total (k v : Z) (m : list (Z * Z)) :
  totalCount (Map_set k v m) = totalCount m - JS.or0 (Map_get k m) + v.
Proof.
  unfold totalCount. induction m as [|[k' v'] m IH]; simpl.
  - rewrite sum_cons. unfold sum. simpl. lia.
  - destruct (Z.eqb_spec k k') as [->|Hne]; simpl; rewrite !sum_cons; simpl.
    + lia.
    + rewrite IH. lia.
Qed.

Lemma Map_get_In (k : Z) (m : list (Z * Z)) (v : Z) :
  Map_get k m = Some v -> In (k, v) m.
Proof.
  induction m as [|[k' v'] m IH]; simpl; [discriminate|].
  destruct (Z.eqb_spec k k') as [->|Hne]; [intros [= ->]; now left | auto].
Qed.

Lemma In_Map_get (k v : Z) (m : list (Z * Z)) :
  NoDup (map fst m) -> In (k, v) m -> Map_get k m = Some v.
Proof.
  induction m as [|[k' v'] m IH]; simpl; [contradiction|].
  intros Hnd [E|Hin]; inversion Hnd as [|? ? Hk Hm]; subst.
  - inversion E; subst. now rewrite Z.eqb_refl.
  - destruct (Z.eqb_spec k k') as [->|Hne]; [|auto].
    exfalso. apply Hk. apply in_map_iff. now exists (k', v).
Qed.

Lemma Map_set_Forall (P : Z * Z -> Prop) (k v : Z) (m : list (Z * Z)) :
  P (k, v) -> Forall P m -> Forall P (Map_set k v m).
Proof.
  intros Hkv. induction m as [|[k' v'] m IH]; simpl; intros Hm.
  - now constructor.
  - inversion Hm; subst. destruct (k =? k'); constructor; auto.
Qed.

Lemma increment_total (n : Z) (m : list (Z * Z)) :
  totalCount (increment n m) = totalCount m + 1.
Proof. unfold increment. rewrite Map_set_total. lia. Qed.

Lemma increment_keys (n : Z) (m : list (Z * Z)) :
  map fst (increment n m) = Set_add n (map fst m).
Proof. apply Map_set_keys. Qed.

Lemma counted_get (m : list (Z * Z)) (k : Z) :
  counted m -> 0 <= JS.or0 (Map_get k m).
Proof.
  intros [_ Hpos]. destruct (Map_get k m) as [v|] eqn:E; simpl; [|lia].
  apply Map_get_In in E. rewrite Forall_forall in Hpos.
  specialize (Hpos _ E). simpl in Hpos. lia.
Qed.

Lemma increment_counted (n : Z) (m : list (Z * Z)) :
  counted m -> counted (increment n m).
Proof.
  intros Hm. pose proof (counted_get m n Hm) as Hn. destruct Hm as [Hnd Hpos]. split.
  - rewrite increment_keys. now apply Set_add_NoDup.
  - apply Map_set_Forall; [simpl; lia | exact Hpos].
Qed.

Lemma tally_total (l : list Z) (m : list (Z * Z)) :
  totalCount (fold_left (fun m n => increment n m) l m) =
  totalCount m + Z.of_nat (length l).
Proof.
  revert m. induction l as [|n l IH]; intros m; simpl fold_left.
  - simpl. lia.
  - rewrite IH, increment_total. simpl length. lia.
Qed.

Lemma tally_counted (l : list Z) (m : list (Z * Z)) :
  counted m -> counted (fold_left (fun m n => increment n m) l m).
Proof.
  revert m. induction l as [|n l IH]; intros m Hm; simpl; [assumption|].
  apply IH, increment_counted, Hm.
Qed.

Lemma tally_keys (l : list Z) (m : list (Z * Z)) (k : Z) :
  In k (map fst (fold_left (fun m n => increment n m) l m)) <->
  In k l \/ In k (map fst m).
Proof.
  revert m. induction l as [|n l IH]; intros m; simpl fold_left.
  - simpl. intuition.
  - rewrite IH, increment_keys, Set_add_In. simpl. intuition.
Qed.

(** ** One trial, and the loop *)

(** A trial that completes drew its numbers through [fillSet] and folded
    them with [accumulate]. *)
Lemma trial_completes (p : Payload) (i : Z) (st st' : LoopState) (rs rs' : list Q) :
  trial p i st rs = Some (inr st', rs') ->
  exists mr br r0 rs1 picked r,
    mainNumberRange p = Some mr /\ bonusNumberRange p = Some br /\
    rs = r0 :: rs1 /\
    fillSet (count mr) (min mr) (max mr) [] rs1 = Some (picked, r :: rs') /\
    st' = accumulate (iterations p) i (sort_by ascending picked)
            (randomInt r (min br) (max br)) st.
Proof.
  unfold trial, heavyComputation, generateUniqueNumbers, bind, random, ret.
  destruct rs as [|r0 rs1]; [discriminate|].
  destruct (mainNumberRange p) as [mr|]; [|discriminate].
  destruct (fillSet (count mr) (min mr) (max mr) [] rs1) as [[picked rs2]|] eqn:Hfill;
    [|discriminate].
  destruct rs2 as [|r rs2]; [discriminate|].
  destruct (bonusNumberRange p) as [br|]; [|discriminate].
  intros [= <- <-]. now exists mr, br, r0, rs1, picked, r.
Qed.

(** A trial throws only on a range that is [undefined]. *)
Lemma trial_throws (p : Payload) (i : Z) (st : LoopState) (rs rs' : list Q) (e : exn) :
  trial p i st rs = Some (inl e, rs') ->
  mainNumberRange p = None \/ bonusNumberRange p = None.
Proof.
  unfold trial, heavyComputation, generateUniqueNumbers, bind, random, ret.
  destruct rs as [|r0 rs1]; [discriminate|].
  destruct (mainNumberRange p) as [mr|]; [|now left].
  destruct (fillSet (count mr) (min mr) (max mr) [] rs1) as [[picked rs2]|];
    [|discriminate].
  destruct rs2 as [|r rs2]; [discriminate|].
  destruct (bonusNumberRange p) as [br|]; [discriminate | now right].
Qed.

Lemma loop_O (p : Payload) (i : Z) (st : LoopState) (rs : list Q) :
  loop p 0 i st rs = Some ((st, None), rs).
Proof. reflexivity. Qed.

Lemma loop_S (p : Payload) (todo : nat) (i : Z) (st : LoopState) (rs : list Q) :
  loop p (S todo) i st rs =
  match trial p i st rs with
  | Some (inr st', rs') => loop p todo (i + 1) st' rs'
  | Some (inl e, rs') => Some ((st, Some e), rs')
  | None => None
  end.
Proof.
  simpl. unfold bind, ret.
  destruct (trial p i st rs) as [[[e|st'] rs']|]; reflexivity.
Qed.

(** Induction over a loop that runs to its end: what every completed trial
    preserves holds of the final state. *)
Lemma loop_invariant (p : Payload) (P : Z -> LoopState -> list Q -> Prop) :
  (forall i st rs st' rs',
      P i st rs -> trial p i st rs = Some (inr st', rs') -> P (i + 1) st' rs') ->
  forall todo i st rs st' rs',
    P i st rs ->
    loop p todo i st rs = Some ((st', None), rs') ->
    P (i + Z.of_nat todo) st' rs'.
Proof.
  intros Hstep. induction todo as [|todo IH]; intros i st rs st' rs' HP.
  - rewrite loop_O. intros [= <- <-]. now rewrite Z.add_0_r.
  - rewrite loop_S.
    destruct (trial p i st rs) as [[[e|st1] rs1]|] eqn:Htrial; try discriminate.
    intros Hloop. replace (i + Z.of_nat (S todo)) with ((i + 1) + Z.of_nat todo) by lia.
    eapply IH; [|exact Hloop]. eapply Hstep; eassumption.
Qed.

Lemma used_samples (used rest : list Q) :
  Forall unitSample (used ++ rest) -> Forall unitSample used /\ Forall unitSample rest.
Proof. apply Forall_app. Qed.

(** ** Draws (C8) *)

Lemma picked_well_formed (mainSpec : RangeSpec) (rs1 rest : list Q) (picked : list Z) :
  servable mainSpec -> Forall unitSample rs1 ->
  fillSet (count mainSpec) (min mainSpec) (max mainSpec) [] rs1 = Some (picked, rest) ->
  NoDup picked /\ Forall (inRange mainSpec) picked /\
  Z.of_nat (length picked) = count mainSpec /\ Forall unitSample rest.
Proof.
  intros [Hc0 Hc] Hrs Hfill.
  destruct (fillSet_returns _ _ _ _ _ _ _ Hfill) as [[used [-> Hall]] [Hnd Hlen]].
  apply used_samples in Hrs as [Hused Hrest].
  assert (Hl : Z.of_nat (length picked) = count mainSpec) by (apply Hlen; simpl; lia).
  repeat split; [apply Hnd; constructor | | exact Hl | exact Hrest].
  destruct (Z.le_gt_cases (min mainSpec) (max mainSpec)) as [Hle|Hgt].
  - apply Hall; [constructor|].
    eapply Forall_impl; [|exact Hused]. intros r Hr.
    apply randomInt_inRange; assumption.
  - destruct picked; [constructor | simpl in Hl; lia].
Qed.

Lemma accumulate_results (n i : Z) (mainNumbers : list Z) (bonusNumber : Z) (st : LoopState) :
  results (accumulate n i mainNumbers bonusNumber st) =
  results st ++
    [ {| Result.id := i + 1; Result.mainNumbers := mainNumbers;
         Result.bonusNumber := bonusNumber;
         Result.checksum := calculateChecksum mainNumbers bonusNumber |} ].
Proof. reflexivity. Qed.

(** Every draw a run records is well formed. *)
Lemma results_well_formed
  (p : Payload) (mainSpec bonusSpec : RangeSpec) (rs rs' : list Q) (st : LoopState) :
  mainNumberRange p = Some mainSpec ->
  bonusNumberRange p = Some bonusSpec ->
  servable mainSpec -> inhabited bonusSpec ->
  Forall unitSample rs ->
  simulate p rs = Some ((st, None), rs') ->
  Forall (wellFormedDraw mainSpec bonusSpec) (results st).
Proof.
  intros Hm Hb Hserv Hinh Hrs Hrun.
  pose (P := fun (_ : Z) (s : LoopState) (l : list Q) =>
               Forall unitSample l /\
               Forall (wellFormedDraw mainSpec bonusSpec) (results s)).
  enough (HP : P (0 + Z.of_nat (Z.to_nat (iterations p))) st rs') by apply HP.
  apply (loop_invariant p P) with (st := initialState) (rs := rs);
    [| split; [exact Hrs | constructor] | exact Hrun].
  clear Hrun Hrs. intros i s l s' l' [Hl Hres] Htrial.
  apply trial_completes in Htrial
    as (mr & br & r0 & rs1 & picked & r & Hmr & Hbr & -> & Hfill & ->).
  replace mr with mainSpec in * by congruence.
  replace br with bonusSpec in * by congruence.
  inversion Hl as [|? ? _ Hrs1]; subst.
  destruct (picked_well_formed _ _ _ _ Hserv Hrs1 Hfill) as (Hnd & Hin & Hlen & Hrest).
  inversion Hrest as [|? ? Hr Hl']; subst.
  split; [exact Hl'|].
  rewrite accumulate_results. apply Forall_app. split; [exact Hres|].
  constructor; [|constructor].
  unfold wellFormedDraw; cbn [Result.mainNumbers Result.bonusNumber Result.checksum].
  split; [|split; [|split; [|split; [|split]]]].
  - eapply Permutation_NoDup; [apply Permutation_sym, sort_by_perm | exact Hnd].
  - apply sort_by_Forall, Hin.
  - apply sort_ascending_lt, Hnd.
  - now rewrite sort_by_length.
  - apply randomInt_inRange; assumption.
  - reflexivity.
Qed.

(** ** The accumulator (C9) *)

Lemma upFrom_snoc (lo : Z) (n : nat) :
  upFrom lo (S n) = upFrom lo n ++ [lo + Z.of_nat n].
Proof. unfold upFrom. now rewrite seq_S, map_app. Qed.

Lemma accumulate_main_total (n i : Z) (mainNumbers : list Z) (bonusNumber : Z) (st : LoopState) :
  totalCount (mainFrequency (accumulate n i mainNumbers bonusNumber st)) =
  totalCount (mainFrequency st) + Z.of_nat (length mainNumbers).
Proof. apply tally_total. Qed.

Lemma accumulate_bonus_total (n i : Z) (mainNumbers : list Z) (bonusNumber : Z) (st : LoopState) :
  totalCount (bonusFrequency (accumulate n i mainNumbers bonusNumber st)) =
  totalCount (bonusFrequency st) + 1.
Proof. apply increment_total. Qed.

(** C9. In a run of N iterations (N >= 0) that completes with 6 main numbers
    per draw, the trials recorded are exactly the trials 1, 2, ..., N, each
    once and in order; the counts of the main frequency table add up to
    6 * N and those of the bonus frequency table to N. *)
Theorem every_trial_counted_once
  (p : Payload) (mainSpec : RangeSpec) (rs rs' : list Q) (st : LoopState) :
  mainNumberRange p = Some mainSpec ->
  count mainSpec = 6 ->
  0 <= iterations p ->
  simulate p rs = Some ((st, None), rs') ->
  map Result.id (results st) = upFrom 1 (Z.to_nat (iterations p)) /\
  totalCount (mainFrequency st) = 6 * iterations p /\
  totalCount (bonusFrequency st) = iterations p.
Proof.
  intros Hm Hsix HN Hrun.
  pose (P := fun (i : Z) (s : LoopState) (_ : list Q) =>
               0 <= i /\
               map Result.id (results s) = upFrom 1 (Z.to_nat i) /\
               totalCount (mainFrequency s) = 6 * i /\
               totalCount (bonusFrequency s) = i).
  assert (HP : P (0 + Z.of_nat (Z.to_nat (iterations p))) st rs').
  { apply (loop_invariant p P) with (st := initialState) (rs := rs);
      [| now repeat split | exact Hrun].
    clear Hrun. intros i s l s' l' (Hi & Hids & Hmain & Hbonus) Htrial.
    apply trial_completes in Htrial
      as (mr & br & r0 & rs1 & picked & r & Hmr & Hbr & -> & Hfill & ->).
    assert (mr = mainSpec) by congruence. subst mr.
    destruct (fillSet_returns _ _ _ _ _ _ _ Hfill) as [_ [_ Hlen]].
    assert (Hl : Z.of_nat (length picked) = 6) by (rewrite <- Hsix; apply Hlen; simpl; lia).
    repeat split.
    - lia.
    - rewrite accumulate_results, map_app, Hids. simpl.
      replace (Z.to_nat (i + 1)) with (S (Z.to_nat i)) by lia.
      rewrite upFrom_snoc. do 2 f_equal. lia.
    - rewrite accumulate_main_total, sort_by_length, Hmain. lia.
    - rewrite accumulate_bonus_total, Hbonus. lia. }
  destruct HP as (_ & Hids & Hmain & Hbonus).
  rewrite Z.add_0_l, Z2Nat.id in * by assumption.
  repeat split; assumption.
Qed.

(** ** Progress messages (C6, C7) *)

Lemma upFrom_cons (lo : Z) (n : nat) : upFrom lo (S n) = lo :: upFrom (lo + 1) n.
Proof.
  unfold upFrom. simpl. rewrite <- seq_shift, map_map. f_equal; [lia|].
  apply map_ext. intros k. lia.
Qed.

Lemma upFrom_sorted (n : nat) : forall lo, StronglySorted Z.lt (upFrom lo n).
Proof.
  induction n as [|n IH]; intros lo; [constructor|].
  rewrite upFrom_cons. constructor; [apply IH|].
  apply Forall_forall. intros x Hx. unfold upFrom in Hx.
  apply in_map_iff in Hx as [k [<- _]]. lia.
Qed.

(** The loop posts the progress messages of the trials it completes, in
    order, and nothing else. *)
Lemma loop_posted (p : Payload) (todo : nat) :
  forall i st rs st' e rs',
    loop p todo i st rs = Some ((st', e), rs') ->
    exists k : nat,
      (k <= todo)%nat /\ (e = None -> k = todo) /\
      posted st' = posted st ++ flat_map (progressAt (iterations p)) (upFrom i k).
Proof.
  induction todo as [|todo IH]; intros i st rs st' e rs'.
  - rewrite loop_O. intros [= <- <- <-]. exists 0%nat.
    repeat split; [lia|]. simpl. now rewrite app_nil_r.
  - rewrite loop_S.
    destruct (trial p i st rs) as [[[e1|st1] rs1]|] eqn:Htrial; try discriminate.
    + intros [= <- <- <-]. exists 0%nat.
      repeat split; [lia | discriminate |]. simpl. now rewrite app_nil_r.
    + intros Hloop. apply IH in Hloop as (k & Hk & He & Hposted).
      exists (S k). repeat split; [lia | intros H; now rewrite (He H) |].
      apply trial_completes in Htrial
        as (mr & br & r0 & rs1' & picked & r & _ & _ & _ & _ & ->).
      rewrite Hposted, upFrom_cons. simpl. now rewrite app_assoc.
Qed.

Lemma ceilDiv10_spec (n : Z) :
  10 * (JS.ceilDiv10 n - 1) < n <= 10 * JS.ceilDiv10 n.
Proof.
  unfold JS.ceilDiv10.
  pose proof (Z.div_mod (- n) 10). pose proof (Z.mod_pos_bound (- n) 10). lia.
Qed.

Lemma progressAt_due (total i : Z) :
  1 <= total -> 0 <= i ->
  progressAt total i =
  if due total (i + 1) then [PROGRESS (percentOf total (i + 1))] else [].
Proof.
  intros Ht Hi. pose proof (ceilDiv10_spec total) as Hd.
  unfold progressAt, due, JS.remIsZero, percentOf.
  destruct (Z.eqb_spec (JS.ceilDiv10 total) 0) as [E|_]; [lia|].
  rewrite Z.rem_mod_nonneg by lia. reflexivity.
Qed.

Lemma posted_form (total : Z) (k : nat) :
  1 <= total ->
  forall lo, 0 <= lo ->
    flat_map (progressAt total) (upFrom lo k) =
    map PROGRESS (map (percentOf total) (filter (due total) (upFrom (lo + 1) k))).
Proof.
  intros Ht. induction k as [|k IH]; intros lo Hlo; [reflexivity|].
  rewrite !upFrom_cons. simpl. rewrite progressAt_due, IH by lia.
  destruct (due total (lo + 1)); reflexivity.
Qed.

(** Everything a loop posts, when it ends (normally or by an exception). *)
Lemma simulate_posted (p : Payload) (rs rs' : list Q) (st : LoopState) (e : option exn) :
  simulate p rs = Some ((st, e), rs') ->
  exists k : nat,
    (k <= Z.to_nat (iterations p))%nat /\
    (e = None -> k = Z.to_nat (iterations p)) /\
    posted st = map PROGRESS (progressUpTo (iterations p) k).
Proof.
  intros Hrun. apply loop_posted in Hrun as (k & Hk & He & Hposted).
  exists k. repeat split; [exact Hk | exact He |].
  rewrite Hposted. simpl. destruct k as [|k]; [reflexivity|].
  unfold progressUpTo. apply posted_form; lia.
Qed.

Lemma percentOf_eq (total c : Z) :
  1 <= total ->
  percentOf total c =
  match JS.double (inject_Z c / inject_Z total) with
  | JS.Fin q => JS.double (q * 100)
  | other => other
  end.
Proof.
  intros Ht. unfold percentOf, JS.div, JS.mul.
  destruct (Z.eqb_spec total 0) as [E|_]; [lia|]. rewrite literal_100.
  destruct (JS.double _); reflexivity.
Qed.

(** The percentage of a ratio between [lo] and [hi] lies between the
    doubles that [lo] and [hi] give. *)
Lemma percentOf_bracket (total c : Z) (lo hi lo1 hi1 lo2 hi2 : Q) :
  1 <= total ->
  (lo <= inject_Z c / inject_Z total <= hi)%Q ->
  JS.double lo = JS.Fin lo1 -> JS.double hi = JS.Fin hi1 ->
  JS.double (lo1 * 100) = JS.Fin lo2 -> JS.double (hi1 * 100) = JS.Fin hi2 ->
  exists q, percentOf total c = JS.Fin q /\ (lo2 <= q <= hi2)%Q.
Proof.
  intros Ht Hx Hlo Hhi Hlo2 Hhi2. rewrite percentOf_eq by exact Ht.
  destruct (double_bracket _ lo hi lo1 hi1 Hlo Hhi Hx) as (a & -> & Ha).
  apply (double_bracket _ (lo1 * 100) (hi1 * 100)); [exact Hlo2 | exact Hhi2 | lra].
Qed.

Lemma ratio_le (c total : Z) (n d : Z) :
  1 <= total -> 0 < d -> d * c <= n * total ->
  (inject_Z c / inject_Z total <= inject_Z n / inject_Z d)%Q.
Proof.
  intros Ht Hd H. apply Qle_shift_div_r; [apply inject_Z_pos; lia|].
  unfold Qdiv. rewrite <- Qmult_assoc, (Qmult_comm (/ _)), Qmult_assoc.
  apply Qle_shift_div_l; [now apply inject_Z_pos|].
  rewrite <- !inject_Z_mult, <- Zle_Qle. lia.
Qed.

Lemma ratio_ge (c total : Z) (n d : Z) :
  1 <= total -> 0 < d -> n * total <= d * c ->
  (inject_Z n / inject_Z d <= inject_Z c / inject_Z total)%Q.
Proof.
  intros Ht Hd H. apply Qle_shift_div_r; [now apply inject_Z_pos|].
  unfold Qdiv. rewrite <- Qmult_assoc, (Qmult_comm (/ _)), Qmult_assoc.
  apply Qle_shift_div_l; [apply inject_Z_pos; lia|].
  rewrite <- !inject_Z_mult, <- Zle_Qle. lia.
Qed.

(** The percentage of [m / 2^t], for [t] from 2 to 48 and [m] up to
    2^t + 1: no rounding. *)
Lemma percent_of_dyadic (m t : Z) :
  2 <= t <= 48 -> 0 <= m <= 2 ^ t + 1 ->
  exists r r100,
    JS.double (inject_Z m / inject_Z (2 ^ t)) = JS.Fin r /\
    JS.double (r * 100) = JS.Fin r100 /\
    (r100 == inject_Z (25 * m) / inject_Z (2 ^ (t - 2)))%Q.
Proof.
  intros Ht Hm.
  assert (Hpow : 2 ^ t <= 2 ^ 48) by (apply Z.pow_le_mono_r; lia).
  assert (H48 : 2 ^ 48 = 281474976710656) by reflexivity.
  assert (H53 : 2 ^ 53 = 9007199254740992) by reflexivity.
  assert (Hp2 : 0 < 2 ^ (t - 2)) by (apply Z.pow_pos_nonneg; lia).
  assert (Hsplit : 2 ^ t = 2 ^ (t - 2) * 4).
  { change 4 with (2 ^ 2). apply pow2_split. lia. }
  exists (Qred (inject_Z m / inject_Z (2 ^ t))).
  exists (Qred (inject_Z (25 * m) / inject_Z (2 ^ (t - 2)))).
  split; [apply (double_dyadic m t); lia|]. split; [|apply Qred_correct].
  rewrite <- (double_dyadic (25 * m) (t - 2)) by lia.
  apply double_comp. rewrite Qred_correct, Hsplit, !inject_Z_mult. field.
  now apply inject_Z_nonzero.
Qed.

(** Two percentages differ, also after rounding, when the counts are far
    enough apart: two steps of a grid of 2^t that doubles hold. *)
Lemma percentOf_apart (t total c c' : Z) :
  2 <= t <= 48 ->
  1 <= total -> 0 <= c -> c' <= total -> 2 * total <= 2 ^ t * (c' - c) ->
  JS.lt (percentOf total c) (percentOf total c').
Proof.
  intros Hrange Ht Hc Hc' Hgap.
  assert (Hp : 0 < 2 ^ t) by (apply Z.pow_pos_nonneg; lia).
  assert (Hp2 : 0 < 2 ^ (t - 2)) by (apply Z.pow_pos_nonneg; lia).
  set (P := 2 ^ t) in *.
  set (m := (P * c + total - 1) / total).
  assert (Hm : m * total <= P * c + total - 1 < (m + 1) * total).
  { unfold m. pose proof (Z.div_mod (P * c + total - 1) total ltac:(lia)).
    pose proof (Z.mod_pos_bound (P * c + total - 1) total ltac:(lia)). nia. }
  assert (Hm0 : 0 <= m <= P) by nia.
  destruct (percent_of_dyadic m t Hrange ltac:(fold P; lia)) as (r & r100 & Hr & Hr100 & Hv).
  destruct (percent_of_dyadic (m + 1) t Hrange ltac:(fold P; lia))
    as (r' & r100' & Hr' & Hr100' & Hv').
  fold P in Hr, Hr'.
  destruct (percentOf_bracket total c 0 (inject_Z m / inject_Z P) 0 r 0 r100 Ht)
    as (q & Hq & _ & Hqu);
    [ split; [apply Qle_shift_div_l; [apply inject_Z_pos; lia|];
              rewrite Qmult_0_l; change (inject_Z 0 <= inject_Z c)%Q;
              now rewrite <- Zle_Qle
             | apply ratio_le; lia ]
    | vm_compute; reflexivity | exact Hr | vm_compute; reflexivity | exact Hr100 | ].
  destruct (percentOf_bracket total c' (inject_Z (m + 1) / inject_Z P) 1 r' 1 r100' 100 Ht)
    as (q' & Hq' & Hql & _);
    [ split; [apply ratio_ge; lia
             | apply Qle_shift_div_r; [apply inject_Z_pos; lia|];
               rewrite Qmult_1_l, <- Zle_Qle; lia ]
    | exact Hr' | vm_compute; reflexivity | exact Hr100' | vm_compute; reflexivity | ].
  rewrite Hq, Hq'. unfold JS.lt.
  apply Qle_lt_trans with r100; [exact Hqu|].
  apply Qlt_le_trans with r100'; [|exact Hql].
  rewrite Hv, Hv'. apply Qmult_lt_compat_r.
  - apply Qinv_lt_0_compat. now apply inject_Z_pos.
  - rewrite <- Zlt_Qlt. lia.
Qed.

(** Two percentages a tenth of the run apart differ, also after rounding. *)
Lemma percentOf_increasing (total c c' : Z) :
  1 <= total -> 0 <= c -> c' <= total -> total <= 10 * (c' - c) ->
  JS.lt (percentOf total c) (percentOf total c').
Proof.
  intros Ht Hc Hc' Hgap. apply (percentOf_apart 5); lia.
Qed.

(** The percentage of at least one part in 2^47 of the run is positive, also
    after rounding. *)
Lemma percentOf_positive (total c : Z) :
  1 <= total -> total <= 2 ^ 47 * c -> c <= total ->
  JS.lt (JS.of_Z 0) (percentOf total c).
Proof.
  intros Ht Hlow Hc.
  destruct (percent_of_dyadic 1 47 ltac:(lia) ltac:(split; [lia | vm_compute; discriminate]))
    as (r & r100 & Hr & Hr100 & Hv).
  destruct (percentOf_bracket total c (inject_Z 1 / inject_Z (2 ^ 47)) 1 r 1 r100 100 Ht)
    as (q & -> & Hq & _);
    [ split; [apply ratio_ge; [lia | apply Z.pow_pos_nonneg; lia | lia]
             | apply Qle_shift_div_r; [apply inject_Z_pos; lia|];
               rewrite Qmult_1_l, <- Zle_Qle; lia ]
    | exact Hr | vm_compute; reflexivity | exact Hr100 | vm_compute; reflexivity | ].
  unfold JS.lt, JS.of_Z. apply Qlt_le_trans with r100; [|exact Hq].
  rewrite Hv. vm_compute. reflexivity.
Qed.

(** A percentage of at least a sixteenth of the run, and at most all of it,
    lies within (0, 100], also after rounding. *)
Lemma percentOf_bounds (total c : Z) :
  1 <= total -> total <= 16 * c -> c <= total ->
  JS.lt (JS.of_Z 0) (percentOf total c) /\ JS.le (percentOf total c) (JS.of_Z 100).
Proof.
  intros Ht Hlow Hc.
  destruct (percentOf_bracket total c (1 # 16) 1 (1 # 16) 1 (25 # 4) 100 Ht)
    as (q & -> & Hq);
    [ split; [apply (ratio_ge c total 1 16); lia
             | apply Qle_shift_div_r; [apply inject_Z_pos; lia|];
               rewrite Qmult_1_l, <- Zle_Qle; lia ]
    | vm_compute; reflexivity | vm_compute; reflexivity
    | vm_compute; reflexivity | vm_compute; reflexivity | ].
  unfold JS.lt, JS.le, JS.of_Z. split; [|apply Hq].
  apply Qlt_le_trans with (25 # 4); [reflexivity | apply Hq].
Qed.

(** A count at which a progress message is due is at least a tenth of the
    run, and two of them are at least a tenth of the run apart. *)
Lemma due_apart (total c c' : Z) :
  1 <= total -> 0 <= c -> c < c' ->
  (c = 0 \/ due total c = true) -> due total c' = true ->
  total <= 10 * (c' - c).
Proof.
  intros Ht Hc Hlt Hdue Hdue'. pose proof (ceilDiv10_spec total) as Hd.
  unfold due in *. apply Z.eqb_eq in Hdue'.
  apply Z.mod_divide in Hdue'; [|lia]. destruct Hdue' as [k' Hk'].
  destruct Hdue as [->|Hdue].
  - assert (1 <= k') by nia. nia.
  - apply Z.eqb_eq in Hdue. apply Z.mod_divide in Hdue; [|lia]. destruct Hdue as [k Hk].
    assert (k + 1 <= k') by nia. nia.
Qed.

Lemma filter_sorted {A} (R : A -> A -> Prop) (f : A -> bool) (l : list A) :
  StronglySorted R l -> StronglySorted R (filter f l).
Proof.
  induction 1 as [|a l Hl IH Ha]; simpl; [constructor|].
  destruct (f a); [|exact IH]. constructor; [exact IH|].
  apply Forall_forall. intros x Hx. apply filter_In in Hx as [Hx _].
  rewrite Forall_forall in Ha. auto.
Qed.

Lemma map_sorted {A B} (R : A -> A -> Prop) (S : B -> B -> Prop) (f : A -> B) (l : list A) :
  (forall a b, R a b -> S (f a) (f b)) ->
  StronglySorted R l -> StronglySorted S (map f l).
Proof.
  intros Hf. induction 1 as [|a l Hl IH Ha]; simpl; constructor; [exact IH|].
  apply Forall_forall. intros y Hy. apply in_map_iff in Hy as [x [<- Hx]].
  rewrite Forall_forall in Ha. auto.
Qed.

Lemma sorted_among {A} (R : A -> A -> Prop) (P : A -> Prop) (l : list A) :
  StronglySorted R l -> Forall P l ->
  StronglySorted (fun a b => R a b /\ P a /\ P b) l.
Proof.
  induction 1 as [|a l Hl IH Ha]; intros HP; [constructor|].
  inversion HP as [|a' l' Pa Pl]; subst. constructor; [now apply IH|].
  rewrite Forall_forall in *. intros b Hb. auto.
Qed.

Lemma due_counts (total : Z) (k : nat) :
  (k <= Z.to_nat total)%nat ->
  Forall (fun c => 1 <= c <= total /\ due total c = true)
    (filter (due total) (upFrom 1 k)).
Proof.
  intros Hk. apply Forall_forall. intros c Hc.
  apply filter_In in Hc as [Hc Hdue]. split; [|exact Hdue].
  unfold upFrom in Hc. apply in_map_iff in Hc as [j [<- Hj]]. apply in_seq in Hj. lia.
Qed.

Lemma progressUpTo_increasing (total : Z) (k : nat) :
  (k <= Z.to_nat total)%nat -> StronglySorted JS.lt (progressUpTo total k).
Proof.
  intros Hk. unfold progressUpTo.
  apply map_sorted
    with (R := fun a b => a < b /\
                          (1 <= a <= total /\ due total a = true) /\
                          (1 <= b <= total /\ due total b = true)).
  - intros a b (Hab & [Ha Hda] & [Hb Hdb]).
    apply percentOf_increasing; try lia.
    apply due_apart; auto; lia.
  - apply sorted_among; [apply filter_sorted, upFrom_sorted | now apply due_counts].
Qed.

Lemma progressUpTo_bounds (total : Z) (k : nat) :
  (k <= Z.to_nat total)%nat ->
  Forall isPercentage (progressUpTo total k).
Proof.
  intros Hk. apply Forall_forall. intros v Hv. unfold progressUpTo in Hv.
  apply in_map_iff in Hv as [c [<- Hc]].
  pose proof (due_counts total k Hk) as Hall. rewrite Forall_forall in Hall.
  destruct (Hall c Hc) as [Hb Hdue].
  pose proof (due_apart total 0 c ltac:(lia) ltac:(lia) ltac:(lia) (or_introl eq_refl) Hdue).
  apply percentOf_bounds; lia.
Qed.

Ltac unit_samples :=
  repeat constructor;
  solve [ apply Qle_bool_iff; reflexivity | apply Qlt_alt; reflexivity ].

(** The messages of a run whose loop runs to its end. *)
Lemma runSimulation_completed (p : Payload) (rs rs' : list Q) (st : LoopState) :
  simulate p rs = Some ((st, None), rs') ->
  runSimulation p rs =
    Some (expectedProgress (iterations p) ++
          [COMPLETE (lastn 50 (results st)) (rankStatistics (iterations p) st)]).
Proof.
  intros Hrun. unfold runSimulation. rewrite Hrun.
  apply simulate_posted in Hrun as (k & _ & Hk & ->).
  now rewrite (Hk eq_refl).
Qed.

(** C6 (amended). In a run of [iterations] trials that completes, a progress
    message is posted exactly after the trials whose count of completed
    trials is a positive multiple of ceil(iterations / 10), in that order,
    before the complete message; each carries the percentage
    completed / iterations * 100, a number in (0, 100]. *)
Theorem progress_once_per_block
  (p : Payload) (rs rs' : list Q) (st : LoopState) :
  simulate p rs = Some ((st, None), rs') ->
  runSimulation p rs =
    Some (map PROGRESS
            (map (percentOf (iterations p))
               (filter (due (iterations p)) (upFrom 1 (Z.to_nat (iterations p))))) ++
          [COMPLETE (lastn 50 (results st)) (rankStatistics (iterations p) st)]) /\
  Forall isPercentage
    (map (percentOf (iterations p))
       (filter (due (iterations p)) (upFrom 1 (Z.to_nat (iterations p))))).
Proof.
  intros Hrun. split.
  - apply (runSimulation_completed p rs rs' st Hrun).
  - apply (progressUpTo_bounds (iterations p) (Z.to_nat (iterations p))). lia.
Qed.

Lemma progress_once_per_block_witness :
  exists st rs',
    simulate (SIMULATE 1) (defaultTrial [4; 9; 1; 9; 30; 17; 22] 12) = Some ((st, None), rs') /\
    runSimulation (SIMULATE 1) (defaultTrial [4; 9; 1; 9; 30; 17; 22] 12) =
      Some ([PROGRESS (JS.of_Z 100)] ++
            [COMPLETE (lastn 50 (results st)) (rankStatistics 1 st)]).
Proof.
  eexists. eexists. split; [vm_compute; reflexivity|].
  apply (progress_once_per_block (SIMULATE 1)
           (defaultTrial [4; 9; 1; 9; 30; 17; 22] 12) []).
  vm_compute. reflexivity.
Defined.

(** C6, as stated, fails: the only progress message of a run of one trial
    carries 100, which is neither 1 / 1 nor within [0, 1]. *)
Lemma progress_is_not_a_fraction :
  (exists rest,
      runSimulation (SIMULATE 1) (defaultTrial [4; 9; 1; 9; 30; 17; 22] 12) =
      Some (PROGRESS (JS.of_Z 100) :: rest)) /\
  JS.of_Z 100 <> JS.div 1 1 /\
  ~ JS.le (JS.of_Z 100) (JS.of_Z 1).
Proof.
  split; [eexists; vm_compute; reflexivity|].
  split; [vm_compute; discriminate|].
  simpl. intros H. apply Qle_bool_iff in H. discriminate.
Qed.

(** The messages of a run that ends: progress percentages in strictly
    increasing order, then one terminal message, which is the complete
    message with the statistics or the error message, and nothing after it. *)
Lemma run_protocol (p : Payload) (rs : list Q) (msgs : list Message) :
  runSimulation p rs = Some msgs ->
  exists (percentages : list JS.num) (terminal : Message),
    msgs = map PROGRESS percentages ++ [terminal] /\
    StronglySorted JS.lt percentages /\
    isTerminal terminal.
Proof.
  unfold runSimulation.
  destruct (simulate p rs) as [[[st e] rs']|] eqn:Hrun; [|discriminate].
  apply simulate_posted in Hrun as (k & Hk & _ & Hposted).
  assert (Hsorted : StronglySorted JS.lt (progressUpTo (iterations p) k)).
  { now apply progressUpTo_increasing. }
  destruct e as [e|]; intros [= <-]; rewrite Hposted;
    eexists; eexists; (split; [reflexivity|]); split; simpl; auto.
Qed.

(** ** Ranges that cannot be served (C1, C7) *)

Lemma simulate_starved (p : Payload) (mainSpec : RangeSpec) (rs : list Q) :
  mainNumberRange p = Some mainSpec ->
  1 <= iterations p ->
  min mainSpec <= max mainSpec ->
  max mainSpec - min mainSpec + 1 < count mainSpec ->
  Forall unitSample rs ->
  simulate p rs = None.
Proof.
  intros Hm HN Hle Hc Hrs. unfold simulate.
  destruct (Z.to_nat (iterations p)) as [|todo] eqn:E; [lia|].
  rewrite loop_S.
  enough (Htrial : trial p 0 initialState rs = None) by now rewrite Htrial.
  unfold trial, heavyComputation, generateUniqueNumbers, bind, random, ret.
  destruct Hrs as [|r0 rs1 _ Hrs1]; [reflexivity|]. rewrite Hm.
  rewrite (fillSet_starved _ _ _ rs1 Hle Hc Hrs1 []); [reflexivity | constructor | constructor].
Qed.

(** C1. A start with at least one iteration whose main RangeSpec asks for
    more unique values than its non-empty range holds does not fail fast:
    [generateUniqueNumbers] has no guard, the sampling loop of the first
    trial is still running after any number of samples, and the run posts
    nothing, not even an error. *)
Theorem impossible_range_runs_forever
  (p : Payload) (mainSpec : RangeSpec) (rs : list Q) :
  mainNumberRange p = Some mainSpec ->
  1 <= iterations p ->
  min mainSpec <= max mainSpec ->
  max mainSpec - min mainSpec + 1 < count mainSpec ->
  Forall unitSample rs ->
  runSimulation p rs = None.
Proof.
  intros Hm HN Hle Hc Hrs. unfold runSimulation.
  now rewrite (simulate_starved p mainSpec rs).
Qed.

Lemma impossible_range_runs_forever_witness :
  runSimulation (impossibleStart 1)
    [0; 0; 1 # 5; 2 # 5; 3 # 5; 4 # 5; 1 # 2; 9 # 10; 0; 1 # 3]%Q = None.
Proof.
  apply (impossible_range_runs_forever (impossibleStart 1)
           {| min := 1; max := 5; count := 6 |}).
  - reflexivity.
  - simpl. lia.
  - simpl. lia.
  - simpl. lia.
  - unit_samples.
Defined.

(** C7. A run does not always end with a terminal message: the start of the
    specification's impossible scenario (6 unique numbers of 1..5, 1000
    iterations) posts nothing, whatever it samples, because the sampling
    loop of its first trial never exits. *)
Theorem impossible_start_posts_no_terminal_message :
  neverPosts (impossibleStart 1000).
Proof.
  intros rs Hrs. unfold runSimulation.
  rewrite (simulate_starved (impossibleStart 1000) {| min := 1; max := 5; count := 6 |} rs);
    [reflexivity | reflexivity | simpl; lia | simpl; lia | simpl; lia | exact Hrs].
Qed.

(** ** Runs without trials (C2) *)

(** C2 (amended). A start with [iterations <= 0] executes no trial and
    raises no error: whatever the ranges, the run posts one message, the
    complete message, with no draws and the statistics of the empty tables:
    [totalSimulations] is [iterations], [mostFrequentMain] is empty,
    [mostFrequentBonus] is undefined and there are three ranked combinations. *)
Theorem no_iterations_complete_at_once (p : Payload) (rs : list Q) :
  iterations p <= 0 ->
  exists s,
    runSimulation p rs = Some [COMPLETE [] s] /\
    s = rankStatistics (iterations p) initialState /\
    totalSimulations s = iterations p /\
    mostFrequentMain s = [] /\
    mostFrequentBonus s = None /\
    option_map (@length _) (optimizedCombinations s) = Some 3%nat.
Proof.
  intros HN. eexists. split; [|repeat split].
  unfold runSimulation, simulate.
  replace (Z.to_nat (iterations p)) with 0%nat by lia. reflexivity.
Qed.

Lemma no_iterations_complete_at_once_witness :
  exists s, runSimulation (SIMULATE (-3)) [] = Some [COMPLETE [] s] /\
            totalSimulations s = -3.
Proof.
  destruct (no_iterations_complete_at_once (SIMULATE (-3)) []) as (s & Hrun & _ & Htot & _).
  - simpl. lia.
  - exists s. split; [exact Hrun | exact Htot].
Defined.

(** C2, as stated, fails: the start with [iterations = 0] gets a complete
    message that carries a statistics object. *)
Lemma zero_iterations_post_statistics :
  exists s,
    option_map statisticsOf (runSimulation (SIMULATE 0) []) = Some (Some s) /\
    totalSimulations s = 0 /\ averageSum s = JS.NaN.
Proof. eexists. split; [vm_compute; reflexivity | split; reflexivity]. Qed.

(** ** The tables at the end of the loop *)

Lemma increment_nonempty (n : Z) (m : list (Z * Z)) : increment n m <> [].
Proof. unfold increment. destruct m as [|[k v] m]; simpl; [|destruct (n =? k)]; discriminate. Qed.

Lemma final_tables (p : Payload) (rs rs' : list Q) (st : LoopState) :
  simulate p rs = Some ((st, None), rs') ->
  counted (mainFrequency st) /\ counted (bonusFrequency st) /\
  (1 <= iterations p -> bonusFrequency st <> []) /\
  (1 <= iterations p ->
   forall mainSpec, mainNumberRange p = Some mainSpec -> 6 <= count mainSpec ->
     (6 <= length (mainFrequency st))%nat) /\
  (Forall unitSample rs ->
   forall bonusSpec, bonusNumberRange p = Some bonusSpec -> inhabited bonusSpec ->
     Forall (inRange bonusSpec) (map fst (bonusFrequency st))).
Proof.
  intros Hrun.
  pose (P := fun (i : Z) (s : LoopState) (l : list Q) =>
    0 <= i /\
    counted (mainFrequency s) /\ counted (bonusFrequency s) /\
    (1 <= i -> bonusFrequency s <> []) /\
    (1 <= i ->
     forall mainSpec, mainNumberRange p = Some mainSpec -> 6 <= count mainSpec ->
       (6 <= length (mainFrequency s))%nat) /\
    (Forall unitSample rs ->
     Forall unitSample l /\
     forall bonusSpec, bonusNumberRange p = Some bonusSpec -> inhabited bonusSpec ->
       Forall (inRange bonusSpec) (map fst (bonusFrequency s)))).
  assert (HP : P (0 + Z.of_nat (Z.to_nat (iterations p))) st rs').
  { apply (loop_invariant p P) with (st := initialState) (rs := rs); [| | exact Hrun].
    - clear Hrun. intros i s l s' l' (Hi & Hmain & Hbonus & _ & _ & Hvalid) Htrial.
      apply trial_completes in Htrial
        as (mr & br & r0 & rs1 & picked & r & Hmr & Hbr & -> & Hfill & ->).
      destruct (fillSet_returns _ _ _ _ _ _ _ Hfill) as [[used [-> _]] [Hnd Hlen]].
      unfold P, accumulate; cbn [mainFrequency bonusFrequency]. repeat split.
      + lia.
      + apply tally_counted, Hmain.
      + apply tally_counted, Hmain.
      + apply increment_counted, Hbonus.
      + apply increment_counted, Hbonus.
      + intros _. apply increment_nonempty.
      + intros _ mainSpec Hm Hsix. assert (mr = mainSpec) by congruence. subst mr.
        assert (Hl : (6 <= length (sort_by ascending picked))%nat).
        { rewrite sort_by_length. specialize (Hlen ltac:(simpl; lia)). lia. }
        etransitivity; [exact Hl|].
        match goal with |- (_ <= length ?m)%nat => rewrite <- (length_map fst m) end.
        apply NoDup_incl_length.
        * eapply Permutation_NoDup; [apply Permutation_sym, sort_by_perm|].
          apply Hnd. constructor.
        * intros k Hk. apply tally_keys. now left.
      + apply Hvalid in H. destruct H as [H _]. inversion H as [|? ? _ H1]; subst.
        apply used_samples in H1 as [_ H1]. now inversion H1.
      + intros bonusSpec Hb Hinh. assert (br = bonusSpec) by congruence. subst br.
        destruct (Hvalid H) as [Hl Hkeys].
        inversion Hl as [|? ? _ H1]; subst.
        apply used_samples in H1 as [_ H1]. inversion H1 as [|? ? Hr _]; subst.
        rewrite increment_keys. apply Set_add_Forall; [|now apply Hkeys].
        now apply randomInt_inRange.
    - unfold P, counted; simpl. repeat split; try constructor; try lia; auto. }
  destruct HP as (_ & Hmain & Hbonus & Hne & Hsix & Hvalid).
  rewrite Z.add_0_l in Hne, Hsix.
  repeat split; try apply Hmain; try apply Hbonus.
  - intros HN. apply Hne. lia.
  - intros HN. apply Hsix. lia.
  - intros Hrs. now apply Hvalid.
Qed.

Lemma runSimulation_statistics (p : Payload) (rs rs' : list Q) (st : LoopState) :
  simulate p rs = Some ((st, None), rs') ->
  option_map statisticsOf (runSimulation p rs) =
  Some (Some (rankStatistics (iterations p) st)).
Proof.
  intros Hrun. unfold runSimulation. rewrite Hrun. simpl.
  unfold statisticsOf. now rewrite last_last.
Qed.

(** ** The ranking (C3, C4, C10) *)

Lemma mostFrequentMain_eq (n : Z) (st : LoopState) :
  mostFrequentMain (rankStatistics n st) =
  sort_by ascending (map fst (firstn 6 (sort_by byCountDesc (mainFrequency st)))).
Proof. reflexivity. Qed.

Lemma mostFrequentBonus_eq (n : Z) (st : LoopState) :
  mostFrequentBonus (rankStatistics n st) =
  nth_error (map fst (sort_by byCountDesc (bonusFrequency st))) 0.
Proof. reflexivity. Qed.

Lemma StronglySorted_app_inv {A} (R : A -> A -> Prop) (l1 l2 : list A) :
  StronglySorted R (l1 ++ l2) ->
  forall a b, In a l1 -> In b l2 -> R a b.
Proof.
  induction l1 as [|x l1 IH]; simpl; intros Hs a b Ha Hb; [contradiction|].
  inversion Hs as [|? ? Hs' Hx]; subst. destruct Ha as [->|Ha].
  - rewrite Forall_forall in Hx. apply Hx, in_or_app. now right.
  - now apply IH.
Qed.

Lemma top_six_length (n : Z) (st : LoopState) :
  (6 <= length (mainFrequency st))%nat ->
  length (mostFrequentMain (rankStatistics n st)) = 6%nat.
Proof.
  intros H. rewrite mostFrequentMain_eq, sort_by_length, length_map, length_firstn,
    sort_by_length. lia.
Qed.

Lemma top_six_ascending (n : Z) (st : LoopState) :
  counted (mainFrequency st) ->
  StronglySorted Z.lt (mostFrequentMain (rankStatistics n st)).
Proof.
  intros [Hnd _]. rewrite mostFrequentMain_eq. apply sort_ascending_lt.
  rewrite <- firstn_map.
  apply NoDup_app_remove_r with (l' := skipn 6 (map fst (sort_by byCountDesc (mainFrequency st)))).
  rewrite firstn_skipn.
  eapply Permutation_NoDup; [|exact Hnd].
  apply Permutation_map, Permutation_sym, sort_by_perm.
Qed.

(** No number left out of the six has a higher recorded frequency than a
    number among them (a number never drawn has frequency 0). *)
Lemma top_six_most_frequent (n : Z) (st : LoopState) (inside outside : Z) :
  counted (mainFrequency st) ->
  In inside (mostFrequentMain (rankStatistics n st)) ->
  ~ In outside (mostFrequentMain (rankStatistics n st)) ->
  JS.or0 (Map_get outside (mainFrequency st)) <= JS.or0 (Map_get inside (mainFrequency st)).
Proof.
  intros Hc Hin Hout. pose proof Hc as [Hnd Hpos].
  rewrite mostFrequentMain_eq, sort_by_In in Hin, Hout.
  set (sorted := sort_by byCountDesc (mainFrequency st)) in *.
  assert (Hsorted : StronglySorted (fun a b => snd b <= snd a)
                      (firstn 6 sorted ++ skipn 6 sorted)).
  { rewrite firstn_skipn. apply sort_byCountDesc_sorted. }
  assert (Hmem : forall e, In e sorted <-> In e (mainFrequency st)).
  { intros e. apply sort_by_In. }
  apply in_map_iff in Hin as [[k c] [Hk Hkc]]. simpl in Hk. subst k.
  assert (Hget : Map_get inside (mainFrequency st) = Some c).
  { apply In_Map_get; [exact Hnd|]. apply Hmem.
    rewrite <- (firstn_skipn 6 sorted). apply in_or_app. now left. }
  rewrite Hget. simpl.
  destruct (Map_get outside (mainFrequency st)) as [c'|] eqn:Hget'; simpl.
  - apply Map_get_In, Hmem in Hget'.
    rewrite <- (firstn_skipn 6 sorted) in Hget'.
    apply in_app_or in Hget' as [Hfirst|Hrest].
    + exfalso. apply Hout. apply in_map_iff. now exists (outside, c').
    + apply (StronglySorted_app_inv _ _ _ Hsorted (inside, c) (outside, c') Hkc Hrest).
  - apply Map_get_In in Hget. rewrite Forall_forall in Hpos.
    specialize (Hpos _ Hget). simpl in Hpos. lia.
Qed.

Lemma Qred_mono (a b : Q) : (a <= b)%Q -> (Qred a <= Qred b)%Q.
Proof.
  intros H. apply Qle_trans with a; [apply Qle_lteq; right; apply Qred_correct|].
  apply Qle_trans with b; [exact H|].
  apply Qle_lteq; right. symmetry. apply Qred_correct.
Qed.

Lemma round_mono (a b : Q) :
  (a <= b)%Q -> JS.le (JS.round (JS.Fin a)) (JS.round (JS.Fin b)).
Proof.
  intros H.
  change (inject_Z (Qfloor (a + (1 # 2))) <= inject_Z (Qfloor (b + (1 # 2))))%Q.
  rewrite <- Zle_Qle. apply Qfloor_resp_le.
  apply Qplus_le_l. exact H.
Qed.

Lemma round_le (x y : JS.num) : JS.le x y -> JS.le (JS.round x) (JS.round y).
Proof.
  destruct x as [|[|]|a], y as [|[|]|b]; try (intros H; exact H).
  apply round_mono.
Qed.

(** What a real that is not negative rounds to: a double that is not
    negative, or the positive infinity. *)
Lemma double_cases (x : Q) :
  (0 <= x)%Q ->
  (exists q, JS.double x = JS.Fin q /\ (0 <= q)%Q /\ JS.double q = JS.Fin q) \/
  JS.double x = JS.Inf false.
Proof.
  intros Hx. pose proof (double_mono 0 x Hx) as H0.
  pose proof (double_nonneg x Hx) as Hd.
  destruct (JS.overflow <=? JS.nearest x); [now right|]. left.
  eexists. split; [exact Hd|]. split; [|exact (double_idem _ _ Hd)].
  rewrite Hd in H0. change (JS.double 0) with (JS.Fin 0) in H0. exact H0.
Qed.

(** A percentage is a double that is not negative, or the positive
    infinity. *)
Lemma percentOf_cases (total c : Z) :
  1 <= total -> 0 <= c ->
  (exists q, percentOf total c = JS.Fin q /\ (0 <= q)%Q /\ JS.double q = JS.Fin q) \/
  percentOf total c = JS.Inf false.
Proof.
  intros Ht Hc. rewrite percentOf_eq by exact Ht.
  assert (Hx : (0 <= inject_Z c / inject_Z total)%Q).
  { apply Qle_shift_div_l; [apply inject_Z_pos; lia|].
    rewrite Qmult_0_l. change (inject_Z 0 <= inject_Z c)%Q. now rewrite <- Zle_Qle. }
  destruct (double_cases _ Hx) as [(a & -> & Ha & _)| ->]; [|now right].
  apply double_cases. lra.
Qed.

(** The weights keep the three scores in order. *)
Lemma scores_ordered (total frequency : Z) :
  1 <= total -> 0 <= frequency ->
  JS.le (JS.round (JS.mul (percentOf total frequency) (70 # 100)))
        (JS.round (JS.mul (percentOf total frequency) (85 # 100))) /\
  JS.le (JS.round (JS.mul (percentOf total frequency) (85 # 100)))
        (JS.round (percentOf total frequency)).
Proof.
  intros Ht Hf.
  destruct (percentOf_cases total frequency Ht Hf) as [(q & -> & H0 & Hq)| ->];
    [|split; exact I].
  assert (H70 : (0 <= JS.literal (70 # 100) <= JS.literal (85 # 100))%Q)
    by (split; apply Qle_bool_iff; vm_compute; reflexivity).
  assert (H85 : (JS.literal (85 # 100) <= 1)%Q)
    by (apply Qle_bool_iff; vm_compute; reflexivity).
  unfold JS.mul. split; apply round_le.
  - apply double_mono. rewrite !(Qmult_comm q).
    apply Qmult_le_compat_r; [apply H70 | exact H0].
  - rewrite <- Hq. apply double_mono.
    rewrite <- (Qmult_1_r q) at 2. rewrite !(Qmult_comm q).
    apply Qmult_le_compat_r; [exact H85 | exact H0].
Qed.

(** The frequency behind the scores is a recorded one. *)
Lemma score_frequency (n : Z) (st : LoopState) :
  exists frequency,
    ((mostFrequentMain (rankStatistics n st) = [] /\ frequency = 0) \/
     (exists number, In number (mostFrequentMain (rankStatistics n st)) /\
                     frequency = JS.or0 (Map_get number (mainFrequency st)))) /\
    optimizedCombinations (rankStatistics n st) =
    Some [ {| Combination.rank := "Primary Result";
              Combination.mainNumbers := mostFrequentMain (rankStatistics n st);
              Combination.bonusNumber :=
                JS.orElse (mostFrequentBonus (rankStatistics n st)) (JS.of_Z 1);
              Combination.frequencyScore := JS.round (percentOf n frequency) |};
           {| Combination.rank := "Secondary Result";
              Combination.mainNumbers := mostFrequentMain (rankStatistics n st);
              Combination.bonusNumber :=
                JS.orElse
                  (nth_error (map fst (sort_by byCountDesc (bonusFrequency st))) 1)
                  (wrapFrom (mostFrequentBonus (rankStatistics n st)) 12 1);
              Combination.frequencyScore :=
                JS.round (JS.mul (percentOf n frequency) (85 # 100)) |};
           {| Combination.rank := "Tertiary Result";
              Combination.mainNumbers := mostFrequentMain (rankStatistics n st);
              Combination.bonusNumber :=
                JS.orElse
                  (nth_error (map fst (sort_by byCountDesc (bonusFrequency st))) 2)
                  (wrapFrom (mostFrequentBonus (rankStatistics n st)) 11 2);
              Combination.frequencyScore :=
                JS.round (JS.mul (percentOf n frequency) (70 # 100)) |} ].
Proof.
  rewrite mostFrequentMain_eq.
  destruct (sort_by ascending (map fst (firstn 6 (sort_by byCountDesc (mainFrequency st)))))
    as [|number rest] eqn:Htop.
  - exists 0. split; [now left|].
    unfold rankStatistics. rewrite Htop. reflexivity.
  - exists (JS.or0 (Map_get number (mainFrequency st))). split.
    + right. exists number. split; [now left | reflexivity].
    + unfold rankStatistics. rewrite Htop. reflexivity.
Qed.

Lemma Map_get_key (k : Z) (m : list (Z * Z)) :
  In k (map fst m) -> exists v, Map_get k m = Some v.
Proof.
  induction m as [|[k' v'] m IH]; simpl; [contradiction|].
  destruct (Z.eqb_spec k k') as [->|Hne]; [now exists v'|].
  intros [E|Hin]; [congruence | auto].
Qed.

Lemma top_six_recorded (n : Z) (st : LoopState) (number : Z) :
  In number (mostFrequentMain (rankStatistics n st)) ->
  exists frequency, Map_get number (mainFrequency st) = Some frequency.
Proof.
  rewrite mostFrequentMain_eq, sort_by_In, <- firstn_map. intros Hin.
  apply Map_get_key.
  assert (H : In number (map fst (sort_by byCountDesc (mainFrequency st)))).
  { rewrite <- (firstn_skipn 6). apply in_or_app. now left. }
  apply in_map_iff in H as [e [He Hin']]. apply sort_by_In in Hin'.
  apply in_map_iff. now exists e.
Qed.

(** C3 (amended). In every run that completes, the three scores are
    round(x), round(x * 0.85) and round(x * 0.70) of one and the same
    unrounded percentage x = f / iterations * 100, where f is the recorded
    frequency of one of the numbers of mostFrequentMain (0 when there is
    none), and every quotient and product is the double the worker
    computes: the second and third score are not computed from the rounded
    first score. *)
Theorem scores_from_unrounded_percentage
  (p : Payload) (rs rs' : list Q) (st : LoopState) :
  simulate p rs = Some ((st, None), rs') ->
  exists s frequency c1 c2 c3,
    option_map statisticsOf (runSimulation p rs) = Some (Some s) /\
    ((mostFrequentMain s = [] /\ frequency = 0) \/
     (exists number, In number (mostFrequentMain s) /\
                     Map_get number (mainFrequency st) = Some frequency)) /\
    optimizedCombinations s = Some [c1; c2; c3] /\
    Combination.frequencyScore c1 = JS.round (percentOf (iterations p) frequency) /\
    Combination.frequencyScore c2 =
      JS.round (JS.mul (percentOf (iterations p) frequency) (85 # 100)) /\
    Combination.frequencyScore c3 =
      JS.round (JS.mul (percentOf (iterations p) frequency) (70 # 100)).
Proof.
  intros Hrun.
  destruct (score_frequency (iterations p) st) as (frequency & Hf & Hcombos).
  exists (rankStatistics (iterations p) st), frequency.
  do 3 eexists. split; [now apply runSimulation_statistics with (rs' := rs')|].
  split; [|split; [exact Hcombos | repeat split]].
  destruct Hf as [Hnone | (number & Hin & ->)]; [now left|].
  right. exists number. split; [exact Hin|].
  destruct (top_six_recorded _ _ _ Hin) as [v Hv]. now rewrite Hv.
Qed.

Lemma scores_from_unrounded_percentage_witness :
  exists st rs',
    simulate (SIMULATE 20) twentyTrials = Some ((st, None), rs') /\
    Map_get 1 (mainFrequency st) = Some 9 /\
    option_map (map Combination.frequencyScore)
      (optimizedCombinations (rankStatistics 20 st)) =
      Some [JS.of_Z 45; JS.of_Z 38; JS.of_Z 31] /\
    exists s frequency c1 c2 c3,
      option_map statisticsOf (runSimulation (SIMULATE 20) twentyTrials) = Some (Some s) /\
      ((mostFrequentMain s = [] /\ frequency = 0) \/
       (exists number, In number (mostFrequentMain s) /\
                       Map_get number (mainFrequency st) = Some frequency)) /\
      optimizedCombinations s = Some [c1; c2; c3] /\
      Combination.frequencyScore c1 = JS.round (percentOf 20 frequency) /\
      Combination.frequencyScore c2 = JS.round (JS.mul (percentOf 20 frequency) (85 # 100)) /\
      Combination.frequencyScore c3 = JS.round (JS.mul (percentOf 20 frequency) (70 # 100)).
Proof.
  do 2 eexists. split; [vm_compute; reflexivity|].
  split; [vm_compute; reflexivity|]. split; [vm_compute; reflexivity|].
  apply (scores_from_unrounded_percentage (SIMULATE 20) twentyTrials []).
  vm_compute. reflexivity.
Defined.

(** C3, as stated, fails.  In seven default trials where the highest recorded
    frequency is 2 (that of the number 1, among others) the first score is
    round(2 / 7 * 100) = 29, and the second score is 24, not
    round(29 * 0.85) = 25. *)
Lemma second_score_not_from_rounded_first :
  exists st rs' s c1 c2 c3,
    simulate (SIMULATE 7) sevenTrials = Some ((st, None), rs') /\
    Forall (fun e => snd e <= 2) (mainFrequency st) /\
    Map_get 1 (mainFrequency st) = Some 2 /\
    option_map statisticsOf (runSimulation (SIMULATE 7) sevenTrials) = Some (Some s) /\
    optimizedCombinations s = Some [c1; c2; c3] /\
    Combination.frequencyScore c1 = JS.of_Z 29 /\
    JS.round (percentOf 7 2) = JS.of_Z 29 /\
    Combination.frequencyScore c2 = JS.of_Z 24 /\
    JS.round (JS.mul (JS.of_Z 29) (85 # 100)) = JS.of_Z 25.
Proof.
  do 6 eexists.
  split; [vm_compute; reflexivity|].
  split; [repeat constructor; simpl; lia|].
  split; [reflexivity|].
  split; [vm_compute; reflexivity|].
  split; [vm_compute; reflexivity|].
  repeat split.
Qed.

(** C10 (amended). In every run of the worker that completes at least one
    iteration with a main RangeSpec of count >= 6, mostFrequentMain has
    exactly 6 entries in strictly ascending order, and no number left out of
    it has a higher recorded frequency than a number in it;
    optimizedCombinations has exactly 3 entries, all three with the main
    numbers of mostFrequentMain, and their scores do not increase from the
    first to the third. *)
Theorem top_six_and_three_ranks
  (p : Payload) (mainSpec : RangeSpec) (rs rs' : list Q) (st : LoopState) :
  mainNumberRange p = Some mainSpec ->
  6 <= count mainSpec ->
  1 <= iterations p ->
  simulate p rs = Some ((st, None), rs') ->
  exists s c1 c2 c3,
    option_map statisticsOf (runSimulation p rs) = Some (Some s) /\
    length (mostFrequentMain s) = 6%nat /\
    StronglySorted Z.lt (mostFrequentMain s) /\
    (forall inside outside,
        In inside (mostFrequentMain s) -> ~ In outside (mostFrequentMain s) ->
        JS.or0 (Map_get outside (mainFrequency st)) <=
        JS.or0 (Map_get inside (mainFrequency st))) /\
    optimizedCombinations s = Some [c1; c2; c3] /\
    Combination.mainNumbers c1 = mostFrequentMain s /\
    Combination.mainNumbers c2 = mostFrequentMain s /\
    Combination.mainNumbers c3 = mostFrequentMain s /\
    JS.le (Combination.frequencyScore c2) (Combination.frequencyScore c1) /\
    JS.le (Combination.frequencyScore c3) (Combination.frequencyScore c2).
Proof.
  intros Hm Hsix HN Hrun.
  destruct (final_tables p rs rs' st Hrun) as (Hmain & _ & _ & Hlen & _).
  specialize (Hlen HN mainSpec Hm Hsix).
  destruct (score_frequency (iterations p) st) as (frequency & Hf & Hcombos).
  assert (H0 : 0 <= frequency).
  { destruct Hf as [[_ ->] | (number & _ & ->)]; [lia | now apply counted_get]. }
  destruct (scores_ordered (iterations p) frequency HN H0) as [H32 H21].
  exists (rankStatistics (iterations p) st). do 3 eexists.
  split; [now apply runSimulation_statistics with (rs' := rs')|].
  split; [now apply top_six_length|].
  split; [now apply top_six_ascending|].
  split; [intros inside outside; now apply top_six_most_frequent|].
  split; [exact Hcombos|]. repeat split; assumption.
Qed.

Lemma top_six_and_three_ranks_witness :
  exists st rs',
    simulate (SIMULATE 7) sevenTrials = Some ((st, None), rs') /\
    exists s c1 c2 c3,
      option_map statisticsOf (runSimulation (SIMULATE 7) sevenTrials) = Some (Some s) /\
      length (mostFrequentMain s) = 6%nat /\
      StronglySorted Z.lt (mostFrequentMain s) /\
      (forall inside outside,
          In inside (mostFrequentMain s) -> ~ In outside (mostFrequentMain s) ->
          JS.or0 (Map_get outside (mainFrequency st)) <=
          JS.or0 (Map_get inside (mainFrequency st))) /\
      optimizedCombinations s = Some [c1; c2; c3] /\
      Combination.mainNumbers c1 = mostFrequentMain s /\
      Combination.mainNumbers c2 = mostFrequentMain s /\
      Combination.mainNumbers c3 = mostFrequentMain s /\
      JS.le (Combination.frequencyScore c2) (Combination.frequencyScore c1) /\
      JS.le (Combination.frequencyScore c3) (Combination.frequencyScore c2).
Proof.
  do 2 eexists. split; [vm_compute; reflexivity|].
  apply (top_six_and_three_ranks (SIMULATE 7) SECTION_A sevenTrials []).
  - reflexivity.
  - simpl. lia.
  - simpl. lia.
  - vm_compute. reflexivity.
Defined.

(** C10, as stated, fails: a run that draws 3 main numbers of 1..31 ends
    with a mostFrequentMain of 3 entries. *)
Lemma three_of_31_has_no_top_six :
  exists s,
    option_map statisticsOf
      (runSimulation startThreeOf31 (trialSamples threeOf31 SECTION_B [9; 2; 5] 7)) =
    Some (Some s) /\
    mostFrequentMain s = [2; 5; 9] /\
    length (mostFrequentMain s) <> 6%nat.
Proof.
  eexists. split; [vm_compute; reflexivity|]. split; [reflexivity | discriminate].
Qed.

Lemma sorted_table_head (m : list (Z * Z)) :
  m <> [] ->
  exists top, nth_error (map fst (sort_by byCountDesc m)) 0 = Some top /\
              In top (map fst m).
Proof.
  intros Hne.
  destruct (sort_by byCountDesc m) as [|[k c] sorted] eqn:E.
  - exfalso. apply Hne. apply length_zero_iff_nil.
    rewrite <- (sort_by_length byCountDesc), E. reflexivity.
  - exists k. split; [reflexivity|].
    apply in_map_iff. exists (k, c). split; [reflexivity|].
    apply (sort_by_In byCountDesc). rewrite E. now left.
Qed.

Lemma sorted_table_beyond (m : list (Z * Z)) (n : nat) :
  (length m <= n)%nat -> nth_error (map fst (sort_by byCountDesc m)) n = None.
Proof.
  intros H. apply nth_error_None. now rewrite length_map, sort_by_length.
Qed.

(** C4 (amended). In every run that completes at least one iteration over
    the bonus range 1..12: when the bonus frequency table has fewer than 2
    distinct values, the bonus number of the second combination is the top
    bonus value plus 1, or 1 when the top value is 12, and lies within 1..12;
    when the table has fewer than 3 distinct values and the top value is not
    12, the bonus number of the third combination is the top value plus 2, or
    1 when the top value is 11, and lies within 1..12.  The wrap-around is
    written for the range 1..12, not derived from the bonus RangeSpec. *)
Theorem fallback_bonus_of_default_range
  (p : Payload) (bonusSpec : RangeSpec) (rs rs' : list Q) (st : LoopState) :
  bonusNumberRange p = Some bonusSpec ->
  min bonusSpec = 1 -> max bonusSpec = 12 ->
  1 <= iterations p ->
  Forall unitSample rs ->
  simulate p rs = Some ((st, None), rs') ->
  exists s top c1 c2 c3,
    option_map statisticsOf (runSimulation p rs) = Some (Some s) /\
    mostFrequentBonus s = Some top /\
    optimizedCombinations s = Some [c1; c2; c3] /\
    ((length (bonusFrequency st) < 2)%nat ->
     Combination.bonusNumber c2 = JS.of_Z (if top =? 12 then 1 else top + 1) /\
     inRange bonusSpec (if top =? 12 then 1 else top + 1)) /\
    ((length (bonusFrequency st) < 3)%nat -> top <> 12 ->
     Combination.bonusNumber c3 = JS.of_Z (if top =? 11 then 1 else top + 2) /\
     inRange bonusSpec (if top =? 11 then 1 else top + 2)).
Proof.
  intros Hb Hmin Hmax HN Hrs Hrun.
  destruct (final_tables p rs rs' st Hrun) as (_ & _ & Hne & _ & Hrange).
  specialize (Hne HN).
  assert (Hinh : inhabited bonusSpec) by (unfold inhabited; lia).
  specialize (Hrange Hrs bonusSpec Hb Hinh).
  destruct (sorted_table_head _ Hne) as (top & Htop & Hkey).
  rewrite Forall_forall in Hrange. specialize (Hrange top Hkey).
  unfold inRange in *. rewrite Hmin, Hmax in *.
  destruct (score_frequency (iterations p) st) as (frequency & _ & Hcombos).
  rewrite mostFrequentBonus_eq, Htop in Hcombos.
  exists (rankStatistics (iterations p) st), top. do 3 eexists.
  split; [now apply runSimulation_statistics with (rs' := rs')|].
  split; [now rewrite mostFrequentBonus_eq|].
  split; [exact Hcombos|].
  cbn [Combination.bonusNumber]. split.
  - intros Hlen. rewrite sorted_table_beyond by lia. simpl.
    destruct (Z.eqb_spec top 12); split; (reflexivity || lia).
  - intros Hlen Hnot. rewrite sorted_table_beyond by lia. simpl.
    destruct (Z.eqb_spec top 11); split; (reflexivity || lia).
Qed.

Lemma fallback_bonus_of_default_range_witness :
  exists st rs',
    simulate (SIMULATE 1) (defaultTrial [4; 9; 1; 9; 30; 17; 22] 12) = Some ((st, None), rs') /\
    exists s top c1 c2 c3,
      option_map statisticsOf
        (runSimulation (SIMULATE 1) (defaultTrial [4; 9; 1; 9; 30; 17; 22] 12)) =
      Some (Some s) /\
      mostFrequentBonus s = Some top /\
      optimizedCombinations s = Some [c1; c2; c3] /\
      ((length (bonusFrequency st) < 2)%nat ->
       Combination.bonusNumber c2 = JS.of_Z (if top =? 12 then 1 else top + 1) /\
       inRange SECTION_B (if top =? 12 then 1 else top + 1)) /\
      ((length (bonusFrequency st) < 3)%nat -> top <> 12 ->
       Combination.bonusNumber c3 = JS.of_Z (if top =? 11 then 1 else top + 2) /\
       inRange SECTION_B (if top =? 11 then 1 else top + 2)).
Proof.
  do 2 eexists. split; [vm_compute; reflexivity|].
  apply (fallback_bonus_of_default_range (SIMULATE 1) SECTION_B
           (defaultTrial [4; 9; 1; 9; 30; 17; 22] 12) []).
  - reflexivity.
  - reflexivity.
  - reflexivity.
  - simpl. lia.
  - unit_samples.
  - vm_compute. reflexivity.
Defined.

(** C4, as stated, fails: over the bonus range 1..5, a run whose only bonus
    number is 5 gives the second combination the bonus number 6. *)
Lemma fallback_bonus_leaves_the_range :
  exists st rs' s c1 c2 c3,
    simulate startBonusOfFive (trialSamples SECTION_A bonusOfFive [1; 2; 3; 4; 5; 6] 5) =
      Some ((st, None), rs') /\
    map fst (bonusFrequency st) = [5] /\
    option_map statisticsOf
      (runSimulation startBonusOfFive
         (trialSamples SECTION_A bonusOfFive [1; 2; 3; 4; 5; 6] 5)) = Some (Some s) /\
    optimizedCombinations s = Some [c1; c2; c3] /\
    Combination.bonusNumber c2 = JS.of_Z 6 /\
    ~ inRange bonusOfFive 6.
Proof.
  do 6 eexists.
  split; [vm_compute; reflexivity|].
  split; [reflexivity|].
  split; [vm_compute; reflexivity|].
  split; [vm_compute; reflexivity|].
  split; [reflexivity|].
  unfold inRange; simpl. lia.
Qed.

(** ** The draws of a run (C8) *)

(** Every trial records one draw, under the number of the trial. *)
Lemma simulate_ids (p : Payload) (rs rs' : list Q) (st : LoopState) :
  simulate p rs = Some ((st, None), rs') ->
  map Result.id (results st) = upFrom 1 (Z.to_nat (iterations p)).
Proof.
  intros Hrun.
  pose (P := fun (i : Z) (s : LoopState) (_ : list Q) =>
               0 <= i /\ map Result.id (results s) = upFrom 1 (Z.to_nat i)).
  assert (HP : P (0 + Z.of_nat (Z.to_nat (iterations p))) st rs').
  { apply (loop_invariant p P) with (st := initialState) (rs := rs);
      [| now split | exact Hrun].
    clear Hrun. intros i s l s' l' (Hi & Hids) Htrial.
    apply trial_completes in Htrial
      as (mr & br & r0 & rs1 & picked & r & _ & _ & _ & _ & ->).
    split; [lia|].
    rewrite accumulate_results, map_app, Hids. simpl.
    replace (Z.to_nat (i + 1)) with (S (Z.to_nat i)) by lia.
    rewrite upFrom_snoc. do 2 f_equal. lia. }
  destruct HP as [_ Hids]. rewrite Hids. f_equal. lia.
Qed.

(** C8. For servable main and inhabited bonus RangeSpecs and samples of
    [Math.random()] in [0, 1), a run that completes generates one Draw per
    trial, the Draws 1, ..., iterations in that order, and every one of them
    has pairwise distinct main numbers, each within the main range, in
    strictly ascending order, [count] of them; its bonus number lies within
    the bonus range; and its checksum is the sum of the main numbers times
    the bonus number.  The complete message carries the last 50 of these
    Draws. *)
Theorem generated_draws_well_formed
  (p : Payload) (mainSpec bonusSpec : RangeSpec) (rs rs' : list Q) (st : LoopState) :
  mainNumberRange p = Some mainSpec ->
  bonusNumberRange p = Some bonusSpec ->
  servable mainSpec -> inhabited bonusSpec ->
  Forall unitSample rs ->
  simulate p rs = Some ((st, None), rs') ->
  map Result.id (results st) = upFrom 1 (Z.to_nat (iterations p)) /\
  Forall (wellFormedDraw mainSpec bonusSpec) (results st) /\
  exists (progress : list Message) (s : Statistics),
    runSimulation p rs = Some (progress ++ [COMPLETE (lastn 50 (results st)) s]).
Proof.
  intros Hm Hb Hserv Hinh Hrs Hrun.
  split; [now apply simulate_ids with (rs := rs) (rs' := rs')|].
  split; [now apply results_well_formed with (p := p) (rs := rs) (rs' := rs')|].
  do 2 eexists. now apply runSimulation_completed with (rs' := rs').
Qed.

Lemma generated_draws_well_formed_witness :
  exists st rs',
    simulate (SIMULATE 2) twoTrials = Some ((st, None), rs') /\
    results st =
      [ {| Result.id := 1; Result.mainNumbers := [1; 4; 9; 17; 22; 30];
           Result.bonusNumber := 12; Result.checksum := 996 |};
        {| Result.id := 2; Result.mainNumbers := [2; 5; 8; 16; 23; 31];
           Result.bonusNumber := 1; Result.checksum := 85 |} ] /\
    map Result.id (results st) = upFrom 1 (Z.to_nat 2) /\
    Forall (wellFormedDraw SECTION_A SECTION_B) (results st) /\
    exists (progress : list Message) (s : Statistics),
      runSimulation (SIMULATE 2) twoTrials =
      Some (progress ++ [COMPLETE (lastn 50 (results st)) s]).
Proof.
  do 2 eexists. split; [vm_compute; reflexivity|]. split; [reflexivity|].
  apply (generated_draws_well_formed (SIMULATE 2) SECTION_A SECTION_B twoTrials []).
  - reflexivity.
  - reflexivity.
  - unfold servable; simpl. lia.
  - unfold inhabited; simpl. lia.
  - unit_samples.
  - vm_compute. reflexivity.
Defined.

Lemma every_trial_counted_once_witness :
  exists st rs',
    simulate (SIMULATE 7) sevenTrials = Some ((st, None), rs') /\
    map Result.id (results st) = [1; 2; 3; 4; 5; 6; 7] /\
    totalCount (mainFrequency st) = 42 /\
    totalCount (bonusFrequency st) = 7.
Proof.
  do 2 eexists. split; [vm_compute; reflexivity|].
  apply (every_trial_counted_once (SIMULATE 7) SECTION_A sevenTrials []).
  - reflexivity.
  - reflexivity.
  - simpl. lia.
  - vm_compute. reflexivity.
Defined.

(** ** The fallback (C5) *)

Lemma processChunk_eq (iterations : Z) (timeouts : nat) (results : list Result.t)
  (processed : Z) (shown : list JS.num) (rs : list Q) :
  Fallback.processChunk iterations timeouts results processed shown rs =
  match Fallback.chunk iterations Fallback.chunkSize results processed rs with
  | None => None
  | Some ((results', processed'), rs') =>
      let shown' := shown ++ [JS.mul (JS.div processed' iterations) 100] in
      if processed' <? iterations then
        match timeouts with
        | O => None
        | S timeouts' =>
            Fallback.processChunk iterations timeouts' results' processed' shown' rs'
        end
      else
        Some {| Fallback.progress := shown';
                Fallback.results := lastn 50 results';
                Fallback.statistics :=
                  {| totalSimulations := iterations;
                     mostFrequentMain := [3; 7; 12; 18; 24; 29];
                     mostFrequentBonus := Some 6;
                     averageSum :=
                       JS.round
                         (JS.div
                            (fold_left
                               (fun acc r => acc + sum (Result.mainNumbers r))
                               results' 0)
                            iterations);
                     optimizedCombinations := None |} |}
  end.
Proof. destruct timeouts; reflexivity. Qed.

(** A chunk appends one draw per trial it processes, and processes no trial
    beyond [iterations]. *)
Lemma chunk_counts (iterations : Z) (left : nat) :
  forall results processed rs results' processed' rs',
    Fallback.chunk iterations left results processed rs = Some ((results', processed'), rs') ->
    Z.of_nat (length results) = processed ->
    Z.of_nat (length results') = processed' /\
    processed <= processed' <= Z.max processed iterations /\
    (processed < iterations -> (0 < left)%nat -> processed < processed').
Proof.
  induction left as [|left IH]; intros results processed rs results' processed' rs'.
  - simpl. unfold ret. intros [= <- <- <-] Hlen. repeat split; lia.
  - simpl. destruct (Z.ltb_spec processed iterations) as [Hlt|Hge].
    + unfold bind, random.
      destruct (Fallback.pickMain [] rs) as [[picked rs1]|]; [|discriminate].
      destruct rs1 as [|r rs2]; [discriminate|].
      intros Hrun Hlen. apply IH in Hrun.
      * destruct Hrun as (H1 & H2 & _). repeat split; lia.
      * rewrite length_app. simpl. lia.
    + unfold ret. intros [= <- <- <-] Hlen. repeat split; lia.
Qed.

Lemma processChunk_outcome (iterations : Z) (timeouts : nat) :
  forall results processed shown rs out,
    Fallback.processChunk iterations timeouts results processed shown rs = Some out ->
    Z.of_nat (length results) = processed ->
    exists drawn,
      Z.of_nat (length drawn) = Z.max processed iterations /\
      Fallback.results out = lastn 50 drawn /\
      Fallback.statistics out =
        {| totalSimulations := iterations;
           mostFrequentMain := [3; 7; 12; 18; 24; 29];
           mostFrequentBonus := Some 6;
           averageSum :=
             JS.round
               (JS.div
                  (fold_left (fun acc r => acc + sum (Result.mainNumbers r)) drawn 0)
                  iterations);
           optimizedCombinations := None |}.
Proof.
  induction timeouts as [|timeouts IH]; intros results processed shown rs out;
    rewrite processChunk_eq;
    destruct (Fallback.chunk iterations Fallback.chunkSize results processed rs)
      as [[[results' processed'] rs']|] eqn:Hchunk; try discriminate;
    cbv zeta; destruct (Z.ltb_spec processed' iterations) as [Hlt|Hge];
    try discriminate; intros Hout Hlen;
    destruct (chunk_counts _ _ _ _ _ _ _ _ Hchunk Hlen) as (Hlen' & Hbound & _).
  - injection Hout as <-. exists results'. repeat split. lia.
  - apply IH in Hout; [|exact Hlen'].
    destruct Hout as (drawn & Hd & Hout). exists drawn. split; [lia | exact Hout].
  - injection Hout as <-. exists results'. repeat split. lia.
Qed.



(** ** Runs that end *)

Lemma range_size_positive (lo hi : Z) : lo <= hi -> (0 < inject_Z (hi - lo + 1))%Q.
Proof.
  intros H. change (inject_Z 0 < inject_Z (hi - lo + 1))%Q. rewrite <- Zlt_Qlt. lia.
Qed.

Lemma sampleOf_value (lo hi v : Z) :
  (sampleOf lo hi v == inject_Z (v - lo) / inject_Z (hi - lo + 1))%Q.
Proof. apply Qred_correct. Qed.

Lemma sampleOf_unit (lo hi v : Z) : lo <= v <= hi -> unitSample (sampleOf lo hi v).
Proof.
  intros Hv. assert (Hn := range_size_positive lo hi ltac:(lia)).
  unfold unitSample. rewrite sampleOf_value. split.
  - apply Qle_shift_div_l; [exact Hn|].
    rewrite Qmult_0_l. change (inject_Z 0 <= inject_Z (v - lo))%Q.
    rewrite <- Zle_Qle. lia.
  - apply Qlt_shift_div_r; [exact Hn|].
    rewrite Qmult_1_l, <- Zlt_Qlt. lia.
Qed.

Lemma randomInt_sampleOf (lo hi v : Z) :
  lo <= v <= hi -> randomInt (sampleOf lo hi v) lo hi = v.
Proof.
  intros Hv. assert (Hn := range_size_positive lo hi ltac:(lia)).
  unfold randomInt.
  assert (E : (sampleOf lo hi v * inject_Z (hi - lo + 1) == inject_Z (v - lo))%Q).
  { rewrite sampleOf_value, Qmult_comm. apply Qmult_div_r.
    intros H0. rewrite H0 in Hn. discriminate. }
  rewrite E, Qfloor_Z. lia.
Qed.

Lemma Set_add_fresh (x : Z) (s : list Z) : ~ In x s -> Set_add x s = s ++ [x].
Proof.
  induction s as [|y s IH]; simpl; intros Hx; [reflexivity|].
  destruct (Z.eqb_spec x y) as [->|_]; [exfalso; auto|].
  rewrite IH; auto.
Qed.

(** On the samples of distinct values that fill the set, the loop returns
    them in order and leaves the other samples. *)
Lemma fillSet_distinct (c lo hi : Z) (rest : list Q) (vs : list Z) :
  forall s,
    NoDup (s ++ vs) ->
    Forall (fun v => lo <= v <= hi) vs ->
    Z.of_nat (length (s ++ vs)) = c ->
    fillSet c lo hi s (map (sampleOf lo hi) vs ++ rest) = Some (s ++ vs, rest).
Proof.
  induction vs as [|v vs IH]; intros s Hnd Hin Hlen.
  - rewrite app_nil_r in *. cbn [map app].
    destruct rest; [rewrite fillSet_nil | rewrite fillSet_cons];
      destruct (Z.ltb_spec (Z.of_nat (length s)) c); (lia || reflexivity).
  - cbn [map app]. rewrite fillSet_cons.
    rewrite length_app in Hlen. simpl in Hlen.
    destruct (Z.ltb_spec (Z.of_nat (length s)) c); [|lia].
    inversion Hin as [|? ? Hv Hvs]; subst.
    rewrite randomInt_sampleOf by exact Hv.
    rewrite Set_add_fresh.
    + replace (s ++ v :: vs) with ((s ++ [v]) ++ vs) in * by now rewrite <- app_assoc.
      apply IH; [exact Hnd | exact Hvs |].
      rewrite !length_app. simpl. lia.
    + apply NoDup_remove_2 in Hnd. intros Hs. apply Hnd, in_or_app. now left.
Qed.

Lemma trial_on_samples (p : Payload) (mainSpec bonusSpec : RangeSpec)
  (i : Z) (st : LoopState) (main : list Z) (bonus : Z) (rest : list Q) :
  mainNumberRange p = Some mainSpec ->
  bonusNumberRange p = Some bonusSpec ->
  NoDup main -> Forall (inRange mainSpec) main ->
  Z.of_nat (length main) = count mainSpec ->
  inRange bonusSpec bonus ->
  trial p i st (trialSamples mainSpec bonusSpec main bonus ++ rest) =
  Some (inr (accumulate (iterations p) i (sort_by ascending main) bonus st), rest).
Proof.
  intros Hm Hb Hnd Hin Hlen Hbonus.
  unfold trial, heavyComputation, generateUniqueNumbers, bind, random, ret, trialSamples.
  simpl. rewrite Hm, <- app_assoc.
  rewrite (fillSet_distinct _ _ _ _ main []); [|exact Hnd | exact Hin | exact Hlen].
  simpl. rewrite Hb, randomInt_sampleOf by exact Hbonus. reflexivity.
Qed.

Lemma trialSamples_unit (mainSpec bonusSpec : RangeSpec) (main : list Z) (bonus : Z) :
  Forall (inRange mainSpec) main -> inRange bonusSpec bonus ->
  Forall unitSample (trialSamples mainSpec bonusSpec main bonus).
Proof.
  intros Hin Hbonus. unfold trialSamples. constructor.
  - split; [apply Qle_refl | reflexivity].
  - apply Forall_app. split.
    + apply Forall_forall. intros r Hr. apply in_map_iff in Hr as [v [<- Hv]].
      rewrite Forall_forall in Hin. apply sampleOf_unit, Hin, Hv.
    + constructor; [apply sampleOf_unit, Hbonus | constructor].
Qed.

Lemma loop_on_samples (p : Payload) (mainSpec bonusSpec : RangeSpec)
  (main : list Z) (bonus : Z) :
  mainNumberRange p = Some mainSpec ->
  bonusNumberRange p = Some bonusSpec ->
  NoDup main -> Forall (inRange mainSpec) main ->
  Z.of_nat (length main) = count mainSpec ->
  inRange bonusSpec bonus ->
  forall todo i st,
  exists st',
    loop p todo i st (concat (repeat (trialSamples mainSpec bonusSpec main bonus) todo)) =
    Some ((st', None), []).
Proof.
  intros Hm Hb Hnd Hin Hlen Hbonus. induction todo as [|todo IH]; intros i st.
  - exists st. reflexivity.
  - simpl repeat. rewrite concat_cons, loop_S.
    rewrite (trial_on_samples p mainSpec bonusSpec); try assumption.
    apply IH.
Qed.

Lemma StronglySorted_lt_NoDup (l : list Z) : StronglySorted Z.lt l -> NoDup l.
Proof.
  induction 1 as [|a l Hl IH Ha]; constructor; [|exact IH].
  intros Hin. rewrite Forall_forall in Ha. specialize (Ha a Hin). lia.
Qed.

Lemma upFrom_servable (s : RangeSpec) :
  servable s ->
  NoDup (upFrom (min s) (Z.to_nat (count s))) /\
  Forall (inRange s) (upFrom (min s) (Z.to_nat (count s))) /\
  Z.of_nat (length (upFrom (min s) (Z.to_nat (count s)))) = count s.
Proof.
  intros [H0 Hc]. repeat split.
  - apply StronglySorted_lt_NoDup, upFrom_sorted.
  - apply Forall_forall. intros x Hx. unfold upFrom in Hx.
    apply in_map_iff in Hx as [k [<- Hk]]. apply in_seq in Hk.
    unfold inRange. lia.
  - unfold upFrom. rewrite length_map, length_seq. lia.
Qed.

(** Every start with a servable main range and an inhabited bonus range has
    samples of [Math.random()] on which the run ends with its complete
    message, after the progress messages that are due. *)
Lemma servable_start_completes (p : Payload) (mainSpec bonusSpec : RangeSpec) :
  mainNumberRange p = Some mainSpec ->
  bonusNumberRange p = Some bonusSpec ->
  servable mainSpec -> inhabited bonusSpec ->
  exists rs st,
    Forall unitSample rs /\
    simulate p rs = Some ((st, None), []) /\
    runSimulation p rs =
      Some (expectedProgress (iterations p) ++
            [COMPLETE (lastn 50 (results st)) (rankStatistics (iterations p) st)]).
Proof.
  intros Hm Hb Hserv Hinh.
  destruct (upFrom_servable mainSpec Hserv) as (Hnd & Hin & Hlen).
  assert (Hbonus : inRange bonusSpec (min bonusSpec)) by (unfold inRange, inhabited in *; lia).
  destruct (loop_on_samples p mainSpec bonusSpec _ _ Hm Hb Hnd Hin Hlen Hbonus
              (Z.to_nat (iterations p)) 0 initialState) as [st Hrun].
  eexists. exists st. split; [|split; [exact Hrun|]].
  - apply Forall_concat, Forall_forall. intros l Hl. apply repeat_spec in Hl. subst l.
    now apply trialSamples_unit.
  - apply (runSimulation_completed p _ _ _ Hrun).
Qed.

(** ** The fallback ends, and its rounds are never used up *)

Lemma chunk_S (iterations : Z) (left : nat) (results : list Result.t)
  (processed : Z) (rs : list Q) :
  Fallback.chunk iterations (S left) results processed rs =
  if processed <? iterations then
    match Fallback.pickMain [] rs with
    | Some (picked, r :: rs') =>
        Fallback.chunk iterations left
          (results ++
             [ {| Result.id := processed + 1;
                  Result.mainNumbers := sort_by ascending picked;
                  Result.bonusNumber := Qfloor (r * 12) + 1;
                  Result.checksum :=
                    sum (sort_by ascending picked) * (Qfloor (r * 12) + 1) |} ])
          (processed + 1) rs'
    | _ => None
    end
  else Some ((results, processed), rs).
Proof.
  simpl. destruct (processed <? iterations); [|reflexivity].
  unfold bind, random.
  destruct (Fallback.pickMain [] rs) as [[picked [|r rs']]|]; reflexivity.
Qed.

Lemma chunk_advances (iterations : Z) (left : nat) :
  forall results processed rs results' processed' rs',
    Fallback.chunk iterations left results processed rs = Some ((results', processed'), rs') ->
    processed <= processed' /\
    (processed < iterations -> (0 < left)%nat -> processed < processed').
Proof.
  induction left as [|left IH]; intros results processed rs results' processed' rs'.
  - simpl. unfold ret. intros [= <- <- <-]. lia.
  - rewrite chunk_S. destruct (Z.ltb_spec processed iterations);
      [|intros [= <- <- <-]; lia].
    destruct (Fallback.pickMain [] rs) as [[picked [|r rs1]]|]; try discriminate.
    intros Hc. apply IH in Hc. lia.
Qed.

(** The number of rounds does not matter once it covers the trials left. *)
Lemma processChunk_rounds (iterations : Z) (timeouts : nat) :
  forall timeouts' results processed shown rs,
    (Z.to_nat (iterations - processed) <= timeouts)%nat ->
    (timeouts <= timeouts')%nat ->
    Fallback.processChunk iterations timeouts results processed shown rs =
    Fallback.processChunk iterations timeouts' results processed shown rs.
Proof.
  induction timeouts as [|timeouts IH]; intros timeouts' results processed shown rs Hleft Hle;
    rewrite !(processChunk_eq iterations _ results);
    destruct (Fallback.chunk iterations Fallback.chunkSize results processed rs)
      as [[[results' processed'] rs']|] eqn:Hchunk; try reflexivity;
    cbv zeta; destruct (Z.ltb_spec processed' iterations) as [Hlt|Hge]; try reflexivity;
    apply chunk_advances in Hchunk; unfold Fallback.chunkSize in Hchunk.
  - lia.
  - destruct timeouts' as [|timeouts']; [lia|]. apply IH; lia.
Qed.

Lemma pickMain_on_samples (rest : list Q) :
  Fallback.pickMain [] (fallbackTrial ++ rest) =
  Some ([1; 2; 3; 4; 5; 6], sampleOf 1 12 3 :: rest).
Proof. reflexivity. Qed.

Lemma chunk_on_samples (iterations : Z) (rest : list Q) (left : nat) :
  forall (k : nat) results processed,
    k = Nat.min left (Z.to_nat (iterations - processed)) ->
    exists results',
      Fallback.chunk iterations left results processed
        (concat (repeat fallbackTrial k) ++ rest) =
      Some ((results', processed + Z.of_nat k), rest).
Proof.
  induction left as [|left IH]; intros k results processed Hk.
  - simpl in Hk. subst k. exists results. simpl. unfold ret. now rewrite Z.add_0_r.
  - rewrite chunk_S. destruct (Z.ltb_spec processed iterations) as [Hlt|Hge].
    + destruct k as [|k]; [lia|].
      simpl repeat. rewrite concat_cons, <- app_assoc, pickMain_on_samples.
      destruct (IH k
                  (results ++
                     [ {| Result.id := processed + 1;
                          Result.mainNumbers := sort_by ascending [1; 2; 3; 4; 5; 6];
                          Result.bonusNumber := Qfloor (sampleOf 1 12 3 * 12) + 1;
                          Result.checksum :=
                            sum (sort_by ascending [1; 2; 3; 4; 5; 6]) *
                            (Qfloor (sampleOf 1 12 3 * 12) + 1) |} ])
                  (processed + 1)) as [results' Hr]; [lia|].
      exists results'. rewrite Hr. do 3 f_equal. lia.
    + replace k with 0%nat by lia. exists results. simpl. now rewrite Z.add_0_r.
Qed.

(** For every number of iterations there are samples on which the fallback
    resolves. *)
Lemma fallback_resolves (iterations : Z) :
  exists rs out,
    Forall unitSample rs /\ Fallback.runFallbackSimulation iterations rs = Some out.
Proof.
  exists (concat (repeat fallbackTrial (Z.to_nat iterations))).
  assert (Hgen : forall timeouts results processed shown,
             0 <= processed ->
             (Z.to_nat (iterations - processed) <= timeouts)%nat ->
             exists out,
               Fallback.processChunk iterations timeouts results processed shown
                 (concat (repeat fallbackTrial (Z.to_nat (iterations - processed)))) =
               Some out).
  { induction timeouts as [|timeouts IH]; intros results processed shown H0 Hleft;
      rewrite processChunk_eq;
      set (m := Z.to_nat (iterations - processed));
      set (k := Nat.min Fallback.chunkSize m);
      (replace m with (k + (m - k))%nat by lia);
      rewrite repeat_app, concat_app;
      destruct (chunk_on_samples iterations
                  (concat (repeat fallbackTrial (m - k))) Fallback.chunkSize
                  k results processed eq_refl) as [results' ->];
      cbv zeta;
      destruct (Z.ltb_spec (processed + Z.of_nat k) iterations) as [Hlt|Hge];
      try (eexists; reflexivity).
    - subst k m. lia.
    - replace (m - k)%nat with (Z.to_nat (iterations - (processed + Z.of_nat k)))
        by (subst k m; lia).
      apply IH; subst k m; unfold Fallback.chunkSize in *; lia. }
  destruct (Hgen (Z.to_nat iterations) [] 0 []) as [out Hout]; [lia | lia |].
  exists out. split.
  - apply Forall_concat, Forall_forall. intros l Hl. apply repeat_spec in Hl. subst l.
    unfold fallbackTrial. unit_samples.
  - unfold Fallback.runFallbackSimulation. rewrite Z.sub_0_r in Hout. exact Hout.
Qed.

(** * Further properties of the worker *)

(** ** The frequency tables count the draws *)

Lemma Map_get_set (k k' v : Z) (m : list (Z * Z)) :
  Map_get k (Map_set k' v m) = if k =? k' then Some v else Map_get k m.
Proof.
  induction m as [|[k0 v0] m IH]; simpl.
  - destruct (k =? k'); reflexivity.
  - destruct (Z.eqb_spec k' k0) as [->|Hne]; simpl.
    + destruct (Z.eqb_spec k k0); reflexivity.
    + rewrite IH. destruct (Z.eqb_spec k k0) as [->|]; [|reflexivity].
      destruct (Z.eqb_spec k0 k'); [congruence | reflexivity].
Qed.

Lemma increment_get (k n : Z) (m : list (Z * Z)) :
  JS.or0 (Map_get k (increment n m)) =
  JS.or0 (Map_get k m) + (if k =? n then 1 else 0).
Proof.
  unfold increment. rewrite Map_get_set.
  destruct (Z.eqb_spec k n) as [->|]; simpl; lia.
Qed.

Lemma tally_get (k : Z) (l : list Z) :
  forall m,
    NoDup l ->
    JS.or0 (Map_get k (fold_left (fun m n => increment n m) l m)) =
    JS.or0 (Map_get k m) + (if existsb (Z.eqb k) l then 1 else 0).
Proof.
  induction l as [|n l IH]; intros m Hnd; simpl fold_left.
  - simpl. lia.
  - inversion Hnd as [|? ? Hn Hl]; subst. rewrite IH by exact Hl.
    rewrite increment_get. simpl existsb.
    destruct (Z.eqb_spec k n) as [->|Hne]; simpl; [|lia].
    destruct (existsb (Z.eqb n) l) eqn:E; [|lia].
    exfalso. apply existsb_exists in E as [x [Hx Hxn]].
    apply Z.eqb_eq in Hxn. subst x. contradiction.
Qed.

Lemma sum_app (xs ys : list Z) : sum (xs ++ ys) = sum xs + sum ys.
Proof.
  unfold sum at 1. rewrite fold_left_app, sum_shift. reflexivity.
Qed.

Lemma filter_snoc {A} (f : A -> bool) (l : list A) (x : A) :
  filter f (l ++ [x]) = filter f l ++ (if f x then [x] else []).
Proof. rewrite filter_app. reflexivity. Qed.

Lemma table_entries_exact
  (p : Payload) (rs rs' : list Q) (st : LoopState) (k : Z) :
  simulate p rs = Some ((st, None), rs') ->
  JS.or0 (Map_get k (mainFrequency st)) =
    Z.of_nat (length (filter (fun d => existsb (Z.eqb k) (Result.mainNumbers d)) (results st))) /\
  JS.or0 (Map_get k (bonusFrequency st)) =
    Z.of_nat (length (filter (fun d => k =? Result.bonusNumber d) (results st))) /\
  totalSum st = sum (map (fun d => sum (Result.mainNumbers d)) (results st)).
Proof.
  intros Hrun.
  pose (P := fun (_ : Z) (s : LoopState) (_ : list Q) =>
    JS.or0 (Map_get k (mainFrequency s)) =
      Z.of_nat (length (filter (fun d => existsb (Z.eqb k) (Result.mainNumbers d)) (results s))) /\
    JS.or0 (Map_get k (bonusFrequency s)) =
      Z.of_nat (length (filter (fun d => k =? Result.bonusNumber d) (results s))) /\
    totalSum s = sum (map (fun d => sum (Result.mainNumbers d)) (results s))).
  enough (HP : P (0 + Z.of_nat (Z.to_nat (iterations p))) st rs') by exact HP.
  apply (loop_invariant p P) with (st := initialState) (rs := rs);
    [| now repeat split | exact Hrun].
  clear Hrun. intros i s l s' l' (Hmain & Hbonus & Hsum) Htrial.
  apply trial_completes in Htrial
    as (mr & br & r0 & rs1 & picked & r & _ & _ & -> & Hfill & ->).
  destruct (fillSet_returns _ _ _ _ _ _ _ Hfill) as [_ [Hnd _]].
  assert (Hsorted : NoDup (sort_by ascending picked)).
  { eapply Permutation_NoDup; [apply Permutation_sym, sort_by_perm|].
    apply Hnd. constructor. }
  unfold P, accumulate; cbn [mainFrequency bonusFrequency totalSum results].
  rewrite !filter_snoc, !length_app, map_app; cbn [Result.mainNumbers Result.bonusNumber].
  repeat split.
  - rewrite tally_get by exact Hsorted. rewrite Hmain.
    destruct (existsb _ _); simpl; lia.
  - rewrite increment_get, Hbonus.
    destruct (k =? _); simpl; lia.
  - rewrite sum_app, Hsum. cbn [map Result.mainNumbers]. rewrite sum_cons.
    change (sum []) with 0. lia.
Qed.

(** X1. In every run that completes, each key of the main frequency table
    holds the number of draws whose main numbers contain it, each key of the
    bonus frequency table the number of draws with that bonus number (an
    absent key counting as 0), and [totalSum] is the total of the main
    numbers of all draws. *)
Theorem frequencies_count_the_draws
  (p : Payload) (rs rs' : list Q) (st : LoopState) (k : Z) :
  simulate p rs = Some ((st, None), rs') ->
  JS.or0 (Map_get k (mainFrequency st)) =
    Z.of_nat (length (filter (fun d => existsb (Z.eqb k) (Result.mainNumbers d)) (results st))) /\
  JS.or0 (Map_get k (bonusFrequency st)) =
    Z.of_nat (length (filter (fun d => k =? Result.bonusNumber d) (results st))) /\
  totalSum st = sum (map (fun d => sum (Result.mainNumbers d)) (results st)).
Proof. apply table_entries_exact. Qed.

Lemma frequencies_count_the_draws_witness :
  exists st rs',
    simulate (SIMULATE 7) sevenTrials = Some ((st, None), rs') /\
    Map_get 7 (mainFrequency st) = Some 2 /\
    JS.or0 (Map_get 7 (mainFrequency st)) =
      Z.of_nat (length (filter (fun d => existsb (Z.eqb 7) (Result.mainNumbers d)) (results st))).
Proof.
  do 2 eexists. split; [vm_compute; reflexivity|]. split; [reflexivity|].
  apply (frequencies_count_the_draws (SIMULATE 7) sevenTrials []).
  vm_compute. reflexivity.
Defined.

(** ** The draws a run keeps *)

Lemma skipn_upFrom (k n : nat) (lo : Z) :
  skipn k (upFrom lo n) = upFrom (lo + Z.of_nat k) (n - k).
Proof.
  revert lo n. induction k as [|k IH]; intros lo n.
  - simpl. rewrite Z.add_0_r. f_equal. lia.
  - destruct n as [|n]; [reflexivity|].
    rewrite upFrom_cons. simpl skipn. rewrite IH. f_equal; lia.
Qed.

Lemma upFrom_length (lo : Z) (n : nat) : length (upFrom lo n) = n.
Proof. unfold upFrom. now rewrite length_map, length_seq. Qed.

Lemma lastn_ids (n : nat) (draws : list Result.t) (total : nat) :
  map Result.id draws = upFrom 1 total ->
  map Result.id (lastn n draws) = upFrom (Z.of_nat (total - n) + 1) (Nat.min n total).
Proof.
  intros Hids. unfold lastn. rewrite <- skipn_map, Hids.
  assert (Hlen : length draws = total).
  { rewrite <- (length_map Result.id), Hids. apply upFrom_length. }
  rewrite Hlen, skipn_upFrom. f_equal; lia.
Qed.

(** X2. The complete message of a run of N trials carries the last
    min(50, N) draws, in order: their ids are N - min(50, N) + 1, ..., N. *)
Theorem trailing_window_is_the_last_fifty
  (p : Payload) (rs rs' : list Q) (st : LoopState) :
  simulate p rs = Some ((st, None), rs') ->
  exists (progress : list Message) (draws : list Result.t) (s : Statistics),
    runSimulation p rs = Some (progress ++ [COMPLETE draws s]) /\
    draws = lastn 50 (results st) /\
    length draws = Nat.min 50 (Z.to_nat (iterations p)) /\
    map Result.id draws =
      upFrom (Z.of_nat (Z.to_nat (iterations p) - 50) + 1)
             (Nat.min 50 (Z.to_nat (iterations p))).
Proof.
  intros Hrun. pose proof (simulate_ids p rs rs' st Hrun) as Hids.
  exists (expectedProgress (iterations p)), (lastn 50 (results st)),
         (rankStatistics (iterations p) st).
  split; [apply (runSimulation_completed p rs rs' st Hrun)|].
  split; [reflexivity|].
  pose proof (lastn_ids 50 _ _ Hids) as Hlast.
  split; [|exact Hlast].
  rewrite <- (length_map Result.id), Hlast. apply upFrom_length.
Qed.

Lemma trailing_window_is_the_last_fifty_witness :
  exists st rs',
    simulate (SIMULATE 52) fiftyTwoTrials = Some ((st, None), rs') /\
    exists (progress : list Message) (draws : list Result.t) (s : Statistics),
      runSimulation (SIMULATE 52) fiftyTwoTrials = Some (progress ++ [COMPLETE draws s]) /\
      draws = lastn 50 (results st) /\
      length draws = 50%nat /\
      map Result.id draws = upFrom 3 50.
Proof.
  do 2 eexists. split; [vm_compute; reflexivity|].
  apply (trailing_window_is_the_last_fifty (SIMULATE 52) fiftyTwoTrials []).
  vm_compute. reflexivity.
Defined.

(** ** How many progress messages *)

Lemma multiples_up_to (d : Z) (k : nat) :
  1 <= d ->
  Z.of_nat (length (filter (fun c => c mod d =? 0) (upFrom 1 k))) = Z.of_nat k / d.
Proof.
  intros Hd. induction k as [|k IH].
  - simpl. now rewrite Z.div_0_l by lia.
  - rewrite upFrom_snoc, filter_snoc, length_app, Nat2Z.inj_add, IH.
    pose proof (Z.div_mod (Z.of_nat k) d ltac:(lia)) as Hk.
    pose proof (Z.mod_pos_bound (Z.of_nat k) d ltac:(lia)) as Hr.
    replace (Z.of_nat (S k)) with (1 + Z.of_nat k) by lia.
    destruct (Z.eqb_spec ((1 + Z.of_nat k) mod d) 0) as [E|E].
    + cbn [length Z.of_nat]. 
      assert (Hq : Z.of_nat k mod d = d - 1).
      { pose proof (Z.div_mod (1 + Z.of_nat k) d ltac:(lia)) as Hk1.
        rewrite E in Hk1.
        assert (H1 : d * ((1 + Z.of_nat k) / d - Z.of_nat k / d) = 1 + Z.of_nat k mod d) by lia.
        assert ((1 + Z.of_nat k) / d - Z.of_nat k / d = 1) by nia. nia. }
      apply Z.div_unique with (r := 0); lia.
    + cbn [length Z.of_nat]. 
      assert (Hq : Z.of_nat k mod d <> d - 1).
      { intros Hq. apply E.
        replace (1 + Z.of_nat k) with (0 + (Z.of_nat k / d + 1) * d) by lia.
        rewrite Z.mod_add by lia. apply Z.mod_0_l. lia. }
      apply Z.div_unique with (r := 1 + Z.of_nat k mod d); lia.
Qed.

(** X3. A run of N >= 1 trials that completes posts floor(N / ceil(N / 10))
    progress messages, which is never more than 10. *)
Theorem at_most_ten_progress_messages
  (p : Payload) (rs rs' : list Q) (st : LoopState) :
  1 <= iterations p ->
  simulate p rs = Some ((st, None), rs') ->
  Z.of_nat (length (posted st)) = iterations p / JS.ceilDiv10 (iterations p) /\
  Z.of_nat (length (posted st)) <= 10 /\
  Forall isProgress (posted st).
Proof.
  intros HN Hrun. pose proof (ceilDiv10_spec (iterations p)) as Hd.
  apply simulate_posted in Hrun as (k & _ & Hk & ->). rewrite (Hk eq_refl).
  unfold progressUpTo. rewrite !length_map.
  unfold due at 1 2. rewrite multiples_up_to by lia. rewrite Z2Nat.id by lia.
  split; [reflexivity|]. split.
  - apply Z.div_le_upper_bound; lia.
  - apply Forall_forall. intros m Hm. apply in_map_iff in Hm as [v [<- _]]. exact I.
Qed.

Lemma at_most_ten_progress_messages_witness :
  exists st rs',
    simulate (SIMULATE 25) twentyFiveTrials = Some ((st, None), rs') /\
    Z.of_nat (length (posted st)) = 8.
Proof.
  do 2 eexists. split; [vm_compute; reflexivity|].
  apply (at_most_ten_progress_messages (SIMULATE 25) twentyFiveTrials []).
  - simpl. lia.
  - vm_compute. reflexivity.
Defined.

Lemma percentOf_all (total : Z) : 1 <= total -> percentOf total total = JS.of_Z 100.
Proof.
  intros Ht. rewrite percentOf_eq by exact Ht.
  rewrite (double_comp _ 1) by (field; apply inject_Z_nonzero; lia).
  vm_compute. reflexivity.
Qed.

Lemma JS_lt_irrefl (x : JS.num) : ~ JS.lt x x.
Proof.
  destruct x as [|[|]|q]; simpl; auto. apply Qlt_irrefl.
Qed.

(** A count short of the run at which a progress message is due is short
    by at least one part in 128. *)
Lemma due_short (total c : Z) :
  1 <= total -> 1 <= c < total -> due total c = true -> 128 * c <= 127 * total.
Proof.
  intros Ht Hc Hdue. pose proof (ceilDiv10_spec total) as Hd.
  unfold due in Hdue. apply Z.eqb_eq in Hdue.
  apply Z.mod_divide in Hdue; [|lia]. destruct Hdue as [k Hk].
  destruct (Z.le_gt_cases total 128) as [Hs|Hl]; [lia|].
  assert (Hk9 : k <= 9) by nia. nia.
Qed.

(** The percentage of at most 127 parts in 128 stays below 100, also after
    rounding. *)
Lemma percentOf_below (total c : Z) :
  1 <= total -> 0 <= c -> 128 * c <= 127 * total ->
  JS.lt (percentOf total c) (JS.of_Z 100).
Proof.
  intros Ht Hc Hshort.
  destruct (percentOf_bracket total c 0 (127 # 128) 0 (127 # 128) 0 (3175 # 32) Ht)
    as (q & -> & Hq);
    [ split; [apply Qle_shift_div_l; [apply inject_Z_pos; lia|];
              rewrite Qmult_0_l; change (inject_Z 0 <= inject_Z c)%Q;
              now rewrite <- Zle_Qle
             | apply (ratio_le c total 127 128); lia ]
    | vm_compute; reflexivity | vm_compute; reflexivity
    | vm_compute; reflexivity | vm_compute; reflexivity | ].
  unfold JS.lt, JS.of_Z. apply Qle_lt_trans with (3175 # 32); [apply Hq | reflexivity].
Qed.

Lemma percentOf_100_inv (total c : Z) :
  1 <= total -> 1 <= c <= total -> due total c = true ->
  percentOf total c = JS.of_Z 100 -> c = total.
Proof.
  intros Ht Hc Hdue H100.
  destruct (Z.eq_dec c total) as [E|E]; [exact E|]. exfalso.
  pose proof (percentOf_below total c Ht ltac:(lia)
                (due_short total c Ht ltac:(lia) Hdue)) as Hlt.
  rewrite H100 in Hlt. now apply JS_lt_irrefl in Hlt.
Qed.

(** X4. A run of N >= 1 trials that completes posts the progress message of
    100 percent exactly when ceil(N / 10) divides N; otherwise every progress
    message it posts stays below 100 (a run of 25 trials ends at 96). *)
Theorem full_progress_only_on_whole_blocks
  (p : Payload) (rs rs' : list Q) (st : LoopState) :
  1 <= iterations p ->
  simulate p rs = Some ((st, None), rs') ->
  (In (PROGRESS (JS.of_Z 100)) (posted st) <->
   iterations p mod JS.ceilDiv10 (iterations p) = 0) /\
  (iterations p mod JS.ceilDiv10 (iterations p) <> 0 ->
   Forall (fun m => exists v, m = PROGRESS v /\ JS.lt v (JS.of_Z 100)) (posted st)).
Proof.
  intros HN Hrun.
  apply simulate_posted in Hrun as (k & _ & Hk & ->). rewrite (Hk eq_refl).
  assert (Hmem : forall c, In c (filter (due (iterations p)) (upFrom 1 (Z.to_nat (iterations p)))) <->
                           1 <= c <= iterations p /\ c mod JS.ceilDiv10 (iterations p) = 0).
  { intros c. rewrite filter_In. unfold due. rewrite Z.eqb_eq. unfold upFrom.
    rewrite in_map_iff. split.
    - intros [[j [<- Hj]] Hc]. apply in_seq in Hj. split; [lia | exact Hc].
    - intros [Hc Hm]. split; [|exact Hm].
      exists (Z.to_nat (c - 1)). split; [lia | apply in_seq; lia]. }
  split; [split|].
  - intros Hin. apply in_map_iff in Hin as [v [Hv Hin]]. injection Hv as ->.
    unfold progressUpTo in Hin. apply in_map_iff in Hin as [c [Hc Hin]].
    pose proof Hin as Hin'. apply Hmem in Hin' as [Hb Hm].
    apply percentOf_100_inv in Hc; [subst c; exact Hm | exact HN | exact Hb |].
    unfold due. now apply Z.eqb_eq.
  - intros Hdiv. apply in_map. unfold progressUpTo.
    rewrite <- (percentOf_all (iterations p) HN). apply in_map. apply Hmem. lia.
  - intros Hdiv. apply Forall_forall. intros m Hm.
    apply in_map_iff in Hm as [v [<- Hin]]. exists v. split; [reflexivity|].
    unfold progressUpTo in Hin. apply in_map_iff in Hin as [c [<- Hin]].
    apply Hmem in Hin as [Hc Hm].
    assert (c <> iterations p) by (intros ->; contradiction).
    apply percentOf_below; [exact HN | lia |].
    apply due_short; [exact HN | lia |]. unfold due. now apply Z.eqb_eq.
Qed.

Lemma full_progress_only_on_whole_blocks_witness :
  exists st rs',
    simulate (SIMULATE 25) twentyFiveTrials = Some ((st, None), rs') /\
    last (posted st) (ERROR (TypeError "")) = PROGRESS (JS.of_Z 96) /\
    Forall (fun m => exists v, m = PROGRESS v /\ JS.lt v (JS.of_Z 100)) (posted st).
Proof.
  do 2 eexists. split; [vm_compute; reflexivity|]. split; [reflexivity|].
  apply (full_progress_only_on_whole_blocks (SIMULATE 25) twentyFiveTrials []).
  - simpl. lia.
  - vm_compute. reflexivity.
  - vm_compute. discriminate.
Defined.

(** ** The scores are percentages *)

Lemma filter_length_le {A} (f : A -> bool) (l : list A) :
  (length (filter f l) <= length l)%nat.
Proof. induction l as [|x l IH]; simpl; [lia | destruct (f x); simpl; lia]. Qed.

Lemma round_of_percentage (x : Q) :
  (0 <= x)%Q -> (x <= 100)%Q ->
  exists z, JS.round (JS.Fin x) = JS.of_Z z /\ 0 <= z <= 100.
Proof.
  intros H0 H100. exists (Qfloor (x + (1 # 2))). split; [reflexivity|]. split.
  - change 0 with (Qfloor 0). apply Qfloor_resp_le.
    apply Qle_trans with x; [exact H0|].
    rewrite <- (Qplus_0_r x) at 1. apply Qplus_le_r. discriminate.
  - change 100 with (Qfloor (100 + (1 # 2))). apply Qfloor_resp_le.
    apply Qplus_le_l. exact H100.
Qed.

Lemma scaled_percentage (x c : Q) :
  (0 <= x)%Q -> (x <= 100)%Q -> (0 <= JS.literal c)%Q -> (JS.literal c <= 1)%Q ->
  exists y, JS.mul (JS.Fin x) c = JS.Fin y /\ (0 <= y)%Q /\ (y <= 100)%Q.
Proof.
  intros H0 H100 Hc0 Hc1. unfold JS.mul.
  destruct (double_bracket (x * JS.literal c) 0 100 0 100) as (y & Hy & Hb);
    [vm_compute; reflexivity | vm_compute; reflexivity | | now exists y].
  split; [now apply Qmult_le_0_compat|].
  apply Qle_trans with (x * 1)%Q.
  - rewrite !(Qmult_comm x). now apply Qmult_le_compat_r.
  - now rewrite Qmult_1_r.
Qed.

(** X5. In every run of N >= 1 trials that completes, the three frequency
    scores are integers between 0 and 100. *)
Theorem scores_between_0_and_100
  (p : Payload) (rs rs' : list Q) (st : LoopState) :
  1 <= iterations p ->
  simulate p rs = Some ((st, None), rs') ->
  exists c1 c2 c3 z1 z2 z3,
    optimizedCombinations (rankStatistics (iterations p) st) = Some [c1; c2; c3] /\
    Combination.frequencyScore c1 = JS.of_Z z1 /\ 0 <= z1 <= 100 /\
    Combination.frequencyScore c2 = JS.of_Z z2 /\ 0 <= z2 <= 100 /\
    Combination.frequencyScore c3 = JS.of_Z z3 /\ 0 <= z3 <= 100.
Proof.
  intros HN Hrun.
  destruct (score_frequency (iterations p) st) as (f & Hf & Hcombos).
  assert (Hbound : 0 <= f <= iterations p).
  { destruct Hf as [[_ ->] | (number & _ & ->)]; [lia|].
    destruct (table_entries_exact p rs rs' st number Hrun) as [-> _].
    split; [lia|].
    pose proof (filter_length_le
                  (fun d => existsb (Z.eqb number) (Result.mainNumbers d)) (results st)) as Hle.
    rewrite <- (length_map Result.id (results st)), (simulate_ids p rs rs' st Hrun),
      upFrom_length in Hle. lia. }
  destruct (percentOf_bracket (iterations p) f 0 1 0 1 0 100 HN) as (q & Hq & Hq0 & Hq100);
    [ split; [apply Qle_shift_div_l; [apply inject_Z_pos; lia|];
              rewrite Qmult_0_l; change (inject_Z 0 <= inject_Z f)%Q;
              rewrite <- Zle_Qle; lia
             | apply Qle_shift_div_r; [apply inject_Z_pos; lia|];
               rewrite Qmult_1_l, <- Zle_Qle; lia ]
    | vm_compute; reflexivity | vm_compute; reflexivity
    | vm_compute; reflexivity | vm_compute; reflexivity | ].
  rewrite Hq in Hcombos.
  destruct (round_of_percentage q Hq0 Hq100) as (z1 & Hz1 & Hb1).
  destruct (scaled_percentage q (85 # 100) Hq0 Hq100) as (y2 & Hy2 & Ha & Hb);
    [apply Qle_bool_iff; vm_compute; reflexivity
    |apply Qle_bool_iff; vm_compute; reflexivity|].
  destruct (round_of_percentage _ Ha Hb) as (z2 & Hz2 & Hb2).
  destruct (scaled_percentage q (70 # 100) Hq0 Hq100) as (y3 & Hy3 & Ha' & Hb');
    [apply Qle_bool_iff; vm_compute; reflexivity
    |apply Qle_bool_iff; vm_compute; reflexivity|].
  destruct (round_of_percentage _ Ha' Hb') as (z3 & Hz3 & Hb3).
  rewrite Hy2, Hy3 in Hcombos.
  do 3 eexists. exists z1, z2, z3. split; [exact Hcombos|].
  cbn [Combination.frequencyScore]. repeat split; (assumption || lia).
Qed.

Lemma scores_between_0_and_100_witness :
  exists st rs',
    simulate (SIMULATE 7) sevenTrials = Some ((st, None), rs') /\
    exists c1 c2 c3 z1 z2 z3,
      optimizedCombinations (rankStatistics 7 st) = Some [c1; c2; c3] /\
      Combination.frequencyScore c1 = JS.of_Z z1 /\ 0 <= z1 <= 100 /\
      Combination.frequencyScore c2 = JS.of_Z z2 /\ 0 <= z2 <= 100 /\
      Combination.frequencyScore c3 = JS.of_Z z3 /\ 0 <= z3 <= 100.
Proof.
  do 2 eexists. split; [vm_compute; reflexivity|].
  apply (scores_between_0_and_100 (SIMULATE 7) sevenTrials []).
  - simpl. lia.
  - vm_compute. reflexivity.
Defined.

(** ** A range left out *)

(** X6. When the start leaves out a range and asks for at least one trial,
    a run that ends posts the error message and nothing else: no progress, no
    draws, no statistics. *)
Theorem missing_range_posts_only_the_error
  (p : Payload) (rs : list Q) (msgs : list Message) :
  mainNumberRange p = None \/ bonusNumberRange p = None ->
  1 <= iterations p ->
  runSimulation p rs = Some msgs ->
  exists e, msgs = [ERROR e] /\ statisticsOf msgs = None.
Proof.
  intros Hmissing HN. unfold runSimulation, simulate.
  destruct (Z.to_nat (iterations p)) as [|todo] eqn:E; [lia|].
  rewrite loop_S.
  destruct (trial p 0 initialState rs) as [[[e|st1] rs1]|] eqn:Htrial; [| |discriminate].
  - intros [= <-]. exists e. split; reflexivity.
  - apply trial_completes in Htrial as (mr & br & _ & _ & _ & _ & Hm & Hb & _).
    destruct Hmissing; congruence.
Qed.

Lemma missing_range_posts_only_the_error_witness :
  exists e,
    [ERROR (TypeError "count")] = [ERROR e] /\
    statisticsOf [ERROR (TypeError "count")] = None.
Proof.
  apply (missing_range_posts_only_the_error
           {| iterations := 5; mainNumberRange := None; bonusNumberRange := Some SECTION_B |}
           [1 # 2]%Q).
  - left. reflexivity.
  - simpl. lia.
  - reflexivity.
Defined.

(** ** The most frequent numbers *)

Lemma sorted_head_is_greatest (m : list (Z * Z)) (top : Z) (k : Z) :
  counted m ->
  nth_error (map fst (sort_by byCountDesc m)) 0 = Some top ->
  JS.or0 (Map_get k m) <= JS.or0 (Map_get top m) /\ 1 <= JS.or0 (Map_get top m).
Proof.
  intros [Hnd Hpos] Htop.
  pose proof (sort_byCountDesc_sorted m) as Hsorted.
  assert (Hmem : forall e, In e (sort_by byCountDesc m) <-> In e m) by (intros; apply sort_by_In).
  destruct (sort_by byCountDesc m) as [|[t c] rest]; [discriminate|].
  simpl in Htop. injection Htop as ->.
  assert (Hget : Map_get top m = Some c).
  { apply In_Map_get; [exact Hnd|]. apply Hmem. now left. }
  assert (Hc : 1 <= c).
  { rewrite Forall_forall in Hpos. apply (Hpos (top, c)). apply Hmem. now left. }
  rewrite Hget. simpl. split; [|exact Hc].
  destruct (Map_get k m) as [v|] eqn:Hk; simpl; [|lia].
  apply Map_get_In, Hmem in Hk. destruct Hk as [E|Hrest]; [injection E as _ <-; lia|].
  inversion Hsorted as [|? ? _ Hall]; subst.
  rewrite Forall_forall in Hall. apply (Hall (k, v) Hrest).
Qed.

(** X7. In every run of N >= 1 trials over servable ranges that completes,
    every number of mostFrequentMain lies within the main range, and
    mostFrequentBonus lies within the bonus range and is a bonus number drawn
    at least as often as every other one. *)
Theorem most_frequent_numbers_in_range
  (p : Payload) (mainSpec bonusSpec : RangeSpec) (rs rs' : list Q) (st : LoopState) :
  mainNumberRange p = Some mainSpec ->
  bonusNumberRange p = Some bonusSpec ->
  servable mainSpec -> inhabited bonusSpec ->
  Forall unitSample rs ->
  1 <= iterations p ->
  simulate p rs = Some ((st, None), rs') ->
  Forall (inRange mainSpec) (mostFrequentMain (rankStatistics (iterations p) st)) /\
  exists top,
    mostFrequentBonus (rankStatistics (iterations p) st) = Some top /\
    inRange bonusSpec top /\
    1 <= JS.or0 (Map_get top (bonusFrequency st)) /\
    forall k, JS.or0 (Map_get k (bonusFrequency st)) <=
              JS.or0 (Map_get top (bonusFrequency st)).
Proof.
  intros Hm Hb Hserv Hinh Hrs HN Hrun.
  destruct (final_tables p rs rs' st Hrun) as (Hmain & Hbonus & Hne & _ & Hrange).
  pose proof (results_well_formed p mainSpec bonusSpec rs rs' st Hm Hb Hserv Hinh Hrs Hrun)
    as Hwf.
  split.
  - apply Forall_forall. intros number Hin.
    destruct (top_six_recorded _ _ _ Hin) as [f Hf].
    assert (Hpos : 1 <= f).
    { destruct Hmain as [_ Hpos]. rewrite Forall_forall in Hpos.
      apply (Hpos (number, f)). now apply Map_get_In. }
    destruct (table_entries_exact p rs rs' st number Hrun) as [Hcount _].
    rewrite Hf in Hcount. simpl in Hcount.
    destruct (filter (fun d => existsb (Z.eqb number) (Result.mainNumbers d)) (results st))
      as [|d ds] eqn:E; [simpl in Hcount; lia|].
    assert (Hd : In d (filter (fun d => existsb (Z.eqb number) (Result.mainNumbers d))
                          (results st))) by (rewrite E; now left).
    apply filter_In in Hd as [Hd Hex].
    apply existsb_exists in Hex as [x [Hx Hxe]]. apply Z.eqb_eq in Hxe. subst x.
    rewrite Forall_forall in Hwf. destruct (Hwf d Hd) as (_ & Hin' & _).
    rewrite Forall_forall in Hin'. now apply Hin'.
  - destruct (sorted_table_head _ (Hne HN)) as (top & Htop & Hkey).
    exists top. split; [exact Htop|]. split.
    + specialize (Hrange Hrs bonusSpec Hb Hinh). rewrite Forall_forall in Hrange. auto.
    + split; [|intros k]; now apply (sorted_head_is_greatest _ top).
Qed.

Lemma most_frequent_numbers_in_range_witness :
  exists st rs',
    simulate (SIMULATE 7) sevenTrials = Some ((st, None), rs') /\
    Forall (inRange SECTION_A) (mostFrequentMain (rankStatistics 7 st)) /\
    exists top,
      mostFrequentBonus (rankStatistics 7 st) = Some top /\
      inRange SECTION_B top /\
      1 <= JS.or0 (Map_get top (bonusFrequency st)) /\
      forall k, JS.or0 (Map_get k (bonusFrequency st)) <=
                JS.or0 (Map_get top (bonusFrequency st)).
Proof.
  do 2 eexists. split; [vm_compute; reflexivity|].
  apply (most_frequent_numbers_in_range (SIMULATE 7) SECTION_A SECTION_B sevenTrials []).
  - reflexivity.
  - reflexivity.
  - unfold servable; simpl. lia.
  - unfold inhabited; simpl. lia.
  - unit_samples.
  - simpl. lia.
  - vm_compute. reflexivity.
Defined.

(** ** The average of the sums *)

Lemma sorted_sum_lower (l : list Z) :
  StronglySorted Z.lt l ->
  forall lo, Forall (fun x => lo <= x) l ->
    2 * Z.of_nat (length l) * lo + Z.of_nat (length l) * (Z.of_nat (length l) - 1)
    <= 2 * sum l.
Proof.
  induction 1 as [|a l Hs IH Ha]; intros lo Hlo.
  - simpl. change (sum []) with 0. lia.
  - inversion Hlo as [|? ? Hlo_a Hlo_l]; subst.
    assert (Hl : Forall (fun x => lo + 1 <= x) l).
    { rewrite Forall_forall in *. intros x Hx. specialize (Ha x Hx). lia. }
    specialize (IH (lo + 1) Hl). rewrite sum_cons.
    cbn [length]. rewrite Nat2Z.inj_succ. nia.
Qed.

Lemma sorted_head_upper (l : list Z) :
  forall a hi,
    StronglySorted Z.lt (a :: l) -> Forall (fun x => x <= hi) (a :: l) ->
    a <= hi - Z.of_nat (length l).
Proof.
  induction l as [|b l IH]; intros a hi Hs Hhi.
  - inversion Hhi; subst. simpl. lia.
  - inversion Hs as [|? ? Hs' Hab]; subst. inversion Hhi as [|? ? _ Hhi']; subst.
    specialize (IH b hi Hs' Hhi'). inversion Hab; subst.
    cbn [length]. rewrite Nat2Z.inj_succ. lia.
Qed.

Lemma sorted_sum_upper (l : list Z) (hi : Z) :
  StronglySorted Z.lt l -> Forall (fun x => x <= hi) l ->
  2 * sum l <=
  2 * Z.of_nat (length l) * hi - Z.of_nat (length l) * (Z.of_nat (length l) - 1).
Proof.
  induction 1 as [|a l Hs IH Ha]; intros Hhi.
  - simpl. change (sum []) with 0. lia.
  - pose proof (sorted_head_upper l a hi (SSorted_cons a Hs Ha) Hhi) as Hhead.
    inversion Hhi as [|? ? _ Hhi']; subst. specialize (IH Hhi').
    rewrite sum_cons. cbn [length]. rewrite Nat2Z.inj_succ. nia.
Qed.

(** The least and the greatest sum of [count] distinct numbers of a range. *)
Lemma draw_sum_bounds (mainSpec bonusSpec : RangeSpec) (d : Result.t) :
  wellFormedDraw mainSpec bonusSpec d ->
  count mainSpec * min mainSpec + count mainSpec * (count mainSpec - 1) / 2
  <= sum (Result.mainNumbers d)
  <= count mainSpec * max mainSpec - count mainSpec * (count mainSpec - 1) / 2.
Proof.
  intros (_ & Hin & Hs & Hlen & _).
  assert (Hlo : Forall (fun x => min mainSpec <= x) (Result.mainNumbers d)).
  { eapply Forall_impl; [|exact Hin]. unfold inRange. intros; lia. }
  assert (Hhi : Forall (fun x => x <= max mainSpec) (Result.mainNumbers d)).
  { eapply Forall_impl; [|exact Hin]. unfold inRange. intros; lia. }
  pose proof (sorted_sum_lower _ Hs _ Hlo) as H1.
  pose proof (sorted_sum_upper _ _ Hs Hhi) as H2.
  rewrite Hlen in H1, H2.
  pose proof (Z.div_mod (count mainSpec * (count mainSpec - 1)) 2 ltac:(lia)) as Hdiv.
  pose proof (Z.mod_pos_bound (count mainSpec * (count mainSpec - 1)) 2 ltac:(lia)) as Hmod.
  lia.
Qed.

Lemma sums_between (f : Result.t -> Z) (L U : Z) (draws : list Result.t) :
  Forall (fun d => L <= f d <= U) draws ->
  Z.of_nat (length draws) * L <= sum (map f draws) <= Z.of_nat (length draws) * U.
Proof.
  induction 1 as [|d draws Hd _ IH].
  - simpl. change (sum []) with 0. lia.
  - cbn [map length]. rewrite sum_cons, Nat2Z.inj_succ. nia.
Qed.

Lemma Qfloor_half (z : Z) : Qfloor (inject_Z z + (1 # 2)) = z.
Proof.
  unfold Qfloor, Qplus, inject_Z. simpl.
  symmetry. apply Z.div_unique with (r := 1); lia.
Qed.

Lemma round_between (x : Q) (L U : Z) :
  (inject_Z L <= x)%Q -> (x <= inject_Z U)%Q ->
  exists z, JS.round (JS.Fin x) = JS.of_Z z /\ L <= z <= U.
Proof.
  intros HL HU. exists (Qfloor (x + (1 # 2))). split; [reflexivity|]. split.
  - rewrite <- (Qfloor_Z L). apply Qfloor_resp_le.
    apply Qle_trans with x; [exact HL|].
    rewrite <- (Qplus_0_r x) at 1. apply Qplus_le_r. discriminate.
  - rewrite <- (Qfloor_half U). apply Qfloor_resp_le. apply Qplus_le_l. exact HU.
Qed.

(** The rounded mean of a total that lies between [n * L] and [n * U], two
    integers that doubles hold. *)
Lemma rounded_mean_between (total n L U : Z) :
  1 <= n -> n * L <= total <= n * U ->
  - 2 ^ 53 <= L -> U <= 2 ^ 53 ->
  exists z, JS.round (JS.div total n) = JS.of_Z z /\ L <= z <= U.
Proof.
  intros Hn Htotal HL HU. unfold JS.div.
  destruct (Z.eqb_spec n 0) as [E|_]; [lia|].
  assert (Hpos : (0 < inject_Z n)%Q) by (apply inject_Z_pos; lia).
  destruct (double_bracket (inject_Z total / inject_Z n) (inject_Z L) (inject_Z U)
              (inject_Z L) (inject_Z U)) as (q & -> & Hq).
  - apply double_Z. nia.
  - apply double_Z. nia.
  - split.
    + apply Qle_shift_div_l; [exact Hpos|].
      rewrite <- inject_Z_mult, <- Zle_Qle. lia.
    + apply Qle_shift_div_r; [exact Hpos|].
      rewrite <- inject_Z_mult, <- Zle_Qle. lia.
  - apply round_between; apply Hq.
Qed.

(** X8. In every run of N >= 1 trials that completes, over servable ranges
    whose count * min and count * max are within the integers that doubles
    hold (-2^53 .. 2^53), averageSum is an integer between the least and the
    greatest sum of count distinct numbers of the main range:
    count * min + count * (count - 1) / 2 and
    count * max - count * (count - 1) / 2 (21 and 171 for 6 of 1..31). *)
Theorem average_sum_between_extreme_draws
  (p : Payload) (mainSpec bonusSpec : RangeSpec) (rs rs' : list Q) (st : LoopState) :
  mainNumberRange p = Some mainSpec ->
  bonusNumberRange p = Some bonusSpec ->
  servable mainSpec -> inhabited bonusSpec ->
  - 2 ^ 53 <= count mainSpec * min mainSpec ->
  count mainSpec * max mainSpec <= 2 ^ 53 ->
  Forall unitSample rs ->
  1 <= iterations p ->
  simulate p rs = Some ((st, None), rs') ->
  exists z,
    averageSum (rankStatistics (iterations p) st) = JS.of_Z z /\
    count mainSpec * min mainSpec + count mainSpec * (count mainSpec - 1) / 2 <= z /\
    z <= count mainSpec * max mainSpec - count mainSpec * (count mainSpec - 1) / 2.
Proof.
  intros Hm Hb Hserv Hinh Hsafe Hsafe' Hrs HN Hrun.
  pose proof (results_well_formed p mainSpec bonusSpec rs rs' st Hm Hb Hserv Hinh Hrs Hrun)
    as Hwf.
  destruct (table_entries_exact p rs rs' st 0 Hrun) as (_ & _ & Htotal).
  assert (Hlen : Z.of_nat (length (results st)) = iterations p).
  { rewrite <- (length_map Result.id), (simulate_ids p rs rs' st Hrun), upFrom_length. lia. }
  assert (Hsums := sums_between (fun d => sum (Result.mainNumbers d)) _ _ (results st)
                     (Forall_impl _ (draw_sum_bounds mainSpec bonusSpec) Hwf)).
  rewrite Hlen, <- Htotal in Hsums.
  assert (Hhalf : 0 <= count mainSpec * (count mainSpec - 1) / 2).
  { apply Z.div_pos; [|lia]. destruct Hserv as [Hc _]. nia. }
  destruct (rounded_mean_between _ _ _ _ HN Hsums) as (z & Hz & Hb'); [lia | lia |].
  exists z. split; [exact Hz | lia].
Qed.

Lemma average_sum_between_extreme_draws_witness :
  exists st rs',
    simulate (SIMULATE 7) sevenTrials = Some ((st, None), rs') /\
    exists z, averageSum (rankStatistics 7 st) = JS.of_Z z /\ 21 <= z /\ z <= 171.
Proof.
  do 2 eexists. split; [vm_compute; reflexivity|].
  apply (average_sum_between_extreme_draws (SIMULATE 7) SECTION_A SECTION_B sevenTrials []).
  - reflexivity.
  - reflexivity.
  - unfold servable; simpl. lia.
  - unfold inhabited; simpl. lia.
  - simpl. lia.
  - simpl. lia.
  - unit_samples.
  - simpl. lia.
  - vm_compute. reflexivity.
Defined.

(** * Further properties of the fallback *)

Lemma Set_add_includes (x : Z) (s : list Z) :
  Set_add x s = if existsb (Z.eqb x) s then s else s ++ [x].
Proof.
  induction s as [|y s IH]; simpl; [reflexivity|].
  destruct (Z.eqb_spec x y) as [->|Hne]; simpl; [reflexivity|].
  rewrite IH. destruct (existsb (Z.eqb x) s); reflexivity.
Qed.

(** The sampling loop of the fallback is the loop of the worker for 6 of
    1..31. *)
Lemma pickMain_fillSet (rs : list Q) :
  forall s, Fallback.pickMain s rs = fillSet 6 1 31 s rs.
Proof.
  induction rs as [|r rs IH]; intros s.
  - rewrite fillSet_nil. simpl.
    destruct (Nat.ltb_spec (length s) 6), (Z.ltb_spec (Z.of_nat (length s)) 6);
      (reflexivity || lia).
  - rewrite fillSet_cons. simpl.
    destruct (Nat.ltb_spec (length s) 6), (Z.ltb_spec (Z.of_nat (length s)) 6);
      try reflexivity; try lia.
    rewrite IH. f_equal. symmetry. apply (Set_add_includes (randomInt r 1 31)).
Qed.

Lemma SECTION_A_servable : servable SECTION_A.
Proof. unfold servable; simpl. lia. Qed.

Lemma bonus_of_twelve (r : Q) : unitSample r -> inRange SECTION_B (Qfloor (r * 12) + 1).
Proof. intros Hr. apply (randomInt_inRange r 1 12 Hr). lia. Qed.

(** What a chunk does: it draws well-formed trials with the next ids, as many
    as fit in the chunk and are left to do. *)
Lemma chunk_draws (iterations : Z) (left : nat) :
  forall results processed rs results' processed' rs',
    Fallback.chunk iterations left results processed rs = Some ((results', processed'), rs') ->
    Forall unitSample rs ->
    Forall (wellFormedDraw SECTION_A SECTION_B) results ->
    0 <= processed ->
    map Result.id results = upFrom 1 (Z.to_nat processed) ->
    Forall unitSample rs' /\
    Forall (wellFormedDraw SECTION_A SECTION_B) results' /\
    map Result.id results' = upFrom 1 (Z.to_nat processed') /\
    processed' = Z.min (processed + Z.of_nat left) (Z.max processed iterations).
Proof.
  induction left as [|left IH]; intros results processed rs results' processed' rs'.
  - simpl. unfold ret. intros [= <- <- <-] Hrs Hwf H0 Hids. repeat split; (assumption || lia).
  - rewrite chunk_S. destruct (Z.ltb_spec processed iterations) as [Hlt|Hge].
    + rewrite pickMain_fillSet.
      destruct (fillSet 6 1 31 [] rs) as [[picked [|r rs1]]|] eqn:Hfill; try discriminate.
      intros Hchunk Hrs Hwf H0 Hids.
      destruct (picked_well_formed SECTION_A _ _ _ SECTION_A_servable Hrs Hfill)
        as (Hnd & Hin & Hlen & Hrest).
      inversion Hrest as [|? ? Hr Hrs1]; subst.
      apply IH in Hchunk; [| exact Hrs1 | | lia |].
      * destruct Hchunk as (H1 & H2 & H3 & H4). repeat split; (assumption || lia).
      * apply Forall_app. split; [exact Hwf|]. constructor; [|constructor].
        unfold wellFormedDraw;
          cbn [Result.mainNumbers Result.bonusNumber Result.checksum].
        split; [|split; [|split; [|split; [|split]]]].
        -- eapply Permutation_NoDup; [apply Permutation_sym, sort_by_perm | exact Hnd].
        -- apply sort_by_Forall, Hin.
        -- apply sort_ascending_lt, Hnd.
        -- now rewrite sort_by_length.
        -- apply bonus_of_twelve, Hr.
        -- reflexivity.
      * rewrite map_app, Hids. simpl.
        replace (Z.to_nat (processed + 1)) with (S (Z.to_nat processed)) by lia.
        rewrite upFrom_snoc. do 2 f_equal. lia.
    + intros [= <- <- <-] Hrs Hwf H0 Hids. repeat split; (assumption || lia).
Qed.

Lemma ceilDiv10_step (x : Z) : JS.ceilDiv10 (x + 10) = JS.ceilDiv10 x + 1.
Proof.
  unfold JS.ceilDiv10. replace (- (x + 10)) with (- x + (-1) * 10) by lia.
  rewrite Z.div_add by lia. lia.
Qed.

Lemma ceilDiv10_small (x : Z) : 1 <= x <= 10 -> JS.ceilDiv10 x = 1.
Proof. intros Hx. pose proof (ceilDiv10_spec x). lia. Qed.

Lemma fold_sum_map {A} (f : A -> Z) (l : list A) :
  fold_left (fun acc r => acc + f r) l 0 = sum (map f l).
Proof.
  unfold sum. generalize 0. induction l as [|x l IH]; intros a; simpl; [reflexivity|].
  apply IH.
Qed.

Lemma last_default {A} (x : A) (l : list A) (d d' : A) :
  last (x :: l) d = last (x :: l) d'.
Proof.
  revert x. induction l as [|y l IH]; intros x; [reflexivity|].
  change (last (y :: l) d = last (y :: l) d'). apply IH.
Qed.

(** Everything the fallback shows when it resolves with work left to do. *)
Lemma processChunk_shows (iterations : Z) (timeouts : nat) :
  forall results processed shown rs out,
    Fallback.processChunk iterations timeouts results processed shown rs = Some out ->
    Forall unitSample rs ->
    Forall (wellFormedDraw SECTION_A SECTION_B) results ->
    0 <= processed < iterations ->
    map Result.id results = upFrom 1 (Z.to_nat processed) ->
    exists drawn ends,
      Fallback.results out = lastn 50 drawn /\
      Forall (wellFormedDraw SECTION_A SECTION_B) drawn /\
      map Result.id drawn = upFrom 1 (Z.to_nat iterations) /\
      averageSum (Fallback.statistics out) =
        JS.round (JS.div (sum (map (fun d => sum (Result.mainNumbers d)) drawn)) iterations) /\
      Fallback.progress out = shown ++ map (percentOf iterations) ends /\
      StronglySorted Z.lt ends /\
      Forall (fun c => processed < c <= iterations) ends /\
      last ends processed = iterations /\
      Z.of_nat (length ends) = JS.ceilDiv10 (iterations - processed).
Proof.
  induction timeouts as [|timeouts IH]; intros results processed shown rs out;
    rewrite processChunk_eq;
    destruct (Fallback.chunk iterations Fallback.chunkSize results processed rs)
      as [[[results' processed'] rs']|] eqn:Hchunk; try discriminate;
    cbv zeta; destruct (Z.ltb_spec processed' iterations) as [Hlt|Hge];
    try discriminate; intros Hout Hrs Hwf H0 Hids;
    destruct (chunk_draws _ _ _ _ _ _ _ _ Hchunk Hrs Hwf ltac:(lia) Hids)
      as (Hrs' & Hwf' & Hids' & Hp);
    unfold Fallback.chunkSize in Hp.
  1, 3: injection Hout as <-; exists results', [processed'];
    cbn [Fallback.results Fallback.statistics Fallback.progress averageSum];
    assert (processed' = iterations) by lia;
    assert (iterations - processed <= 10) by lia; clear Hp; subst processed';
    (split; [reflexivity|]); (split; [exact Hwf'|]); (split; [exact Hids'|]);
    (split; [f_equal; f_equal; apply fold_sum_map|]);
    (split; [reflexivity|]);
    (split; [apply SSorted_cons; [apply SSorted_nil | apply Forall_nil]|]);
    (split; [apply Forall_cons; [lia | apply Forall_nil]|]); (split; [reflexivity|]);
    cbn [length]; rewrite ceilDiv10_small; lia.
  apply IH in Hout; [| exact Hrs' | exact Hwf' | lia | exact Hids'].
  destruct Hout as (drawn & ends & Hres & Hd & Hidsd & Havg & Hprog & Hsorted & Hall & Hlast & Hlen).
  exists drawn, (processed' :: ends).
  split; [exact Hres|]. split; [exact Hd|]. split; [exact Hidsd|]. split; [exact Havg|].
  split; [rewrite Hprog, <- app_assoc; reflexivity|].
  split; [constructor; [exact Hsorted|]; eapply Forall_impl; [|exact Hall]; simpl; lia|].
  split; [constructor; [lia|]; eapply Forall_impl; [|exact Hall]; simpl; lia|].
  split.
  - destruct ends as [|c ends];
      [simpl in Hlen; pose proof (ceilDiv10_spec (iterations - processed')); lia|].
    rewrite <- Hlast. change (last (processed' :: c :: ends) processed)
      with (last (c :: ends) processed). apply last_default.
  - cbn [length]. rewrite Nat2Z.inj_succ, Hlen.
    replace (iterations - processed) with (iterations - processed' + 10) by lia.
    rewrite ceilDiv10_step. lia.
Qed.

(** X9. With samples in [0, 1), the draws of a fallback of N >= 1 trials are
    the trials 1..N in order, each with 6 distinct main numbers of 1..31 in
    ascending order, a bonus number of 1..12 and the checksum of the worker;
    the fallback shows the last 50 of them. *)
Theorem fallback_draws_well_formed
  (iterations : Z) (rs : list Q) (out : Fallback.Outcome) :
  1 <= iterations ->
  Forall unitSample rs ->
  Fallback.runFallbackSimulation iterations rs = Some out ->
  exists drawn,
    Fallback.results out = lastn 50 drawn /\
    map Result.id drawn = upFrom 1 (Z.to_nat iterations) /\
    Forall (wellFormedDraw SECTION_A SECTION_B) drawn.
Proof.
  intros HN Hrs Hrun. unfold Fallback.runFallbackSimulation in Hrun.
  apply processChunk_shows in Hrun;
    [| exact Hrs | constructor | lia | reflexivity].
  destruct Hrun as (drawn & ends & Hres & Hwf & Hids & _).
  exists drawn. repeat split; assumption.
Qed.

Lemma fallback_draws_well_formed_witness :
  exists out,
    Fallback.runFallbackSimulation 12 twelveMixedFallbackTrials = Some out /\
    exists drawn,
      Fallback.results out = lastn 50 drawn /\
      map Result.id drawn = upFrom 1 12 /\
      Forall (wellFormedDraw SECTION_A SECTION_B) drawn.
Proof.
  eexists. split; [vm_compute; reflexivity|].
  apply (fallback_draws_well_formed 12 twelveMixedFallbackTrials).
  - lia.
  - unit_samples.
  - vm_compute. reflexivity.
Defined.

Lemma last_map_cons {A B} (f : A -> B) (x : A) (l : list A) (d : B) (d' : A) :
  last (map f (x :: l)) d = f (last (x :: l) d').
Proof.
  revert x. induction l as [|y l IH]; intros x; [reflexivity|].
  change (last (map f (y :: l)) d = f (last (y :: l) d')). apply IH.
Qed.

(** A chunk processes as many trials as fit in it and are left to do. *)
Lemma chunk_span (iterations : Z) (left : nat) :
  forall results processed rs results' processed' rs',
    Fallback.chunk iterations left results processed rs = Some ((results', processed'), rs') ->
    processed' = Z.min (processed + Z.of_nat left) (Z.max processed iterations).
Proof.
  induction left as [|left IH]; intros results processed rs results' processed' rs'.
  - simpl. unfold ret. intros [= <- <- <-]. lia.
  - rewrite chunk_S. destruct (Z.ltb_spec processed iterations);
      [|intros [= <- <- <-]; lia].
    destruct (Fallback.pickMain [] rs) as [[picked [|r rs1]]|]; try discriminate.
    intros Hc. apply IH in Hc. lia.
Qed.

(** The counts of processed trials after the chunks of a fallback, whose
    percentages it shows. *)
Lemma fallback_progress_ends
  (iterations : Z) (rs : list Q) (out : Fallback.Outcome) :
  1 <= iterations ->
  Fallback.runFallbackSimulation iterations rs = Some out ->
  exists ends,
    Fallback.progress out = map (percentOf iterations) ends /\
    StronglySorted Z.lt ends /\
    Forall (fun c => 0 < c <= iterations) ends /\
    last ends 0 = iterations /\
    Z.of_nat (length ends) = JS.ceilDiv10 (iterations - 0).
Proof.
  intros HN Hrun. unfold Fallback.runFallbackSimulation in Hrun.
  revert Hrun. generalize (Z.to_nat iterations) at 1. intros timeouts Hrun.
  assert (Hgen : forall timeouts results processed shown rs out,
             Fallback.processChunk iterations timeouts results processed shown rs = Some out ->
             0 <= processed < iterations ->
             exists ends,
               Fallback.progress out = shown ++ map (percentOf iterations) ends /\
               StronglySorted Z.lt ends /\
               Forall (fun c => processed < c <= iterations) ends /\
               last ends processed = iterations /\
               Z.of_nat (length ends) = JS.ceilDiv10 (iterations - processed)).
  { clear. induction timeouts as [|timeouts IH]; intros results processed shown rs out;
      rewrite processChunk_eq;
      destruct (Fallback.chunk iterations Fallback.chunkSize results processed rs)
        as [[[results' processed'] rs']|] eqn:Hchunk; try discriminate;
      cbv zeta; destruct (Z.ltb_spec processed' iterations) as [Hlt|Hge];
      try discriminate; intros Hout H0;
      pose proof (chunk_advances _ _ _ _ _ _ _ _ Hchunk) as [Hmono Hadv];
      pose proof (chunk_span _ _ _ _ _ _ _ _ Hchunk) as Hp;
      unfold Fallback.chunkSize in Hp, Hadv.
    1, 3: injection Hout as <-; exists [processed'];
      cbn [Fallback.progress];
      assert (processed' = iterations) by lia;
      assert (iterations - processed <= 10) by lia; clear Hp; subst processed';
      (split; [reflexivity|]);
      (split; [apply SSorted_cons; [apply SSorted_nil | apply Forall_nil]|]);
      (split; [apply Forall_cons; [lia | apply Forall_nil]|]); (split; [reflexivity|]);
      cbn [length]; rewrite ceilDiv10_small; lia.
    apply IH in Hout; [|lia].
    destruct Hout as (ends & Hprog & Hsorted & Hall & Hlast & Hlen).
    exists (processed' :: ends).
    split; [rewrite Hprog, <- app_assoc; reflexivity|].
    split; [constructor; [exact Hsorted|]; eapply Forall_impl; [|exact Hall]; simpl; lia|].
    split; [constructor; [lia|]; eapply Forall_impl; [|exact Hall]; simpl; lia|].
    split.
    - destruct ends as [|c ends];
        [simpl in Hlen; pose proof (ceilDiv10_spec (iterations - processed')); lia|].
      rewrite <- Hlast. change (last (processed' :: c :: ends) processed)
        with (last (c :: ends) processed). apply last_default.
    - cbn [length]. rewrite Nat2Z.inj_succ, Hlen.
      replace (iterations - processed) with (iterations - processed' + 10) by lia.
      rewrite ceilDiv10_step. lia. }
  apply (Hgen timeouts [] 0 [] rs out Hrun). lia.
Qed.

(** The last progress a fallback shows is 100. *)
Lemma fallback_progress_last
  (iterations : Z) (rs : list Q) (out : Fallback.Outcome) :
  1 <= iterations ->
  Fallback.runFallbackSimulation iterations rs = Some out ->
  last (Fallback.progress out) JS.NaN = JS.of_Z 100.
Proof.
  intros HN Hrun.
  destruct (fallback_progress_ends iterations rs out HN Hrun)
    as (ends & Hprog & Hsorted & Hall & Hlast & Hlen).
  rewrite Z.sub_0_r in Hlen. rewrite Hprog.
  destruct ends as [|c ends];
    [simpl in Hlen; pose proof (ceilDiv10_spec iterations); lia|].
  rewrite (last_map_cons (percentOf iterations) c ends JS.NaN 0), Hlast.
  now apply percentOf_all.
Qed.

(** X10. A fallback of N trials, 1 <= N <= 2^47, sets the progress
    ceil(N / 10) times, once per chunk, to strictly increasing percentages
    within (0, 100], the last of which is 100. *)
Theorem fallback_progress_per_chunk
  (iterations : Z) (rs : list Q) (out : Fallback.Outcome) :
  1 <= iterations <= 2 ^ 47 ->
  Fallback.runFallbackSimulation iterations rs = Some out ->
  Z.of_nat (length (Fallback.progress out)) = JS.ceilDiv10 iterations /\
  StronglySorted JS.lt (Fallback.progress out) /\
  Forall isPercentage (Fallback.progress out) /\
  last (Fallback.progress out) JS.NaN = JS.of_Z 100.
Proof.
  intros [HN Hsafe] Hrun.
  split; [|split; [|split; [|now apply (fallback_progress_last iterations rs)]]];
    destruct (fallback_progress_ends iterations rs out HN Hrun)
      as (ends & Hprog & Hsorted & Hall & Hlast & Hlen);
    rewrite Z.sub_0_r in Hlen; rewrite Hprog.
  - now rewrite length_map.
  - apply map_sorted
      with (R := fun a b => a < b /\ (0 < a <= iterations) /\ (0 < b <= iterations)).
    + intros a b (Hab & Ha & Hb). apply (percentOf_apart 48); lia.
    + now apply sorted_among.
  - apply Forall_forall. intros v Hv. apply in_map_iff in Hv as [c [<- Hc]].
    rewrite Forall_forall in Hall. specialize (Hall c Hc). split.
    + apply percentOf_positive; lia.
    + destruct (percentOf_bracket iterations c 0 1 0 1 0 100 HN) as (q & -> & Hq);
        [ split; [apply Qle_shift_div_l; [apply inject_Z_pos; lia|];
                  rewrite Qmult_0_l; change (inject_Z 0 <= inject_Z c)%Q;
                  rewrite <- Zle_Qle; lia
                 | apply Qle_shift_div_r; [apply inject_Z_pos; lia|];
                   rewrite Qmult_1_l, <- Zle_Qle; lia ]
        | vm_compute; reflexivity | vm_compute; reflexivity
        | vm_compute; reflexivity | vm_compute; reflexivity | ].
      apply Hq.
Qed.

Lemma fallback_progress_per_chunk_witness :
  exists out,
    Fallback.runFallbackSimulation 12 twelveFallbackTrials = Some out /\
    Fallback.progress out =
      [JS.Fin (2932031007402667 # 35184372088832); JS.of_Z 100] /\
    Z.of_nat (length (Fallback.progress out)) = 2 /\
    StronglySorted JS.lt (Fallback.progress out) /\
    Forall isPercentage (Fallback.progress out) /\
    last (Fallback.progress out) JS.NaN = JS.of_Z 100.
Proof.
  eexists. split; [vm_compute; reflexivity|]. split; [vm_compute; reflexivity|].
  apply (fallback_progress_per_chunk 12 twelveFallbackTrials).
  - split; [lia | vm_compute; discriminate].
  - vm_compute. reflexivity.
Defined.

(** X11. With samples in [0, 1), the averageSum of a fallback of N >= 1
    trials is an integer between 21 and 171, the least and the greatest sum
    of 6 distinct numbers of 1..31. *)
Theorem fallback_average_between_21_and_171
  (iterations : Z) (rs : list Q) (out : Fallback.Outcome) :
  1 <= iterations ->
  Forall unitSample rs ->
  Fallback.runFallbackSimulation iterations rs = Some out ->
  exists z, averageSum (Fallback.statistics out) = JS.of_Z z /\ 21 <= z <= 171.
Proof.
  intros HN Hrs Hrun. unfold Fallback.runFallbackSimulation in Hrun.
  apply processChunk_shows in Hrun;
    [| exact Hrs | constructor | lia | reflexivity].
  destruct Hrun as (drawn & ends & _ & Hwf & Hids & Havg & _).
  assert (Hlen : Z.of_nat (length drawn) = iterations).
  { rewrite <- (length_map Result.id), Hids, upFrom_length. lia. }
  assert (Hsums := sums_between (fun d => sum (Result.mainNumbers d)) _ _ drawn
                     (Forall_impl _ (draw_sum_bounds SECTION_A SECTION_B) Hwf)).
  rewrite Hlen in Hsums. rewrite Havg.
  apply rounded_mean_between; [exact HN | exact Hsums | vm_compute; discriminate | vm_compute; discriminate].
Qed.

Lemma fallback_average_between_21_and_171_witness :
  exists out,
    Fallback.runFallbackSimulation 12 twelveMixedFallbackTrials = Some out /\
    exists z, averageSum (Fallback.statistics out) = JS.of_Z z /\ 21 <= z <= 171.
Proof.
  eexists. split; [vm_compute; reflexivity|].
  apply (fallback_average_between_21_and_171 12 twelveMixedFallbackTrials).
  - lia.
  - unit_samples.
  - vm_compute. reflexivity.
Defined.

(** * The engine component *)

Lemma deliver_app (xs ys : list Message) (e : Engine.t) :
  Engine.deliver (xs ++ ys) e = Engine.deliver ys (Engine.deliver xs e).
Proof. apply fold_left_app. Qed.

(** Progress messages change the progress shown and nothing else. *)
Lemma deliver_progress (vs : list JS.num) (e : Engine.t) :
  Engine.deliver (map PROGRESS vs) e =
  {| Engine.state := Engine.state e;
     Engine.progress := last (map Engine.progressOr0 vs) (Engine.progress e);
     Engine.results := Engine.results e;
     Engine.statistics := Engine.statistics e;
     Engine.error := Engine.error e;
     Engine.workerRef := Engine.workerRef e |}.
Proof.
  revert e. induction vs as [|v vs IH]; intros e.
  - destruct e; reflexivity.
  - cbn [map]. unfold Engine.deliver in *. cbn [fold_left]. rewrite IH.
    cbn [Engine.onmessage Engine.state Engine.progress Engine.results
         Engine.statistics Engine.error Engine.workerRef].
    f_equal. destruct vs as [|v' vs]; [reflexivity|].
    apply (last_default (Engine.progressOr0 v') (map Engine.progressOr0 vs)).
Qed.

(** With both ranges in the start message, the worker throws nothing. *)
Lemma both_ranges_no_exception (p : Payload) (mainSpec bonusSpec : RangeSpec) (todo : nat) :
  mainNumberRange p = Some mainSpec ->
  bonusNumberRange p = Some bonusSpec ->
  forall i st rs st' e rs',
    loop p todo i st rs = Some ((st', e), rs') -> e = None.
Proof.
  intros Hm Hb. induction todo as [|todo IH]; intros i st rs st' e rs'.
  - rewrite loop_O. now intros [= _ <- _].
  - rewrite loop_S.
    destruct (trial p i st rs) as [[[x|st1] rs1]|] eqn:Htrial; try discriminate.
    + apply trial_throws in Htrial. destruct Htrial; congruence.
    + apply IH.
Qed.

(** X12. Started on a run of the worker that ends, the component leaves the
    processing state: after the complete message it is in the success state
    with the statistics and the draws of that message and no error; after
    the error message it is in the error state with the error, no statistics
    and no draws.  Either way it has let go of the worker. *)
Theorem engine_follows_the_worker
  (p : Payload) (rs : list Q) (msgs : list Message) (e : Engine.t) :
  runSimulation p rs = Some msgs ->
  Engine.workerRef (Engine.deliver msgs (Engine.startSimulation true e)) = false /\
  match last msgs (PROGRESS JS.NaN) with
  | COMPLETE draws s =>
      Engine.state (Engine.deliver msgs (Engine.startSimulation true e)) =
        SimulationState.success /\
      Engine.statistics (Engine.deliver msgs (Engine.startSimulation true e)) = Some s /\
      Engine.results (Engine.deliver msgs (Engine.startSimulation true e)) = draws /\
      Engine.error (Engine.deliver msgs (Engine.startSimulation true e)) = None
  | ERROR x =>
      Engine.state (Engine.deliver msgs (Engine.startSimulation true e)) =
        SimulationState.error /\
      Engine.statistics (Engine.deliver msgs (Engine.startSimulation true e)) = None /\
      Engine.results (Engine.deliver msgs (Engine.startSimulation true e)) = [] /\
      Engine.error (Engine.deliver msgs (Engine.startSimulation true e)) = Some x
  | PROGRESS _ => False
  end.
Proof.
  intros Hrun. apply run_protocol in Hrun as (vs & terminal & -> & _ & Hterminal).
  rewrite last_last, deliver_app, deliver_progress.
  destruct terminal as [v|draws s|x]; [contradiction| |]; repeat split.
Qed.

Lemma engine_follows_the_worker_witness :
  Engine.state
    (Engine.deliver
       [ERROR (TypeError "max")]
       (Engine.startSimulation true Engine.initial)) = SimulationState.error.
Proof.
  apply (engine_follows_the_worker
           {| iterations := 3; mainNumberRange := Some SECTION_A; bonusNumberRange := None |}
           (defaultTrial [1; 2; 3; 4; 5; 6] 1) [ERROR (TypeError "max")] Engine.initial).
  reflexivity.
Defined.

(** X13. The start message of the component carries both ranges, so its
    worker never answers with an error: whatever the number of iterations,
    a run that ends leaves the component in the success state with
    statistics, even when no trial ran. *)
Theorem engine_start_always_succeeds
  (n : Z) (rs : list Q) (msgs : list Message) (e : Engine.t) :
  runSimulation (SIMULATE n) rs = Some msgs ->
  Forall (fun m => match m with ERROR _ => False | _ => True end) msgs /\
  Engine.state (Engine.deliver msgs (Engine.startSimulation true e)) =
    SimulationState.success /\
  Engine.statistics (Engine.deliver msgs (Engine.startSimulation true e)) =
    statisticsOf msgs /\
  statisticsOf msgs <> None.
Proof.
  unfold runSimulation.
  destruct (simulate (SIMULATE n) rs) as [[[st x] rs']|] eqn:Hrun; [|discriminate].
  assert (x = None).
  { unfold simulate in Hrun.
    now apply (both_ranges_no_exception (SIMULATE n) SECTION_A SECTION_B) in Hrun. }
  subst x. apply simulate_posted in Hrun as (k & _ & _ & ->). intros [= <-].
  unfold statisticsOf. rewrite last_last, deliver_app, deliver_progress.
  split; [|repeat split; discriminate].
  apply Forall_app. split; [|repeat constructor].
  apply Forall_forall. intros m Hm. apply in_map_iff in Hm as [v [<- _]]. exact I.
Qed.

Lemma engine_start_always_succeeds_witness :
  exists msgs,
    runSimulation (SIMULATE 0) [] = Some msgs /\
    Engine.state (Engine.deliver msgs (Engine.startSimulation true Engine.initial)) =
      SimulationState.success.
Proof.
  eexists. split; [vm_compute; reflexivity|].
  apply (engine_start_always_succeeds 0 []). reflexivity.
Defined.

(** X14. When the worker fails and the fallback of N >= 1 trials resolves,
    the component is in the success state with the progress at 100, the
    placeholder statistics of the fallback and no ranked combinations. *)
Theorem engine_after_the_fallback
  (iterations : Z) (rs : list Q) (out : Fallback.Outcome) (e : Engine.t) :
  1 <= iterations ->
  Fallback.runFallbackSimulation iterations rs = Some out ->
  Engine.state (Engine.onerror out e) = SimulationState.success /\
  Engine.progress (Engine.onerror out e) = JS.of_Z 100 /\
  (exists s,
      Engine.statistics (Engine.onerror out e) = Some s /\
      totalSimulations s = iterations /\
      mostFrequentMain s = [3; 7; 12; 18; 24; 29] /\
      mostFrequentBonus s = Some 6 /\
      optimizedCombinations s = None) /\
  Engine.workerRef (Engine.onerror out e) = false.
Proof.
  intros HN Hrun. split; [reflexivity|]. split; [|split; [|reflexivity]].
  - cbn [Engine.onerror Engine.progress].
    pose proof (fallback_progress_last iterations rs out HN Hrun) as Hlast.
    destruct (Fallback.progress out) as [|v vs]; [discriminate Hlast|].
    rewrite <- Hlast. apply last_default.
  - unfold Fallback.runFallbackSimulation in Hrun.
    apply processChunk_outcome in Hrun; [|reflexivity].
    destruct Hrun as (drawn & _ & _ & Hstats).
    eexists. cbn [Engine.onerror Engine.statistics]. split; [reflexivity|].
    rewrite Hstats. repeat split.
Qed.

Lemma engine_after_the_fallback_witness :
  exists out,
    Fallback.runFallbackSimulation 12 twelveFallbackTrials = Some out /\
    (Engine.state (Engine.onerror out Engine.initial) = SimulationState.success /\
     Engine.progress (Engine.onerror out Engine.initial) = JS.of_Z 100 /\
     (exists s,
         Engine.statistics (Engine.onerror out Engine.initial) = Some s /\
         totalSimulations s = 12 /\
         mostFrequentMain s = [3; 7; 12; 18; 24; 29] /\
         mostFrequentBonus s = Some 6 /\
         optimizedCombinations s = None) /\
     Engine.workerRef (Engine.onerror out Engine.initial) = false).
Proof.
  eexists. split; [vm_compute; reflexivity|].
  apply (engine_after_the_fallback 12 twelveFallbackTrials).
  - lia.
  - vm_compute. reflexivity.
Defined.

(** * The math utilities *)

(** ** [generateRandomNumbers] *)

Lemma fillSet_full (c lo hi : Z) (s : list Z) (rs : list Q) :
  c <= Z.of_nat (length s) -> fillSet c lo hi s rs = Some (s, rs).
Proof.
  intros Hc. destruct rs as [|r rs]; [rewrite fillSet_nil | rewrite fillSet_cons];
    destruct (Z.ltb_spec (Z.of_nat (length s)) c); (lia || reflexivity).
Qed.

Lemma generateRandomNumbers_returns (count lo hi : Z) (rs rs' : list Q)
  (outcome : String.string + list Z) :
  count <= hi - lo + 1 ->
  Forall unitSample rs ->
  MathUtils.generateRandomNumbers count lo hi rs = Some (outcome, rs') ->
  Forall unitSample rs' /\
  exists numbers,
    outcome = inr numbers /\
    StronglySorted Z.lt numbers /\
    Forall (fun n => lo <= n <= hi) numbers /\
    Z.of_nat (length numbers) = Z.max 0 count.
Proof.
  unfold MathUtils.generateRandomNumbers. intros Hc Hrs.
  destruct (Z.gtb_spec count (hi - lo + 1)); [lia|].
  unfold bind, ret.
  destruct (fillSet count lo hi [] rs) as [[picked rest]|] eqn:Hfill; [|discriminate].
  intros [= <- <-].
  destruct (fillSet_returns _ _ _ _ _ _ _ Hfill) as [[used [-> Hall]] [Hnd Hlen]].
  apply used_samples in Hrs as [Hused Hrest]. split; [exact Hrest|].
  exists (sort_by ascending picked).
  split; [reflexivity|]. split; [apply sort_ascending_lt, Hnd; constructor|].
  rewrite sort_by_length.
  destruct (Z.le_gt_cases count 0) as [Hneg|Hpos].
  - assert (picked = []).
    { rewrite fillSet_full in Hfill by (simpl; lia). now injection Hfill as <-. }
    subst picked. split; [constructor | simpl; lia].
  - split; [|rewrite Hlen by (simpl; lia); lia].
    apply sort_by_Forall. apply Hall; [constructor|].
    eapply Forall_impl; [|exact Hused]. intros r Hr.
    apply randomInt_inRange; [exact Hr | lia].
Qed.

(** X15. [generateRandomNumbers] throws on every request for more unique
    numbers than the range holds, at once and without taking a sample; on
    every other request with samples in [0, 1) it returns, if it returns,
    max(count, 0) distinct numbers of the range in ascending order. *)
Theorem generateRandomNumbers_guarded (count lo hi : Z) (rs : list Q) :
  (hi - lo + 1 < count ->
   MathUtils.generateRandomNumbers count lo hi rs =
   Some (inl "Cannot generate more unique numbers than available in range", rs)) /\
  (count <= hi - lo + 1 ->
   Forall unitSample rs ->
   forall outcome rs',
     MathUtils.generateRandomNumbers count lo hi rs = Some (outcome, rs') ->
     exists numbers,
       outcome = inr numbers /\
       StronglySorted Z.lt numbers /\
       Forall (fun n => lo <= n <= hi) numbers /\
       Z.of_nat (length numbers) = Z.max 0 count).
Proof.
  split.
  - intros Hc. unfold MathUtils.generateRandomNumbers.
    destruct (Z.gtb_spec count (hi - lo + 1)); [reflexivity | lia].
  - intros Hc Hrs outcome rs' Hrun.
    now destruct (generateRandomNumbers_returns _ _ _ _ _ _ Hc Hrs Hrun).
Qed.

Lemma generateRandomNumbers_guarded_witness :
  MathUtils.generateRandomNumbers 6 1 5 [] =
    Some (inl "Cannot generate more unique numbers than available in range", []) /\
  exists numbers,
    @inr String.string _ [2; 4; 7] = inr numbers /\
    StronglySorted Z.lt numbers /\
    Forall (fun n => 1 <= n <= 10) numbers /\
    Z.of_nat (length numbers) = Z.max 0 3.
Proof.
  split.
  - apply (generateRandomNumbers_guarded 6 1 5 []). lia.
  - apply (generateRandomNumbers_guarded 3 1 10
             (map (sampleOf 1 10) [4; 2; 4; 7]) ) with (rs' := []).
    + lia.
    + unit_samples.
    + reflexivity.
Defined.

(** * The selection of the page *)

(** X16. With samples in [0, 1), a quick pick that returns never throws: it
    hands over 6 distinct main numbers of 1..31 in ascending order and a
    bonus number of 1..12, a selection that [isComplete] accepts. *)
Theorem quick_pick_is_complete
  (rs rs' : list Q) (outcome : String.string + (list Z * option Z)) :
  Forall unitSample rs ->
  Page.handleQuickPick rs = Some (outcome, rs') ->
  exists mainNumbers bonusNumber,
    outcome = inr (mainNumbers, Some bonusNumber) /\
    StronglySorted Z.lt mainNumbers /\
    Forall (inRange SECTION_A) mainNumbers /\
    inRange SECTION_B bonusNumber /\
    Page.isComplete mainNumbers (Some bonusNumber) = true.
Proof.
  intros Hrs. unfold Page.handleQuickPick, bind.
  destruct (MathUtils.generateRandomNumbers 6 1 31 rs) as [[main rs1]|] eqn:Hmain;
    [|discriminate].
  destruct (generateRandomNumbers_returns 6 1 31 _ _ _ ltac:(lia) Hrs Hmain)
    as (Hrs1 & mainNumbers & -> & Hsorted & Hin & Hlen).
  destruct (MathUtils.generateRandomNumbers 1 1 12 rs1) as [[bonus rs2]|] eqn:Hbonus;
    [|discriminate].
  destruct (generateRandomNumbers_returns 1 1 12 _ _ _ ltac:(lia) Hrs1 Hbonus)
    as (_ & bonusNumbers & -> & _ & Hinb & Hlenb).
  unfold ret. intros [= <- <-].
  destruct bonusNumbers as [|b [|b' bs]]; try (simpl in Hlenb; lia).
  exists mainNumbers, b. split; [reflexivity|]. split; [exact Hsorted|].
  split; [exact Hin|]. split; [now inversion Hinb|].
  unfold Page.isComplete. rewrite andb_true_r. apply Nat.eqb_eq. lia.
Qed.

Lemma quick_pick_is_complete_witness :
  exists mainNumbers bonusNumber,
    @inr String.string _ ([3; 8; 11; 19; 24; 30], Some 7) =
      inr (mainNumbers, Some bonusNumber) /\
    StronglySorted Z.lt mainNumbers /\
    Forall (inRange SECTION_A) mainNumbers /\
    inRange SECTION_B bonusNumber /\
    Page.isComplete mainNumbers (Some bonusNumber) = true.
Proof.
  apply (quick_pick_is_complete
           (map (sampleOf 1 31) [19; 3; 30; 3; 8; 24; 11] ++ [sampleOf 1 12 7]) []).
  - unit_samples.
  - reflexivity.
Defined.

Lemma includes_In (num : Z) (l : list Z) : existsb (Z.eqb num) l = true <-> In num l.
Proof.
  rewrite existsb_exists. split.
  - intros [x [Hx Hnx]]. apply Z.eqb_eq in Hnx. now subst.
  - intros H. exists num. split; [exact H | apply Z.eqb_refl].
Qed.

Lemma without_In (num x : Z) (l : list Z) :
  In x (filter (fun n => negb (n =? num)%Z) l) <-> In x l /\ x <> num.
Proof.
  rewrite filter_In. rewrite negb_true_iff, Z.eqb_neq. reflexivity.
Qed.

(** Two strictly ascending lists with the same members are the same list. *)
Lemma ascending_unique (l1 : list Z) :
  forall l2,
    StronglySorted Z.lt l1 -> StronglySorted Z.lt l2 ->
    (forall x, In x l1 <-> In x l2) -> l1 = l2.
Proof.
  induction l1 as [|a l1 IH]; intros l2 H1 H2 Hsame.
  - destruct l2 as [|b l2]; [reflexivity|].
    exfalso. apply (Hsame b). now left.
  - destruct l2 as [|b l2]; [exfalso; apply (Hsame a); now left|].
    inversion H1 as [|? ? H1' Ha]; subst. inversion H2 as [|? ? H2' Hb]; subst.
    rewrite Forall_forall in Ha, Hb.
    assert (a = b).
    { destruct (proj1 (Hsame a) (or_introl eq_refl)) as [E|Hin]; [now symmetry|].
      destruct (proj2 (Hsame b) (or_introl eq_refl)) as [E|Hin']; [exact E|].
      specialize (Ha b Hin'). specialize (Hb a Hin). lia. }
    subst b. f_equal. apply IH; [exact H1' | exact H2'|].
    intros x. split; intros Hx.
    + destruct (proj1 (Hsame x) (or_intror Hx)) as [E|Hin]; [|exact Hin].
      specialize (Ha x Hx). lia.
    + destruct (proj2 (Hsame x) (or_intror Hx)) as [E|Hin]; [|exact Hin].
      specialize (Hb x Hx). lia.
Qed.

Lemma toggle_members (num x : Z) (prev : list Z) :
  In x (Page.handleMainNumberToggle num prev) <->
  if existsb (Z.eqb num) prev then In x prev /\ x <> num
  else if (6 <=? length prev)%nat then In x prev
  else In x prev \/ x = num.
Proof.
  unfold Page.handleMainNumberToggle.
  destruct (existsb (Z.eqb num) prev); [apply without_In|].
  destruct (6 <=? length prev)%nat; [reflexivity|].
  rewrite sort_by_In, in_app_iff. simpl. intuition.
Qed.

Lemma toggle_ascending (num : Z) (prev : list Z) :
  StronglySorted Z.lt prev ->
  StronglySorted Z.lt (Page.handleMainNumberToggle num prev).
Proof.
  intros Hs. unfold Page.handleMainNumberToggle.
  destruct (existsb (Z.eqb num) prev) eqn:E; [now apply filter_sorted|].
  destruct (6 <=? length prev)%nat; [exact Hs|].
  apply sort_ascending_lt. apply NoDup_app; [|repeat constructor; auto|].
  - now apply StronglySorted_lt_NoDup.
  - intros x Hx [<-|[]]. apply includes_In in Hx. congruence.
Qed.

(** X17. [handleMainNumberToggle] keeps the selection a strictly ascending
    list of at most 6 numbers: it removes the number when it is selected,
    adds it in its place when it is not and fewer than 6 are selected, and
    changes nothing otherwise. *)
Theorem toggle_keeps_the_selection_valid (num : Z) (prev : list Z) :
  StronglySorted Z.lt prev ->
  (length prev <= 6)%nat ->
  StronglySorted Z.lt (Page.handleMainNumberToggle num prev) /\
  (length (Page.handleMainNumberToggle num prev) <= 6)%nat /\
  (In num prev ->
   forall x, In x (Page.handleMainNumberToggle num prev) <-> In x prev /\ x <> num) /\
  (~ In num prev -> (length prev < 6)%nat ->
   forall x, In x (Page.handleMainNumberToggle num prev) <-> In x prev \/ x = num) /\
  (~ In num prev -> length prev = 6%nat ->
   Page.handleMainNumberToggle num prev = prev).
Proof.
  intros Hs Hlen. split; [now apply toggle_ascending|]. split; [|split; [|split]].
  - unfold Page.handleMainNumberToggle.
    destruct (existsb (Z.eqb num) prev).
    + pose proof (filter_length_le (fun n => negb (n =? num)%Z) prev). lia.
    + destruct (Nat.leb_spec 6 (length prev)); [lia|].
      rewrite sort_by_length, length_app. simpl. lia.
  - intros Hin x. rewrite toggle_members.
    apply includes_In in Hin. now rewrite Hin.
  - intros Hnot Hlt x. rewrite toggle_members.
    destruct (existsb (Z.eqb num) prev) eqn:E; [apply includes_In in E; contradiction|].
    destruct (Nat.leb_spec 6 (length prev)); [lia | reflexivity].
  - intros Hnot Hfull. unfold Page.handleMainNumberToggle.
    destruct (existsb (Z.eqb num) prev) eqn:E; [apply includes_In in E; contradiction|].
    destruct (Nat.leb_spec 6 (length prev)); [reflexivity | lia].
Qed.

Lemma toggle_keeps_the_selection_valid_witness :
  StronglySorted Z.lt (Page.handleMainNumberToggle 9 [3; 7; 12; 18]) /\
  Page.handleMainNumberToggle 9 [3; 7; 12; 18] = [3; 7; 9; 12; 18].
Proof.
  split; [|reflexivity].
  apply (toggle_keeps_the_selection_valid 9 [3; 7; 12; 18]).
  - repeat constructor.
  - simpl. lia.
Defined.

Lemma filter_shorter_when_member (num : Z) (prev : list Z) :
  In num prev ->
  (length (filter (fun n => negb (n =? num)%Z) prev) < length prev)%nat.
Proof.
  induction prev as [|a prev IH]; simpl; [contradiction|].
  intros [->|Hin].
  - rewrite Z.eqb_refl. simpl.
    pose proof (filter_length_le (fun n => negb (n =? num)%Z) prev). lia.
  - specialize (IH Hin). destruct (negb (a =? num)); simpl; lia.
Qed.

(** X18. Toggling a number twice gives the selection back, whenever the
    first toggle could change it: the number was selected, or fewer than 6
    numbers were. *)
Theorem toggle_twice_restores (num : Z) (prev : list Z) :
  StronglySorted Z.lt prev ->
  (length prev <= 6)%nat ->
  In num prev \/ (length prev < 6)%nat ->
  Page.handleMainNumberToggle num (Page.handleMainNumberToggle num prev) = prev.
Proof.
  intros Hs Hlen Hcan.
  apply ascending_unique; [now apply toggle_ascending, toggle_ascending | exact Hs|].
  intros x. rewrite toggle_members.
  destruct (existsb (Z.eqb num) prev) eqn:E.
  - (* removed, then added again *)
    assert (Hin : In num prev) by now apply includes_In.
    assert (Hfirst : Page.handleMainNumberToggle num prev =
                     filter (fun n => negb (n =? num)%Z) prev).
    { unfold Page.handleMainNumberToggle. now rewrite E. }
    rewrite Hfirst.
    destruct (existsb (Z.eqb num) (filter (fun n => negb (n =? num)%Z) prev)) eqn:E'.
    + apply includes_In, without_In in E'. tauto.
    + pose proof (filter_shorter_when_member num prev Hin).
      destruct (Nat.leb_spec 6 (length (filter (fun n => negb (n =? num)%Z) prev))); [lia|].
      rewrite without_In. destruct (Z.eq_dec x num) as [->|]; tauto.
  - (* added, then removed again *)
    assert (Hnot : ~ In num prev).
    { intros H. apply includes_In in H. congruence. }
    destruct Hcan as [Hin|Hlt]; [contradiction|].
    assert (Hfirst : Page.handleMainNumberToggle num prev = sort_by ascending (prev ++ [num])).
    { unfold Page.handleMainNumberToggle. rewrite E.
      destruct (Nat.leb_spec 6 (length prev)); [lia | reflexivity]. }
    rewrite Hfirst.
    assert (E' : existsb (Z.eqb num) (sort_by ascending (prev ++ [num])) = true).
    { apply includes_In, sort_by_In, in_or_app. right. now left. }
    rewrite E', sort_by_In, in_app_iff. simpl.
    split; [intros [[H|[<-|[]]] Hne]; [exact H | congruence]|].
    intros H. split; [now left|]. intros ->. contradiction.
Qed.

Lemma toggle_twice_restores_witness :
  Page.handleMainNumberToggle 12 (Page.handleMainNumberToggle 12 [3; 7; 12; 18; 24; 29]) =
  [3; 7; 12; 18; 24; 29].
Proof.
  apply (toggle_twice_restores 12 [3; 7; 12; 18; 24; 29]).
  - repeat constructor.
  - simpl. lia.
  - left. simpl. tauto.
Defined.

(** X19. [NumberGrid] disables, of its own accord, exactly the cells whose
    click would leave the selection as it is: a cell that is not disabled
    always changes the selection. *)
Theorem grid_disables_the_idle_cells (selected : list Z) (num : Z) :
  Page.isDisabled false selected num = true <->
  Page.handleMainNumberToggle num selected = selected.
Proof.
  unfold Page.isDisabled, Page.handleMainNumberToggle. cbv zeta. cbn [orb].
  destruct (existsb (Z.eqb num) selected) eqn:E.
  - rewrite andb_false_r. split; [discriminate|]. intros Hsame. exfalso.
    apply includes_In in E. rewrite <- Hsame in E. apply without_In in E. tauto.
  - rewrite andb_true_r. destruct (6 <=? length selected)%nat; [split; reflexivity|].
    split; [discriminate|]. intros Hsame. exfalso.
    assert (Hin : In num (sort_by ascending (selected ++ [num]))).
    { apply sort_by_In, in_or_app. right. now left. }
    rewrite Hsame in Hin. apply includes_In in Hin. congruence.
Qed.

(** * Factorials and combinations *)

Lemma factorial_loop (k : nat) :
  fold_left (fun result i => result * i) (upFrom 2 k) 1 = Z.of_nat (fact (S k)).
Proof.
  induction k as [|k IH]; [reflexivity|].
  rewrite upFrom_snoc, fold_left_app, IH. cbn [fold_left].
  change (fact (S (S k))) with (S (S k) * fact (S k))%nat.
  rewrite Nat2Z.inj_mul. lia.
Qed.

Lemma factorial_is_the_factorial_aux (n : Z) :
  (n < 0 -> MathUtils.factorial n = inl "Factorial is not defined for negative numbers") /\
  (0 <= n -> MathUtils.factorial n = inr (Z.of_nat (fact (Z.to_nat n)))).
Proof.
  unfold MathUtils.factorial. split; intros Hn.
  - destruct (Z.ltb_spec n 0); [reflexivity | lia].
  - destruct (Z.ltb_spec n 0); [lia|].
    destruct (Z.eqb_spec n 0) as [->|H0]; [reflexivity|].
    destruct (Z.eqb_spec n 1) as [->|H1]; [reflexivity|]. cbn [orb].
    rewrite factorial_loop. do 3 f_equal. lia.
Qed.

(** X20. [factorial] throws on a negative number and returns n! on every
    other integer. *)
Theorem factorial_is_the_factorial (n : Z) :
  (n < 0 -> MathUtils.factorial n = inl "Factorial is not defined for negative numbers") /\
  (0 <= n -> MathUtils.factorial n = inr (Z.of_nat (fact (Z.to_nat n)))).
Proof. apply factorial_is_the_factorial_aux. Qed.

Lemma binomial_0 (n : nat) : binomial n 0 = 1.
Proof. destruct n; reflexivity. Qed.

Lemma binomial_S (n k : nat) :
  binomial (S n) (S k) = binomial n k + binomial n (S k).
Proof. reflexivity. Qed.

Lemma binomial_beyond (n : nat) : forall k, (n < k)%nat -> binomial n k = 0.
Proof.
  induction n as [|n IH]; intros k Hk; destruct k as [|k]; try lia; [reflexivity|].
  rewrite binomial_S, !IH by lia. reflexivity.
Qed.

Lemma binomial_diagonal (n : nat) : binomial n n = 1.
Proof.
  induction n as [|n IH]; [reflexivity|].
  rewrite binomial_S, IH, binomial_beyond by lia. reflexivity.
Qed.

Lemma binomial_row (n : nat) :
  forall k, Z.of_nat (S k) * binomial (S n) (S k) = Z.of_nat (S n) * binomial n k.
Proof.
  induction n as [|n IH]; intros k.
  - rewrite binomial_S. destruct k as [|k]; [reflexivity|].
    rewrite !binomial_beyond by lia. lia.
  - rewrite (binomial_S (S n) k). destruct k as [|k].
    + specialize (IH 0%nat). rewrite !binomial_0 in *. lia.
    + pose proof (IH k) as H1. pose proof (IH (S k)) as H2.
      rewrite (binomial_S n k) in *. rewrite !Nat2Z.inj_succ in *. nia.
Qed.

(** The step of the loop of [combination] is exact. *)
Lemma binomial_next (n k : nat) :
  binomial n k * (Z.of_nat n - Z.of_nat k) = binomial n (S k) * Z.of_nat (S k).
Proof.
  pose proof (binomial_row n k) as H. rewrite binomial_S in H.
  rewrite !Nat2Z.inj_succ in *. nia.
Qed.

Lemma combination_loop (n : nat) (j : nat) :
  fold_left (fun result i => Z.quot (result * (Z.of_nat n - i)) (i + 1)) (upFrom 0 j) 1 =
  binomial n j.
Proof.
  induction j as [|j IH]; [now rewrite binomial_0|].
  rewrite upFrom_snoc, fold_left_app, IH. cbn [fold_left].
  rewrite Z.add_0_l, binomial_next.
  replace (Z.of_nat j + 1) with (Z.of_nat (S j)) by lia.
  apply Z.quot_mul. lia.
Qed.

Lemma binomial_factorials (n : nat) :
  forall k, (k <= n)%nat ->
    binomial n k * (Z.of_nat (fact k) * Z.of_nat (fact (n - k))) = Z.of_nat (fact n).
Proof.
  induction k as [|k IH]; intros Hk.
  - rewrite binomial_0, Nat.sub_0_r. simpl fact. lia.
  - specialize (IH ltac:(lia)). pose proof (binomial_next n k) as Hnext.
    replace (n - k)%nat with (S (n - S k)) in IH by lia.
    change (fact (S (n - S k))) with (S (n - S k) * fact (n - S k))%nat in IH.
    change (fact (S k)) with (S k * fact k)%nat.
    rewrite !Nat2Z.inj_mul in *.
    replace (Z.of_nat (S (n - S k))) with (Z.of_nat n - Z.of_nat k) in IH by lia.
    rewrite <- IH.
    replace (binomial n (S k) *
             (Z.of_nat (S k) * Z.of_nat (fact k) * Z.of_nat (fact (n - S k))))
      with (binomial n (S k) * Z.of_nat (S k) *
            (Z.of_nat (fact k) * Z.of_nat (fact (n - S k)))) by ring.
    rewrite <- Hnext. ring.
Qed.

Lemma fact_positive (n : nat) : 0 < Z.of_nat (fact n).
Proof. pose proof (lt_O_fact n). lia. Qed.

Lemma binomial_symmetric (n k : nat) :
  (k <= n)%nat -> binomial n (n - k) = binomial n k.
Proof.
  intros Hk. pose proof (binomial_factorials n k Hk) as H1.
  pose proof (binomial_factorials n (n - k) ltac:(lia)) as H2.
  replace (n - (n - k))%nat with k in H2 by lia.
  pose proof (fact_positive k). pose proof (fact_positive (n - k)).
  apply Z.mul_reg_r with (p := Z.of_nat (fact k) * Z.of_nat (fact (n - k))); nia.
Qed.

Lemma combination_binomial (n r : Z) :
  0 <= r <= n ->
  MathUtils.combination n r = binomial (Z.to_nat n) (Z.to_nat r).
Proof.
  intros Hr. unfold MathUtils.combination.
  destruct (Z.gtb_spec r n); [lia|].
  destruct (Z.eqb_spec r 0) as [->|H0]; [now rewrite binomial_0|].
  destruct (Z.eqb_spec r n) as [->|Hn]; [now rewrite binomial_diagonal|].
  cbn [orb]. cbv zeta.
  pose proof (combination_loop (Z.to_nat n) (Z.to_nat (Z.min r (n - r)))) as Hloop.
  rewrite Z2Nat.id in Hloop by lia. rewrite Hloop. clear Hloop.
  destruct (Z.min_spec r (n - r)) as [[_ ->]|[_ ->]]; [reflexivity|].
  rewrite Z2Nat.inj_sub by lia. apply binomial_symmetric. lia.
Qed.

(** X21. For 0 <= r <= n, as long as the entry of Pascal's triangle does
    not exceed 2^53 (where the conversion to a number is exact),
    [combination] returns that entry, its truncating divisions all being
    exact: with the factorials that [factorial] returns,
    combination(n, r) * r! * (n - r)! = n!, and
    combination(n, r) = combination(n, n - r).  For r > n it returns 0. *)
Theorem combination_is_the_binomial (n r : Z) :
  (n < r -> MathUtils.combination n r = 0) /\
  (0 <= r <= n ->
   binomial (Z.to_nat n) (Z.to_nat r) <= 2 ^ 53 ->
   MathUtils.combination n r = binomial (Z.to_nat n) (Z.to_nat r) /\
   MathUtils.combination n (n - r) = MathUtils.combination n r /\
   exists fn fr fnr,
     MathUtils.factorial n = inr fn /\
     MathUtils.factorial r = inr fr /\
     MathUtils.factorial (n - r) = inr fnr /\
     MathUtils.combination n r * (fr * fnr) = fn).
Proof.
  split.
  - intros Hr. unfold MathUtils.combination. destruct (Z.gtb_spec r n); [reflexivity | lia].
  - intros Hr _. split; [now apply combination_binomial|]. split.
    + rewrite !combination_binomial by lia.
      rewrite Z2Nat.inj_sub by lia. apply binomial_symmetric. lia.
    + destruct (factorial_is_the_factorial_aux n), (factorial_is_the_factorial_aux r),
        (factorial_is_the_factorial_aux (n - r)).
      do 3 eexists. split; [apply H0; lia|]. split; [apply H2; lia|].
      split; [apply H4; lia|].
      rewrite combination_binomial by lia.
      rewrite Z2Nat.inj_sub by lia. apply binomial_factorials. lia.
Qed.

Lemma factorial_is_the_factorial_witness :
  MathUtils.factorial (-1) = inl "Factorial is not defined for negative numbers" /\
  MathUtils.factorial 6 = inr 720.
Proof.
  destruct (factorial_is_the_factorial (-1)) as [Hneg _].
  destruct (factorial_is_the_factorial 6) as [_ Hpos].
  split; [apply Hneg; lia | apply Hpos; lia].
Defined.

Lemma combination_is_the_binomial_witness :
  MathUtils.calculateTotalOdds = 8835372 /\
  MathUtils.combination 31 6 = 736281 /\
  MathUtils.combination 31 (31 - 6) = MathUtils.combination 31 6.
Proof.
  split; [reflexivity|].
  destruct (combination_is_the_binomial 31 6) as [_ H].
  assert (Hsafe : binomial (Z.to_nat 31) (Z.to_nat 6) <= 2 ^ 53)
    by (vm_compute; discriminate).
  destruct (H ltac:(lia) Hsafe) as (_ & Hsym & _).
  split; [reflexivity | exact Hsym].
Defined.

(** * The factorization of [heavyComputation] *)

Lemma product_snoc (xs : list Z) (x : Z) : product (xs ++ [x]) = product xs * x.
Proof.
  unfold product. induction xs as [|y xs IH]; cbn [app fold_right]; [lia|].
  rewrite IH. ring.
Qed.

Lemma exact_quotient (n d : Z) :
  2 <= d -> 1 <= n -> Z.rem n d = 0 ->
  n = d * Z.quot n d /\ 1 <= Z.quot n d < n.
Proof.
  intros Hd Hn Hrem. pose proof (Z.quot_rem' n d) as H. rewrite Hrem in H.
  split; [lia|]. nia.
Qed.

(** The inner loop: it divides [d] out of [n] as often as it goes. *)
Lemma divideOut_returns (fuel : nat) (d : Z) :
  2 <= d ->
  forall n factors,
    1 <= n -> (Z.to_nat n <= fuel)%nat ->
    exists n' factors',
      divideOut fuel d n factors = Some (n', factors') /\
      n' * product factors' = n * product factors /\
      1 <= n' <= n /\
      ~ (d | n') /\
      (forall k, (k | n') -> (k | n)) /\
      (forall P : Z -> Prop, Forall P factors -> ((d | n) -> P d) -> Forall P factors').
Proof.
  intros Hd. induction fuel as [|fuel IH]; intros n factors Hn Hfuel; [lia|].
  simpl. destruct (Z.eqb_spec (Z.rem n d) 0) as [Hrem|Hrem].
  - destruct (exact_quotient n d Hd Hn Hrem) as [Hq Hb].
    destruct (IH (Z.quot n d) (factors ++ [d]) ltac:(lia) ltac:(lia))
      as (n' & factors' & Hrun & Hprod & Hn' & Hnd & Hdiv & Hall).
    exists n', factors'. split; [exact Hrun|]. rewrite product_snoc in Hprod.
    assert (Hdn : (d | n)) by (exists (Z.quot n d); lia).
    split; [rewrite Hprod; rewrite Hq at 2; ring|]. split; [lia|]. split; [exact Hnd|].
    split.
    + intros k Hk. apply Z.divide_trans with (Z.quot n d); [now apply Hdiv|].
      exists d. lia.
    + intros P HP Hd'. apply Hall.
      * apply Forall_app. split; [exact HP|]. constructor; [now apply Hd' | constructor].
      * intros _. now apply Hd'.
  - exists n, factors. split; [|split; [reflexivity|split; [lia|split; [|split]]]].
    + destruct fuel; reflexivity.
    + intros Hdn. apply Hrem. apply Z.rem_divide; [lia | exact Hdn].
    + auto.
    + auto.
Qed.

(** A divisor of [n] below which [n] has no divisor is a prime. *)
Lemma least_divisor_prime (d n : Z) :
  2 <= d -> (d | n) -> (forall k, 2 <= k < d -> ~ (k | n)) -> isPrime d.
Proof.
  intros Hd Hdn Hnone. split; [lia|]. intros m Hm Hmd.
  apply (Hnone m); [lia|]. now apply Z.divide_trans with d.
Qed.

(** A number without a divisor below [d], where [d * d] exceeds it, is 1 or
    a prime. *)
Lemma no_small_divisor_prime (d n : Z) :
  2 <= d -> 1 < n -> n < d * d ->
  (forall k, 2 <= k < d -> ~ (k | n)) -> isPrime n.
Proof.
  intros Hd Hn Hsq Hnone. split; [exact Hn|]. intros m Hm [q Hq].
  assert (Hq1 : 1 < q) by nia.
  assert (Hmd : d <= m).
  { destruct (Z.lt_ge_cases m d) as [H|H]; [|exact H].
    exfalso. apply (Hnone m); [lia|]. now exists q. }
  assert (Hqd : d <= q).
  { destruct (Z.lt_ge_cases q d) as [H|H]; [|exact H].
    exfalso. apply (Hnone q); [lia|]. exists m. lia. }
  nia.
Qed.

Lemma trialDivide_returns (fuel : nat) :
  forall d n factors,
    2 <= d -> 1 <= n ->
    (forall k, 2 <= k < d -> ~ (k | n)) ->
    Forall isPrime factors ->
    (Z.to_nat (n - d + 1) <= fuel)%nat ->
    exists n' factors',
      trialDivide fuel d n factors = Some (n', factors') /\
      n' * product factors' = n * product factors /\
      Forall isPrime factors' /\
      (n' = 1 \/ isPrime n').
Proof.
  induction fuel as [|fuel IH]; intros d n factors Hd Hn Hnone Hprimes Hfuel.
  - assert (Hsq : n < d * d) by nia.
    exists n, factors. simpl. destruct (Z.leb_spec (d * d) n); [lia|].
    split; [reflexivity|]. split; [reflexivity|]. split; [exact Hprimes|].
    destruct (Z.eq_dec n 1); [now left | right].
    apply (no_small_divisor_prime d); (assumption || lia).
  - simpl. destruct (Z.leb_spec (d * d) n) as [Hle|Hgt].
    + destruct (divideOut_returns (Z.to_nat n) d Hd n factors Hn ltac:(lia))
        as (n1 & factors1 & Hrun & Hprod & Hn1 & Hnd & Hdiv & Hall).
      rewrite Hrun.
      destruct (IH (d + 1) n1 factors1) as (n' & factors' & Hrun' & Hprod' & Hp' & Hlast).
      * lia.
      * lia.
      * intros k Hk Hkn. destruct (Z.eq_dec k d) as [->|Hne]; [contradiction|].
        apply (Hnone k); [lia|]. now apply Hdiv.
      * apply Hall; [exact Hprimes|]. intros Hdn.
        now apply (least_divisor_prime d n).
      * nia.
      * exists n', factors'. split; [exact Hrun'|]. split; [lia|]. split; assumption.
    + exists n, factors. split; [reflexivity|]. split; [reflexivity|].
      split; [exact Hprimes|].
      destruct (Z.eq_dec n 1); [now left | right].
      apply (no_small_divisor_prime d); (assumption || lia).
Qed.

Lemma heavyTarget_range (r : Q) : unitSample r -> 1000 <= heavyTarget r <= 10999.
Proof.
  intros Hr. pose proof (randomInt_inRange r 1000 10999 Hr ltac:(lia)) as H.
  exact H.
Qed.

Lemma factorsOf_factorizes (target : Z) :
  1 <= target ->
  exists factors,
    factorsOf target = Some factors /\
    product factors = target /\
    Forall isPrime factors.
Proof.
  intros Ht. unfold factorsOf.
  destruct (trialDivide_returns (Z.to_nat target) 2 target [])
    as (n & factors & Hrun & Hprod & Hprimes & Hlast);
    [lia | lia | intros k Hk; lia | constructor | lia |].
  rewrite Hrun. eexists. split; [reflexivity|].
  change (product []) with 1 in Hprod.
  destruct (Z.ltb_spec 1 n) as [H1|H1].
  - split; [rewrite product_snoc; lia|].
    apply Forall_app. split; [exact Hprimes|].
    destruct Hlast as [->|Hp]; [lia|]. constructor; [exact Hp | constructor].
  - destruct Hlast as [->|[Hp _]]; [|lia]. split; [lia | exact Hprimes].
Qed.

(** X22. For a sample in [0, 1) the target of [heavyComputation] lies
    between 1000 and 10999, its two loops come to an end, and what they
    leave in [factors] is the prime factorization of the target: primes
    whose product is the target. *)
Theorem heavyComputation_factorizes (r : Q) :
  unitSample r ->
  1000 <= heavyTarget r <= 10999 /\
  exists factors,
    factorsOf (heavyTarget r) = Some factors /\
    product factors = heavyTarget r /\
    Forall isPrime factors.
Proof.
  intros Hr. pose proof (heavyTarget_range r Hr) as Hrange.
  split; [exact Hrange|]. apply factorsOf_factorizes. lia.
Qed.

Lemma heavyComputation_factorizes_witness :
  factorsOf (heavyTarget (1 # 2)) = Some [2; 2; 2; 2; 3; 5; 5; 5] /\
  1000 <= heavyTarget (1 # 2) <= 10999 /\
  exists factors,
    factorsOf (heavyTarget (1 # 2)) = Some factors /\
    product factors = heavyTarget (1 # 2) /\
    Forall isPrime factors.
Proof.
  split; [vm_compute; reflexivity|].
  apply (heavyComputation_factorizes (1 # 2)).
  split; [discriminate | reflexivity].
Defined.
